(** * subdomain-finder: the reconnaissance core

    A shallow embedding of the concurrent reconnaissance pipeline of the
    repository:

    - package [limiter]: [RateLimiter] (lazy-refill token bucket), the two
      backoff strategies and [Retryer];
    - package [finder]: [Finder.checkSubdomain], [Finder.assessRisk],
      [Finder.calculateConfidence] and the goroutine structure of
      [Finder.Find];
    - package [cmd]: [runScan], and the [validate] tags of [config.Config];
    - the packages the pipeline calls and the consumers of its output:
      [wordlist], [dns] (the resolver), [ssl] (the certificate analysis),
      [vulnscanner] (the checks on the response headers), [portscanner],
      [reporter] (the summary) and [output] (the lines of the result
      file).

    Go's [int], [int64] and [time.Duration] are 64-bit two's-complement
    integers; they are modelled as [Z] with the wrap-around written out
    ([GoInt.wrap64]).  Instants ([time.Time]) are nanosecond counts in [Z].

    The first part holds the definitions: the embedding of the code, the
    wording of the design where a property compares the two, the
    invariants, and the example inputs.  The second part holds the
    properties.  Line numbers are those of the source file of the
    package: [internal/logger/logger.go] for [limiter],
    [internal/screenshot/capture.go] for [finder], [unnamed/part_002]
    for [wordlist], [unnamed/part_006] for [reporter], and the file
    named after the package for the others. *)

From Stdlib Require Import ZArith List String DecimalString Bool Lia.
From Stdlib Require Import Permutation Arith.
From Stdlib Require DecimalZ DecimalPos.
Import ListNotations.

Local Open Scope Z_scope.

(* ================================================================== *)
(** ** Go integer arithmetic *)
(* ================================================================== *)

Module GoInt.

Definition min_int64 : Z := - 2 ^ 63.
Definition max_int64 : Z := 2 ^ 63 - 1.

(** Reduction of a mathematical integer to the int64 it is stored as. *)
Definition wrap64 (z : Z) : Z := (z + 2 ^ 63) mod 2 ^ 64 - 2 ^ 63.

Definition in_int64 (z : Z) : Prop := min_int64 <= z <= max_int64.

Definition add64 (a b : Z) : Z := wrap64 (a + b).
Definition sub64 (a b : Z) : Z := wrap64 (a - b).
Definition mul64 (a b : Z) : Z := wrap64 (a * b).

(** [a / b] on int64: truncated division; the one overflowing case (the
    most negative value divided by -1) wraps.  Division by zero panics and
    is handled where the division is written. *)
Definition quot64 (a b : Z) : Z := wrap64 (Z.quot a b).

(** [uint(x)]: conversion of an int to the 64-bit unsigned type. *)
Definition to_uint64 (x : Z) : Z := x mod 2 ^ 64.

(** [x << s] on int64 with an unsigned shift count: a count of 64 or more
    shifts every bit out. *)
Definition shl64 (x s : Z) : Z :=
  if s <? 64 then wrap64 (Z.shiftl x s) else 0.

End GoInt.

(* ================================================================== *)
(** ** package limiter *)
(* ================================================================== *)

Module Limiter.
Import GoInt.

(** Go [error] values that reach the limiter's callers: the two values
    [ctx.Err()] can take, and the errors of a retried operation. *)
Inductive error : Type :=
| Canceled
| DeadlineExceeded
| OpError (msg : string).

(** [type RateLimiter struct].  The mutex is not a field of the model:
    [Wait] and [SetRate] hold it from entry to return, so each is one
    atomic transition of this record. *)
Record RateLimiter : Type := mkRateLimiter {
  rate : Z;
  interval : Z;
  tokens : Z;
  lastTime : Z
}.

(** [NewRateLimiter]; [now] is the reading of [time.Now()]. *)
Definition NewRateLimiter (rate interval now : Z) : RateLimiter :=
  {| rate := rate; interval := interval; tokens := rate; lastTime := now |}.

(** [t.Sub(u)]: the difference of two instants as a Duration, saturated
    at the bounds of int64. *)
Definition time_Sub (t u : Z) : Z :=
  Z.max min_int64 (Z.min max_int64 (t - u)).

(** [func min(a, b int) int] at the end of the package. *)
Definition min (a b : Z) : Z := if a <? b then a else b.

(** What the [select] in [Wait] receives first: the context's [Done]
    channel (with the value of [ctx.Err()]) or the timer (with the reading
    of [time.Now()] taken right after). *)
Inductive wake : Type :=
| CtxDone (e : error)
| TimerFired (now' : Z).

(** The return statement [Wait] leaves through.  The Go caller sees only
    [ret_err]; the rest records the path taken. *)
Inductive ret : Type :=
| RetToken                      (* line 158: a token was consumed *)
| RetCancelled (e : error)      (* line 165 *)
| RetWaited (waitTime : Z)      (* line 172, after the timer of line 166 *)
| RetNoWait.                    (* line 172, the [if waitTime > 0] skipped *)

Definition ret_err (r : ret) : option error :=
  match r with
  | RetCancelled e => Some e
  | RetToken | RetWaited _ | RetNoWait => None
  end.

Definition refill (rl : RateLimiter) (now tokensToAdd : Z) : RateLimiter :=
  if tokensToAdd >? 0 then
    {| rate := rate rl; interval := interval rl;
       tokens := min (add64 (tokens rl) tokensToAdd) (rate rl);
       lastTime := now |}
  else rl.

(** [RateLimiter.Wait].  [None] is the run-time panic of the integer
    division when [interval] is zero. *)
Definition Wait (rl : RateLimiter) (now : Z) (wk : wake)
  : option (ret * RateLimiter) :=
  let elapsed := time_Sub now (lastTime rl) in
  if interval rl =? 0 then None
  else
    let tokensToAdd := quot64 elapsed (interval rl) in
    let rl1 := refill rl now tokensToAdd in
    if tokens rl1 >? 0 then
      Some (RetToken,
            {| rate := rate rl1; interval := interval rl1;
               tokens := sub64 (tokens rl1) 1; lastTime := lastTime rl1 |})
    else
      let waitTime := sub64 (interval rl1) elapsed in
      if waitTime >? 0 then
        match wk with
        | CtxDone e => Some (RetCancelled e, rl1)
        | TimerFired now' =>
            Some (RetWaited waitTime,
                  {| rate := rate rl1; interval := interval rl1;
                     tokens := sub64 (rate rl1) 1; lastTime := now' |})
        end
      else Some (RetNoWait, rl1).

(** [RateLimiter.SetRate]. *)
Definition SetRate (rl : RateLimiter) (r : Z) : RateLimiter :=
  {| rate := r; interval := interval rl;
     tokens := tokens rl; lastTime := lastTime rl |}.

Definition GetRate (rl : RateLimiter) : Z := rate rl.

(** The state invariant of the design: the token count lies in
    [[0, rate]]. *)
Definition bucket_inv (rl : RateLimiter) : Prop :=
  0 <= tokens rl <= rate rl.

(** [Wait] in the words of the design, over unbounded integers: lazy
    refill; then a token if there is one; otherwise a blocking wait of
    [interval - elapsed] that ends cancelled or with a fresh window. *)
Definition Wait_design (rl : RateLimiter) (now : Z) (wk : wake)
  : ret * RateLimiter :=
  let elapsed := now - lastTime rl in
  let tokensToAdd := elapsed / interval rl in
  let rl1 :=
    if tokensToAdd >? 0 then
      mkRateLimiter (rate rl) (interval rl)
                    (Z.min (tokens rl + tokensToAdd) (rate rl)) now
    else rl in
  if tokens rl1 >? 0 then
    (RetToken,
     mkRateLimiter (rate rl1) (interval rl1) (tokens rl1 - 1) (lastTime rl1))
  else
    let waitTime := interval rl - elapsed in
    match wk with
    | CtxDone e => (RetCancelled e, rl1)
    | TimerFired now' =>
        (RetWaited waitTime,
         mkRateLimiter (rate rl1) (interval rl1) (rate rl1 - 1) now')
    end.

(** No operation of one [Wait] leaves the range of Go's int: the fields,
    the refill sum and the [rate - 1] of the fresh window. *)
Definition fits_int64 (rl : RateLimiter) (now : Z) : Prop :=
  in_int64 (rate rl) /\ in_int64 (tokens rl) /\ in_int64 (rate rl - 1)
  /\ in_int64 (tokens rl + time_Sub now (lastTime rl) / interval rl).

(** A sequence of calls of [Wait] on one limiter, each with the clock
    reading at its entry and what its [select] would receive; the returns
    in order and the limiter after the last call.  [None] when a call
    panics. *)
Fixpoint Wait_all (rl : RateLimiter) (inputs : list (Z * wake))
  : option (list ret * RateLimiter) :=
  match inputs with
  | [] => Some ([], rl)
  | (now, wk) :: rest =>
      match Wait rl now wk with
      | None => None
      | Some (out, rl1) =>
          match Wait_all rl1 rest with
          | None => None
          | Some (outs, rl') => Some (out :: outs, rl')
          end
      end
  end.

(** *** Backoff strategies *)

Class BackoffStrategy (B : Type) : Type := { GetDelay : B -> Z -> Z }.

Record LinearBackoff : Type := mkLinear { lb_BaseDelay : Z }.

Record ExponentialBackoff : Type := mkExponential {
  eb_BaseDelay : Z;
  eb_MaxDelay : Z
}.

Definition LinearBackoff_GetDelay (lb : LinearBackoff) (attempt : Z) : Z :=
  mul64 (lb_BaseDelay lb) attempt.

(** In [time.Duration(1<<uint(attempt-1))] the constant [1] takes the
    type of the conversion, so the shift is an int64 shift. *)
Definition ExponentialBackoff_GetDelay (eb : ExponentialBackoff) (attempt : Z) : Z :=
  let delay := mul64 (eb_BaseDelay eb) (shl64 1 (to_uint64 (sub64 attempt 1))) in
  if delay >? eb_MaxDelay eb then eb_MaxDelay eb else delay.

#[export] Instance LinearBackoff_strategy : BackoffStrategy LinearBackoff :=
  {| GetDelay := LinearBackoff_GetDelay |}.

#[export] Instance ExponentialBackoff_strategy : BackoffStrategy ExponentialBackoff :=
  {| GetDelay := ExponentialBackoff_GetDelay |}.

Definition millisecond : Z := 1000000.
Definition second : Z := 1000000000.

(** *** Retryer *)

(** [type RetryConfig struct]; [B] is the dynamic type of the
    [BackoffStrategy] held in [Backoff] (a nil interface value, on which
    the first retry would panic, has no counterpart here). *)
Record RetryConfig (B : Type) : Type := mkRetryConfig {
  MaxRetries : Z;
  Delay : Z;
  Backoff : B
}.
Arguments MaxRetries {B} _.
Arguments Delay {B} _.
Arguments Backoff {B} _.
Arguments mkRetryConfig {B} _ _ _.

Record Retryer (B : Type) : Type := mkRetryer { config : RetryConfig B }.
Arguments config {B} _.
Arguments mkRetryer {B} _.

Definition NewRetryer {B : Type} (config : RetryConfig B) : Retryer B :=
  mkRetryer config.

(** The effects of a retry, in the order they happen: a backoff sleep
    (with the delay asked of [time.After], and the value of [ctx.Err()]
    when the context won the [select]) and a call of the operation (with
    the value and the error it returned; [None] is a nil error). *)
Inductive event (T : Type) : Type :=
| EvSleep (delay : Z) (cancelled : option error)
| EvCall (val : T) (err : option error).
Arguments EvSleep {T} _ _.
Arguments EvCall {T} _ _.

Definition is_call {T : Type} (ev : event T) : bool :=
  match ev with EvCall _ _ => true | EvSleep _ _ => false end.

(** Number of invocations of the operation recorded in a log. *)
Definition calls {T : Type} (log : list (event T)) : Z :=
  Z.of_nat (List.length (filter is_call log)).

Section Retry.

Context {B : Type} {strategy : BackoffStrategy B}.

(** The world the operation and the context live in. *)
Variable W : Type.

(** [select { case <-ctx.Done(): ...; case <-time.After(delay): }]:
    [Some e] when the context is done first, with [e] the value of
    [ctx.Err()]. *)
Variable after : Z -> W -> option error * W.

(** Lines 230-237 (and 255-262): the backoff sleep before an attempt. *)
Definition backoff_sleep {T : Type} (r : Retryer B) (attempt : Z) (w : W)
    (log : list (event T)) : option error * W * list (event T) :=
  if attempt >? 0 then
    let delay := GetDelay (Backoff (config r)) attempt in
    let '(c, w') := after delay w in
    (c, w', log ++ [EvSleep delay c])
  else (None, w, log).

(** The [for] loop of [Retryer.Execute], entered with the loop variable at
    [attempt].  [fuel] bounds the number of evaluations of the loop
    condition; [None] is fuel exhausted. *)
Fixpoint Execute_loop (fuel : nat) (r : Retryer B)
    (fn : W -> option error * W) (attempt : Z) (lastErr : option error)
    (w : W) (log : list (event unit))
  : option (option error * W * list (event unit)) :=
  match fuel with
  | O => None
  | S fuel' =>
      if attempt <=? MaxRetries (config r) then
        match backoff_sleep r attempt w log with
        | (Some e, w1, log1) => Some (Some e, w1, log1)
        | (None, w1, log1) =>
            let '(err, w2) := fn w1 in
            let log2 := log1 ++ [EvCall tt err] in
            match err with
            | None => Some (None, w2, log2)
            | Some e =>
                Execute_loop fuel' r fn (add64 attempt 1) (Some e) w2 log2
            end
        end
      else Some (lastErr, w, log)
  end.

(** [Retryer.Execute]: the returned error, the world after, and the log
    of effects. *)
Definition Execute (fuel : nat) (r : Retryer B) (fn : W -> option error * W)
    (w : W) : option (option error * W * list (event unit)) :=
  Execute_loop fuel r fn 0 None w [].

(** The [for] loop of [Retryer.ExecuteWithResult]. *)
Fixpoint ExecuteWithResult_loop {T : Type} (fuel : nat) (r : Retryer B)
    (fn : W -> (T * option error) * W) (attempt : Z) (result : T)
    (lastErr : option error) (w : W) (log : list (event T))
  : option ((T * option error) * W * list (event T)) :=
  match fuel with
  | O => None
  | S fuel' =>
      if attempt <=? MaxRetries (config r) then
        match backoff_sleep r attempt w log with
        | (Some e, w1, log1) => Some ((result, Some e), w1, log1)
        | (None, w1, log1) =>
            let '((res, err), w2) := fn w1 in
            let log2 := log1 ++ [EvCall res err] in
            match err with
            | None => Some ((res, None), w2, log2)
            | Some e =>
                ExecuteWithResult_loop fuel' r fn (add64 attempt 1) res
                  (Some e) w2 log2
            end
        end
      else Some ((result, lastErr), w, log)
  end.

(** [Retryer.ExecuteWithResult]; [zero] is the zero value of [T], the
    initial value of [var result T]. *)
Definition ExecuteWithResult {T : Type} (fuel : nat) (r : Retryer B)
    (zero : T) (fn : W -> (T * option error) * W) (w : W)
  : option ((T * option error) * W * list (event T)) :=
  ExecuteWithResult_loop fuel r fn 0 zero None w [].

End Retry.

(** *** The retry loop in the words of the design

    [attempts_from maxRetries delay a v lastErr log out]: the attempts
    [a], [a+1], ..., [maxRetries], entered with [v] and [lastErr] as the
    last observed value and error, have the effects [log] and the outcome
    [out].  Before an attempt [a > 0] comes one sleep of [delay a]; a
    cancelled sleep ends the retry with the cancellation error; a
    successful call ends it with its value; a failed call records its
    value and error and goes on; with no attempt left the outcome is what
    was recorded last. *)

Definition slept {T : Type} (delay : Z -> Z) (a : Z) : list (event T) :=
  if a >? 0 then [EvSleep (delay a) None] else [].

Inductive attempts_from {T : Type} (maxRetries : Z) (delay : Z -> Z)
  : Z -> T -> option error -> list (event T) -> T * option error -> Prop :=
| af_exhausted (a : Z) (v : T) (lastErr : option error) :
    maxRetries < a ->
    attempts_from maxRetries delay a v lastErr [] (v, lastErr)
| af_cancelled (a : Z) (v : T) (lastErr : option error) (e : error) :
    a <= maxRetries -> 0 < a ->
    attempts_from maxRetries delay a v lastErr
      [EvSleep (delay a) (Some e)] (v, Some e)
| af_success (a : Z) (v : T) (lastErr : option error) (v' : T) :
    a <= maxRetries ->
    attempts_from maxRetries delay a v lastErr
      (slept delay a ++ [EvCall v' None]) (v', None)
| af_failure (a : Z) (v : T) (lastErr : option error) (v' : T) (e : error)
    (rest : list (event T)) (out : T * option error) :
    a <= maxRetries ->
    attempts_from maxRetries delay (a + 1) v' (Some e) rest out ->
    attempts_from maxRetries delay a v lastErr
      (slept delay a ++ EvCall v' (Some e) :: rest) out.

(** The retry goes on after this effect: a sleep that was not cancelled,
    a call that failed. *)
Definition goes_on {T : Type} (ev : event T) : Prop :=
  match ev with
  | EvSleep _ c => c = None
  | EvCall _ e => e <> None
  end.

(** The value and error last observed along a log, starting from
    [init]: a call leaves what it returned, a cancelled sleep leaves the
    cancellation error beside the value observed before. *)
Definition observe {T : Type} (acc : T * option error) (ev : event T)
  : T * option error :=
  match ev with
  | EvCall v e => (v, e)
  | EvSleep _ (Some e) => (fst acc, Some e)
  | EvSleep _ None => acc
  end.

Definition last_observed {T : Type} (init : T * option error)
    (log : list (event T)) : T * option error :=
  fold_left observe log init.

(** What the design says of one retry, as a property of its log of
    effects and its outcome: the effects are those of the attempts
    0..maxRetries; the operation is called at least once and at most
    [maxRetries + 1] times; the first effect is the call of attempt 0;
    every sleep is the backoff delay of an attempt [a >= 1]; a success or
    a cancelled sleep ends the retry at once; the outcome is what was
    observed last; and when every call fails and no sleep is cancelled
    there are exactly [maxRetries + 1] calls. *)
Definition retry_contract {T : Type} (maxRetries : Z) (delay : Z -> Z)
    (zero : T) (log : list (event T)) (out : T * option error) : Prop :=
  attempts_from maxRetries delay 0 zero None log out
  /\ 1 <= calls log <= maxRetries + 1
  /\ (exists v e rest, log = EvCall v e :: rest)
  /\ (forall dl c, In (EvSleep dl c) log ->
      exists a, 1 <= a <= maxRetries /\ dl = delay a)
  /\ Forall goes_on (removelast log)
  /\ out = last_observed (zero, None) log
  /\ (Forall goes_on log -> calls log = maxRetries + 1).

(** [replays after fn w log w']: the effects of [log] are, in order, what
    the [select] and the operation did from the world [w], which they
    left as [w']: every sleep recorded is [after] asked for the recorded
    delay, with the outcome it had there, and every call recorded is a
    call of [fn], with the value and the error it returned there. *)
Fixpoint replays {T W : Type} (after : Z -> W -> option error * W)
    (fn : W -> (T * option error) * W) (w : W) (log : list (event T))
    (w' : W) : Prop :=
  match log with
  | [] => w' = w
  | EvSleep delay c :: rest =>
      fst (after delay w) = c
      /\ replays after fn (snd (after delay w)) rest w'
  | EvCall v e :: rest =>
      fst (fn w) = (v, e) /\ replays after fn (snd (fn w)) rest w'
  end.

(** An operation [func() error] as one that returns no value beside its
    error. *)
Definition no_value {W : Type} (fn : W -> option error * W)
  : W -> (unit * option error) * W :=
  fun w => ((tt, fst (fn w)), snd (fn w)).

End Limiter.

(* ================================================================== *)
(** ** package types and package finder *)
(* ================================================================== *)

Module Finder.
Import GoInt.

Local Open Scope string_scope.

(** A Go slice is [None] when nil and [Some l] otherwise; [len] and
    [range] do not tell the two apart. *)
Definition slice (A : Type) : Type := option (list A).

Definition elems {A : Type} (s : slice A) : list A :=
  match s with Some l => l | None => [] end.

Definition len {A : Type} (s : slice A) : Z := Z.of_nat (List.length (elems s)).

(** [types.Technology] *)
Record Technology : Type := mkTechnology {
  tech_Name : string;
  tech_Version : string;
  tech_Category : string;
  tech_Confidence : Z;
  tech_Description : string;
  tech_Website : string;
  tech_Icon : string
}.

(** [types.PortInfo] *)
Record PortInfo : Type := mkPortInfo {
  port_Port : Z;
  port_Protocol : string;
  port_State : string;
  port_Service : string;
  port_Banner : string;
  port_Version : string
}.

(** [types.SSLInfo] *)
Record SSLInfo : Type := mkSSLInfo {
  ssl_Valid : bool;
  ssl_Expired : bool;
  ssl_ExpiresSoon : bool;
  ssl_DaysUntilExpiry : Z;
  ssl_Issuer : string;
  ssl_Subject : string;
  ssl_SerialNumber : string;
  ssl_SignatureAlgorithm : string;
  ssl_PublicKeyAlgorithm : string;
  ssl_KeySize : Z;
  ssl_Grade : string;
  ssl_Vulnerabilities : slice string;
  ssl_NotBefore : Z;
  ssl_NotAfter : Z
}.

(** [types.Vulnerability] *)
Record Vulnerability : Type := mkVulnerability {
  vuln_Name : string;
  vuln_Severity : string;
  vuln_Description : string;
  vuln_CVSS : string;
  vuln_CVE : string;
  vuln_Solution : string;
  vuln_References : slice string
}.

(** [types.Result], with the fields the finder reads or writes.  The
    remaining fields of the struct (Title, ContentLength, Headers, Cookies,
    Redirects, DNS, GeoLocation) keep their zero value throughout, and
    Metadata is an empty map on every emitted record. *)
Record Result : Type := mkResult {
  Subdomain : string;
  IP : string;
  Status : string;
  Response : string;
  Server : string;
  ResponseTime : Z;
  Technologies : slice Technology;
  Ports : slice PortInfo;
  SSL : option SSLInfo;
  Vulnerabilities : slice Vulnerability;
  RiskLevel : string;
  Confidence : Z;
  Timestamp : Z
}.

(** [types.Result{}] *)
Definition zero_Result : Result :=
  {| Subdomain := ""; IP := ""; Status := ""; Response := ""; Server := "";
     ResponseTime := 0; Technologies := None; Ports := None; SSL := None;
     Vulnerabilities := None; RiskLevel := ""; Confidence := 0;
     Timestamp := 0 |}.

(** *** Risk assessment *)

(** The [switch vuln.Severity] of [assessRisk]: the amount added to the
    score for one finding. *)
Definition severity_points (sev : string) : Z :=
  if sev =? "Critical" then 10
  else if sev =? "High" then 7
  else if sev =? "Medium" then 4
  else if sev =? "Low" then 1
  else 0.

(** The value of the local variable [riskScore] of [assessRisk] when the
    threshold tests are reached. *)
Definition riskScore (result : Result) : Z :=
  let s :=
    fold_left (fun acc vuln => add64 acc (severity_points (vuln_Severity vuln)))
              (elems (Vulnerabilities result)) 0 in
  let s :=
    match SSL result with
    | Some ssl =>
        let s := if ssl_Expired ssl then add64 s 8 else s in
        let s := if ssl_ExpiresSoon ssl then add64 s 3 else s in
        if len (ssl_Vulnerabilities ssl) >? 0 then add64 s 5 else s
    | None => s
    end in
  let s := if len (Ports result) >? 10 then add64 s 3 else s in
  if Status result =? "403" then add64 s 2
  else if Status result =? "500" then add64 s 5
  else s.

(** [Finder.assessRisk] *)
Definition assessRisk (result : Result) : string :=
  let riskScore := riskScore result in
  if riskScore >=? 15 then "high"
  else if riskScore >=? 8 then "medium"
  else if riskScore >=? 3 then "low"
  else "info".

(** [Finder.calculateConfidence] *)
Definition calculateConfidence (result : Result) : Z :=
  let confidence := 50 in
  let confidence :=
    if negb (IP result =? "") then add64 confidence 20 else confidence in
  let confidence :=
    if negb (Status result =? "") then add64 confidence 15 else confidence in
  let confidence :=
    if len (Technologies result) >? 0 then add64 confidence 10 else confidence in
  let confidence :=
    match SSL result with
    | Some _ => add64 confidence 5
    | None => confidence
    end in
  if confidence >? 100 then 100 else confidence.

(** *** The scoring rules in the words of the design *)

(** Number of findings of one severity. *)
Definition count_severity (sev : string) (result : Result) : Z :=
  Z.of_nat
    (List.length
       (filter (fun vuln => vuln_Severity vuln =? sev)
               (elems (Vulnerabilities result)))).

(** The score as the sum of the design: the severities, the certificate
    state, the port count, the HTTP status. *)
Definition risk_score_design (result : Result) : Z :=
  10 * count_severity "Critical" result
  + 7 * count_severity "High" result
  + 4 * count_severity "Medium" result
  + 1 * count_severity "Low" result
  + match SSL result with
    | Some ssl =>
        (if ssl_Expired ssl then 8 else 0)
        + (if ssl_ExpiresSoon ssl then 3 else 0)
        + (if (0 <? len (ssl_Vulnerabilities ssl))%Z then 5 else 0)
    | None => 0
    end
  + (if (10 <? len (Ports result))%Z then 3 else 0)
  + (if Status result =? "403" then 2
     else if Status result =? "500" then 5 else 0).

(** The thresholds of the design. *)
Definition risk_level_design (score : Z) : string :=
  if (15 <=? score)%Z then "high"
  else if (8 <=? score)%Z then "medium"
  else if (3 <=? score)%Z then "low"
  else "info".

(** A record whose only findings are the vulnerabilities [vulns]. *)
Definition with_findings (vulns : list Vulnerability) : Result :=
  {| Subdomain := "www.example.com"; IP := "93.184.216.34"; Status := "200";
     Response := ""; Server := ""; ResponseTime := 0; Technologies := None;
     Ports := None; SSL := None; Vulnerabilities := Some vulns;
     RiskLevel := ""; Confidence := 0; Timestamp := 0 |}.

(** The four signals of the confidence value. *)
Definition ip_resolved (result : Result) : bool := negb (IP result =? "").
Definition status_obtained (result : Result) : bool :=
  negb (Status result =? "").
Definition tech_fingerprinted (result : Result) : bool :=
  (0 <? len (Technologies result))%Z.
Definition cert_obtained (result : Result) : bool :=
  match SSL result with Some _ => true | None => false end.

Definition confidence_design (result : Result) : Z :=
  Z.min 100
    (50
     + (if ip_resolved result then 20 else 0)
     + (if status_obtained result then 15 else 0)
     + (if tech_fingerprinted result then 10 else 0)
     + (if cert_obtained result then 5 else 0)).

(** The points of a list of findings, and the findings of one severity
    in a list. *)
Definition sum_points (vulns : list Vulnerability) : Z :=
  fold_right (fun vuln acc => severity_points (vuln_Severity vuln) + acc) 0 vulns.

Definition count_in (sev : string) (vulns : list Vulnerability) : Z :=
  Z.of_nat
    (List.length (filter (fun vuln => vuln_Severity vuln =? sev) vulns)).

(** *** The probe pipeline *)

(** [http.HTTPResponse], the fields [Check] reads. *)
Record HTTPResponse : Type := mkHTTPResponse {
  StatusCode : Z;
  resp_Title : string;
  resp_Server : string;
  resp_Length : Z
}.

(** [fmt.Sprintf("%d", n)] *)
Definition Sprintf_d (n : Z) : string := NilZero.string_of_int (Z.to_int n).

(** [portscanner.PortResult] *)
Record PortResult : Type := mkPortResult {
  pr_Port : Z;
  pr_Protocol : string;
  pr_State : string;
  pr_Service : string;
  pr_Banner : string
}.

(** [ssl.SSLResult] with its [*CertificateInfo] flattened: the fields
    [checkSubdomain] copies. *)
Record SSLResult : Type := mkSSLResult {
  sr_IsSecure : bool;
  sr_Grade : string;
  cert_IsExpired : bool;
  cert_IsExpiringSoon : bool;
  cert_DaysUntilExpiry : Z;
  cert_Issuer : string;
  cert_Subject : string;
  cert_SerialNumber : string;
  cert_SignatureAlgorithm : string;
  cert_PublicKeyAlgorithm : string;
  cert_Vulnerabilities : slice string;
  cert_NotBefore : Z;
  cert_NotAfter : Z
}.

(** [techdetect.Technology] and the fields of [techdetect.TechResult]
    that are read. *)
Record DetectedTech : Type := mkDetectedTech {
  dt_Name : string;
  dt_Version : string;
  dt_Category : string;
  dt_Confidence : Z;
  dt_Description : string;
  dt_Website : string
}.

Record TechResult : Type := mkTechResult {
  tr_Technologies : slice DetectedTech;
  tr_Server : string
}.

(** [vulnscanner.Vulnerability], the fields that are copied. *)
Record ScannedVuln : Type := mkScannedVuln {
  sv_Name : string;
  sv_Severity : string;
  sv_Description : string;
  sv_CVSS : string;
  sv_CVE : string;
  sv_Solution : string;
  sv_References : slice string
}.

(** The collaborators of one pipeline execution.  Each network probe is a
    function of its argument: the environment of a run is fixed, as with
    the mocked resolver the design's tests speak of.  A Go
    [(value, error)] result is [inl value] when the error is nil and
    [inr message] otherwise.  These are the results of calls that return;
    the calls that block or panic ([extractTitle] under [makeRequest], the
    TLS handshake under [Analyze]) are those of [Runs.Hazards]. *)
Record Probes : Type := mkProbes {
  dns_Resolve : string -> string + string;
  makeRequest : string -> option HTTPResponse;   (* nil: no response *)
  QuickScan : string -> option (slice PortResult);
  ssl_Analyze : string -> Z -> SSLResult + string;
  tech_Detect : string -> TechResult + string;
  vuln_ScanURL : string -> slice ScannedVuln + string;
  clock_Now : string -> Z;
  clock_Since : string -> Z
}.

Definition response_summary (response : HTTPResponse) : string * string :=
  (Sprintf_d (StatusCode response),
   "Status: " ++ Sprintf_d (StatusCode response)
   ++ ", Server: " ++ resp_Server response
   ++ ", Title: " ++ resp_Title response
   ++ ", Length: " ++ Sprintf_d (resp_Length response)).

(** [http.Checker.Check]: the first of [http://domain] and
    [https://domain] that answers, else the placeholder. *)
Definition Check (env : Probes) (domain : string) : string * string :=
  match makeRequest env ("http://" ++ domain) with
  | Some response => response_summary response
  | None =>
      match makeRequest env ("https://" ++ domain) with
      | Some response => response_summary response
      | None => ("N/A", "No HTTP response")
      end
  end.

Definition to_PortInfo (port : PortResult) : PortInfo :=
  {| port_Port := pr_Port port; port_Protocol := pr_Protocol port;
     port_State := pr_State port; port_Service := pr_Service port;
     port_Banner := pr_Banner port; port_Version := "" |}.

Definition to_SSLInfo (sslResult : SSLResult) : SSLInfo :=
  {| ssl_Valid := sr_IsSecure sslResult;
     ssl_Expired := cert_IsExpired sslResult;
     ssl_ExpiresSoon := cert_IsExpiringSoon sslResult;
     ssl_DaysUntilExpiry := cert_DaysUntilExpiry sslResult;
     ssl_Issuer := cert_Issuer sslResult;
     ssl_Subject := cert_Subject sslResult;
     ssl_SerialNumber := cert_SerialNumber sslResult;
     ssl_SignatureAlgorithm := cert_SignatureAlgorithm sslResult;
     ssl_PublicKeyAlgorithm := cert_PublicKeyAlgorithm sslResult;
     ssl_KeySize := 0;
     ssl_Grade := sr_Grade sslResult;
     ssl_Vulnerabilities := cert_Vulnerabilities sslResult;
     ssl_NotBefore := cert_NotBefore sslResult;
     ssl_NotAfter := cert_NotAfter sslResult |}.

Definition to_Technology (tech : DetectedTech) : Technology :=
  {| tech_Name := dt_Name tech; tech_Version := dt_Version tech;
     tech_Category := dt_Category tech; tech_Confidence := dt_Confidence tech;
     tech_Description := dt_Description tech; tech_Website := dt_Website tech;
     tech_Icon := "" |}.

Definition to_Vulnerability (vuln : ScannedVuln) : Vulnerability :=
  {| vuln_Name := sv_Name vuln; vuln_Severity := sv_Severity vuln;
     vuln_Description := sv_Description vuln; vuln_CVSS := sv_CVSS vuln;
     vuln_CVE := sv_CVE vuln; vuln_Solution := sv_Solution vuln;
     vuln_References := sv_References vuln |}.

(** The record [checkSubdomain] has built when it reaches the risk
    assessment (line 459). *)
Definition probe_stages (env : Probes) (subdomain ip : string) : Result :=
  let '(status, response) := Check env subdomain in
  let ports :=
    match QuickScan env ip with
    | Some portResult =>
        Some (map to_PortInfo
                  (filter (fun port => pr_State port =? "open") (elems portResult)))
    | None => None
    end in
  let ssl :=
    match ssl_Analyze env subdomain 443 with
    | inl sslResult => Some (to_SSLInfo sslResult)
    | inr _ => None
    end in
  let '(technologies, server) :=
    match tech_Detect env ("https://" ++ subdomain) with
    | inl techResult =>
        (Some (map to_Technology (elems (tr_Technologies techResult))),
         tr_Server techResult)
    | inr _ => (None, "")
    end in
  let vulnerabilities :=
    match vuln_ScanURL env ("https://" ++ subdomain) with
    | inl vulns => Some (map to_Vulnerability (elems vulns))
    | inr _ => None
    end in
  {| Subdomain := subdomain; IP := ip; Status := status; Response := response;
     Server := server; ResponseTime := 0; Technologies := technologies;
     Ports := ports; SSL := ssl; Vulnerabilities := vulnerabilities;
     RiskLevel := ""; Confidence := 0; Timestamp := clock_Now env subdomain |}.

Definition set_RiskLevel (result : Result) (level : string) : Result :=
  {| Subdomain := Subdomain result; IP := IP result; Status := Status result;
     Response := Response result; Server := Server result;
     ResponseTime := ResponseTime result; Technologies := Technologies result;
     Ports := Ports result; SSL := SSL result;
     Vulnerabilities := Vulnerabilities result;
     RiskLevel := level; Confidence := Confidence result;
     Timestamp := Timestamp result |}.

Definition set_Confidence (result : Result) (c : Z) : Result :=
  {| Subdomain := Subdomain result; IP := IP result; Status := Status result;
     Response := Response result; Server := Server result;
     ResponseTime := ResponseTime result; Technologies := Technologies result;
     Ports := Ports result; SSL := SSL result;
     Vulnerabilities := Vulnerabilities result;
     RiskLevel := RiskLevel result; Confidence := c;
     Timestamp := Timestamp result |}.

Definition set_ResponseTime (result : Result) (d : Z) : Result :=
  {| Subdomain := Subdomain result; IP := IP result; Status := Status result;
     Response := Response result; Server := Server result;
     ResponseTime := d; Technologies := Technologies result;
     Ports := Ports result; SSL := SSL result;
     Vulnerabilities := Vulnerabilities result;
     RiskLevel := RiskLevel result; Confidence := Confidence result;
     Timestamp := Timestamp result |}.

(** [Finder.checkSubdomain] *)
Definition checkSubdomain (env : Probes) (subdomain : string) : Result :=
  match dns_Resolve env subdomain with
  | inr _ => zero_Result
  | inl ip =>
      let result := probe_stages env subdomain ip in
      let result := set_RiskLevel result (assessRisk result) in
      let result := set_Confidence result (calculateConfidence result) in
      set_ResponseTime result (clock_Since env subdomain)
  end.

(** *** Finder.Find

    [Find] starts one goroutine per word, a closer goroutine, and collects
    from [resultsChan].  The model is the interleaving semantics of these
    goroutines: a state records where each of them stands, and one step
    is one of them executing its next statement.  [step] takes every call
    of [checkSubdomain] to return; [Runs.run_step] restricts it to the
    calls that do, and adds the panic. *)

Local Open Scope Z_scope.
Local Open Scope list_scope.

(** [finder.Config] *)
Record Config : Type := mkConfig {
  Domain : string;
  Wordlist : string;
  Threads : Z;
  Timeout : Z;
  RateLimit : Z;
  OutputFile : string;
  Verbose : bool;
  JSON : bool;
  XML : bool;
  Progress : bool;
  Stats : bool;
  NoColor : bool;
  UserAgent : string;
  Headers : list string;
  Retries : Z;
  Delay : Z
}.

(** Where a goroutine [func(w string)] of lines 344-355 stands. *)
Inductive phase : Type :=
| AtGate                   (* at [semaphore <- struct{}{}], line 346 *)
| InPipeline               (* holds a slot; lines 349-350, in [checkSubdomain] *)
| AtSend (result : Result) (* holds a slot; at the test of line 352 *)
| AtRelease                (* holds a slot; at the deferred [<-semaphore] *)
| AtDone.                  (* at the deferred [wg.Done()] *)

Record goroutine : Type := mkGoroutine {
  g_word : string;
  g_phase : phase
}.

(** Where the goroutine that called [Find] stands: in the [for] loop of
    line 342 with the words still to dispatch, in the [range] loop of line
    363, or returned. *)
Inductive main_pc : Type :=
| Dispatching (rest : list string)
| Collecting
| Returned.

(** The closer goroutine of lines 358-361. *)
Inductive closer_pc : Type :=
| NotSpawned
| AtWait      (* at [wg.Wait()] *)
| Closed.     (* [close(resultsChan)] executed *)

Record state : Type := mkState {
  main : main_pc;
  workers : list goroutine;     (* the live goroutines [func(w string)] *)
  closer : closer_pc;
  semaphore : Z;                (* number of elements buffered in [semaphore] *)
  wg : Z;                       (* counter of the WaitGroup *)
  resultsChan : list Result;    (* buffer of [resultsChan], oldest first *)
  results : list Result         (* the slice [results] *)
}.

Definition holds_slot (g : goroutine) : bool :=
  match g_phase g with
  | InPipeline | AtSend _ | AtRelease => true
  | AtGate | AtDone => false
  end.

Definition in_pipeline (g : goroutine) : bool :=
  match g_phase g with
  | InPipeline => true
  | _ => false
  end.

Definition at_gate (g : goroutine) : bool :=
  match g_phase g with
  | AtGate => true
  | _ => false
  end.

(** Number of pipeline executions in flight, and of executions queued on
    the admission gate. *)
Definition executing (s : state) : Z :=
  Z.of_nat (List.length (filter in_pipeline (workers s))).

Definition queued (s : state) : Z :=
  Z.of_nat (List.length (filter at_gate (workers s))).

Section Scheduler.

Variable cfg : Config.
Variable env : Probes.

(** The words of the wordlist, [f.wordlist.GetWords()]. *)
Variable words : list string.

(** Line 349. *)
Definition candidate (w : string) : string := (w ++ "." ++ Domain cfg)%string.

(** The state after line 340.  [make] panics on a negative capacity:
    there is no initial state then. *)
Definition Find_init : option state :=
  if Threads cfg <? 0 then None
  else Some {| main := Dispatching words; workers := []; closer := NotSpawned;
               semaphore := 0; wg := 0; resultsChan := []; results := [] |}.

Inductive step : state -> state -> Prop :=
(* lines 342-344: [wg.Add(1)] and the [go] statement *)
| step_spawn (w : string) (rest : list string) (s : state) :
    main s = Dispatching (w :: rest) ->
    step s {| main := Dispatching rest;
              workers := workers s ++ [mkGoroutine w AtGate];
              closer := closer s; semaphore := semaphore s;
              wg := wg s + 1;
              resultsChan := resultsChan s; results := results s |}
(* line 358: the loop is over, the closer goroutine starts *)
| step_loop_exit (s : state) :
    main s = Dispatching [] ->
    step s {| main := Collecting; workers := workers s; closer := AtWait;
              semaphore := semaphore s; wg := wg s;
              resultsChan := resultsChan s; results := results s |}
(* line 346: the send on [semaphore] goes through when its buffer has room *)
| step_acquire (pre post : list goroutine) (w : string) (s : state) :
    workers s = pre ++ mkGoroutine w AtGate :: post ->
    semaphore s < Threads cfg ->
    step s {| main := main s;
              workers := pre ++ mkGoroutine w InPipeline :: post;
              closer := closer s; semaphore := semaphore s + 1; wg := wg s;
              resultsChan := resultsChan s; results := results s |}
(* lines 349-350, when the call of [checkSubdomain] returns; the calls
   that do not return are those of [Runs.run_step] *)
| step_check (pre post : list goroutine) (w : string) (s : state) :
    workers s = pre ++ mkGoroutine w InPipeline :: post ->
    step s {| main := main s;
              workers :=
                pre ++ mkGoroutine w (AtSend (checkSubdomain env (candidate w)))
                    :: post;
              closer := closer s; semaphore := semaphore s; wg := wg s;
              resultsChan := resultsChan s; results := results s |}
(* lines 352-353: the send goes through when the buffer, of capacity
   [len(words)], has room and the channel is open *)
| step_send (pre post : list goroutine) (w : string) (r : Result) (s : state) :
    workers s = pre ++ mkGoroutine w (AtSend r) :: post ->
    Subdomain r <> "" ->
    (List.length (resultsChan s) < List.length words)%nat ->
    closer s <> Closed ->
    step s {| main := main s;
              workers := pre ++ mkGoroutine w AtRelease :: post;
              closer := closer s; semaphore := semaphore s; wg := wg s;
              resultsChan := resultsChan s ++ [r]; results := results s |}
(* line 352, the test fails *)
| step_skip (pre post : list goroutine) (w : string) (r : Result) (s : state) :
    workers s = pre ++ mkGoroutine w (AtSend r) :: post ->
    Subdomain r = "" ->
    step s {| main := main s;
              workers := pre ++ mkGoroutine w AtRelease :: post;
              closer := closer s; semaphore := semaphore s; wg := wg s;
              resultsChan := resultsChan s; results := results s |}
(* line 347, deferred: the receive from [semaphore] *)
| step_release (pre post : list goroutine) (w : string) (s : state) :
    workers s = pre ++ mkGoroutine w AtRelease :: post ->
    0 < semaphore s ->
    step s {| main := main s;
              workers := pre ++ mkGoroutine w AtDone :: post;
              closer := closer s; semaphore := semaphore s - 1; wg := wg s;
              resultsChan := resultsChan s; results := results s |}
(* line 345, deferred: [wg.Done()]; the goroutine ends *)
| step_done (pre post : list goroutine) (w : string) (s : state) :
    workers s = pre ++ mkGoroutine w AtDone :: post ->
    step s {| main := main s; workers := pre ++ post;
              closer := closer s; semaphore := semaphore s; wg := wg s - 1;
              resultsChan := resultsChan s; results := results s |}
(* lines 359-360: [wg.Wait()] returns when the counter is zero *)
| step_close (s : state) :
    closer s = AtWait ->
    wg s = 0 ->
    step s {| main := main s; workers := workers s; closer := Closed;
              semaphore := semaphore s; wg := wg s;
              resultsChan := resultsChan s; results := results s |}
(* lines 363-364 *)
| step_collect (r : Result) (rest : list Result) (s : state) :
    main s = Collecting ->
    resultsChan s = r :: rest ->
    step s {| main := main s; workers := workers s; closer := closer s;
              semaphore := semaphore s; wg := wg s;
              resultsChan := rest; results := results s ++ [r] |}
(* line 363 on a closed and drained channel, then line 367 *)
| step_return (s : state) :
    main s = Collecting ->
    resultsChan s = [] ->
    closer s = Closed ->
    step s {| main := Returned; workers := workers s; closer := closer s;
              semaphore := semaphore s; wg := wg s;
              resultsChan := resultsChan s; results := results s |}.

(** Executions: finite sequences of steps. *)
Inductive steps : state -> state -> Prop :=
| steps_refl (s : state) : steps s s
| steps_step (s1 s2 s3 : state) : steps s1 s2 -> step s2 s3 -> steps s1 s3.

Definition reachable (s : state) : Prop :=
  exists s0, Find_init = Some s0 /\ steps s0 s.

(** [Find] returns [out]. *)
Definition Find_returns (out : list Result) : Prop :=
  exists s, reachable s /\ main s = Returned /\ results s = out.

(** What the goroutine for [w] sends, if anything. *)
Definition emitted (w : string) : list Result :=
  let result := checkSubdomain env (candidate w) in
  if (Subdomain result =? "")%string then [] else [result].

(** *** Invariants of the scheduler *)

(** What a live goroutine has still to send. *)
Definition pending_of (g : goroutine) : list Result :=
  match g_phase g with
  | AtGate | InPipeline => emitted (g_word g)
  | AtSend r => if (Subdomain r =? "")%string then [] else [r]
  | AtRelease | AtDone => []
  end.

(** The words the [for] loop has still to dispatch. *)
Definition undispatched (pc : main_pc) : list string :=
  match pc with
  | Dispatching rest => rest
  | Collecting | Returned => []
  end.

Record scheduler_inv (s : state) : Prop := mkInv {
  (* the WaitGroup counts the live goroutines *)
  inv_wg : wg s = Z.of_nat (List.length (workers s));
  (* the semaphore holds one element per goroutine between its send on
     it and its receive from it *)
  inv_sem : semaphore s = Z.of_nat (List.length (filter holds_slot (workers s)));
  inv_cap : semaphore s <= Threads cfg;
  (* the closer starts when the dispatch loop is over *)
  inv_closer : match main s with
               | Dispatching _ => closer s = NotSpawned
               | Collecting | Returned => closer s <> NotSpawned
               end;
  (* the channel is closed only when every goroutine is gone *)
  inv_closed : closer s = Closed -> workers s = [];
  inv_returned : main s = Returned -> resultsChan s = [] /\ closer s = Closed;
  (* every record to emit is collected, buffered, or still to be sent *)
  inv_account :
    Permutation
      (results s ++ resultsChan s ++ flat_map pending_of (workers s)
       ++ flat_map emitted (undispatched (main s)))
      (flat_map emitted words)
}.

(** A bound on the number of steps left. *)
Definition phase_weight (g : goroutine) : nat :=
  match g_phase g with
  | AtGate => 6
  | InPipeline => 5
  | AtSend _ => 4
  | AtRelease => 2
  | AtDone => 1
  end.

Definition steps_left (s : state) : nat :=
  (match main s with
   | Dispatching rest => 7 * List.length rest + 3
   | Collecting => 1
   | Returned => 0
   end
   + match closer s with
     | NotSpawned | AtWait => 1
     | Closed => 0
     end
   + list_sum (map phase_weight (workers s))
   + List.length (resultsChan s))%nat.

(** The state in which every word has its goroutine and all of them
    stand at the gate. *)
Definition all_queued : state :=
  {| main := Dispatching [];
     workers := map (fun w => mkGoroutine w AtGate) words;
     closer := NotSpawned; semaphore := 0;
     wg := Z.of_nat (List.length words);
     resultsChan := []; results := [] |}.

End Scheduler.

End Finder.

(* ================================================================== *)
(** ** package config and package cmd *)
(* ================================================================== *)

Module Config.

Local Open Scope string_scope.

(** [config.Config], the struct that carries the [validate] tags. *)
Record Config : Type := mkConfig {
  Domain : string;      (* validate:"required" *)
  Wordlist : string;
  Threads : Z;          (* validate:"min=1,max=1000" *)
  Timeout : Z;          (* validate:"min=1,max=60" *)
  RateLimit : Z;        (* validate:"min=0" *)
  OutputFile : string;
  Verbose : bool;
  JSON : bool;
  XML : bool;
  Progress : bool;
  Stats : bool;
  NoColor : bool;
  UserAgent : string;
  Headers : list string;
  Retries : Z;          (* validate:"min=0,max=10" *)
  Delay : Z             (* validate:"min=0" *)
}.

(** [Loader.ValidateConfig]: [validator.Struct] over the tags above;
    [true] is a nil error. *)
Definition ValidateConfig (c : Config) : bool :=
  negb (Domain c =? "")
  && ((1 <=? Threads c) && (Threads c <=? 1000))%Z
  && ((1 <=? Timeout c) && (Timeout c <=? 60))%Z
  && (0 <=? RateLimit c)%Z
  && ((0 <=? Retries c) && (Retries c <=? 10))%Z
  && (0 <=? Delay c)%Z.

End Config.

Module Cmd.

Local Open Scope string_scope.

(** The package-level flag variables of the scan command. *)
Record Flags : Type := mkFlags {
  wordlist : string;
  threads : Z;
  timeout : Z;
  rateLimit : Z;
  outputFile : string;
  jsonOutput : bool;
  xmlOutput : bool;
  progress : bool;
  stats : bool;
  noColor : bool;
  userAgent : string;
  headers : list string;
  retries : Z;
  delay : Z
}.

(** The defaults registered in [init]. *)
Definition default_flags : Flags :=
  {| wordlist := ""; threads := 10; timeout := 5; rateLimit := 0;
     outputFile := ""; jsonOutput := false; xmlOutput := false;
     progress := true; stats := true; noColor := false;
     userAgent := "SubdomainFinder/1.0.0"; headers := [];
     retries := 3; delay := 0 |}.

(** How a run of the scan command ends up: rejected before the scheduler
    starts, or with [finder.NewFinder(cfg).Find()] called on [cfg]. *)
Inductive outcome : Type :=
| Rejected (reason : string)
| Scheduled (cfg : Finder.Config).

(** [runScan], up to the call of [finder.Find] on line 112; [verbose] is
    [viper.GetBool("verbose")] and [domain] is [args[0]]. *)
Definition runScan (fl : Flags) (verbose : bool) (domain : string) : outcome :=
  let cfg :=
    {| Finder.Domain := domain;
       Finder.Wordlist := wordlist fl;
       Finder.Threads := threads fl;
       Finder.Timeout := timeout fl;
       Finder.RateLimit := rateLimit fl;
       Finder.OutputFile := outputFile fl;
       Finder.Verbose := verbose;
       Finder.JSON := jsonOutput fl;
       Finder.XML := xmlOutput fl;
       Finder.Progress := progress fl;
       Finder.Stats := stats fl;
       Finder.NoColor := noColor fl;
       Finder.UserAgent := userAgent fl;
       Finder.Headers := headers fl;
       Finder.Retries := retries fl;
       Finder.Delay := delay fl |} in
  Scheduled cfg.

(** The [config.Config] with the field values of a [finder.Config]. *)
Definition as_config (cfg : Finder.Config) : Config.Config :=
  {| Config.Domain := Finder.Domain cfg;
     Config.Wordlist := Finder.Wordlist cfg;
     Config.Threads := Finder.Threads cfg;
     Config.Timeout := Finder.Timeout cfg;
     Config.RateLimit := Finder.RateLimit cfg;
     Config.OutputFile := Finder.OutputFile cfg;
     Config.Verbose := Finder.Verbose cfg;
     Config.JSON := Finder.JSON cfg;
     Config.XML := Finder.XML cfg;
     Config.Progress := Finder.Progress cfg;
     Config.Stats := Finder.Stats cfg;
     Config.NoColor := Finder.NoColor cfg;
     Config.UserAgent := Finder.UserAgent cfg;
     Config.Headers := Finder.Headers cfg;
     Config.Retries := Finder.Retries cfg;
     Config.Delay := Finder.Delay cfg |}.

End Cmd.

(* ================================================================== *)
(** ** Example inputs *)
(* ================================================================== *)

Module Examples.
Import Limiter Finder.

(** A concrete retryer: [MaxRetries = 3], exponential backoff of 100ms
    capped at 1s.  The world counts the calls made so far; the operation
    fails until call number [k]; the context is never done. *)
Definition retryer3 : Retryer ExponentialBackoff :=
  NewRetryer (mkRetryConfig 3 0 (mkExponential (100 * millisecond) second)).

Definition never_done (delay : Z) (w : nat) : option error * nat := (None, w).

Definition fails_until (k : nat) (w : nat) : option error * nat :=
  (if (w <? k)%nat then Some (OpError "refused") else None, S w).

Definition fails_until_value (k : nat) (w : nat)
  : (nat * option error) * nat :=
  ((w, if (w <? k)%nat then Some (OpError "refused") else None), S w).

(** A finding of the given severity. *)
Definition finding (sev : string) : Vulnerability :=
  mkVulnerability "finding" sev "" "" "" "" None.

(** A record with the four signals of the confidence value. *)
Definition all_signals : Result :=
  {| Subdomain := "www.example.com"; IP := "93.184.216.34"; Status := "200";
     Response := ""; Server := ""; ResponseTime := 0;
     Technologies := Some [mkTechnology "nginx" "" "Web Server" 90 "" "" ""];
     Ports := None;
     SSL := Some (mkSSLInfo true false false 90 "" "" "" "" "" 0 "A" None 0 0);
     Vulnerabilities := None; RiskLevel := ""; Confidence := 0;
     Timestamp := 0 |}.

(** A scan of example.com with two slots. *)
Definition example_cfg : Config :=
  {| Domain := "example.com"; Wordlist := ""; Threads := 2; Timeout := 5;
     RateLimit := 0; OutputFile := ""; Verbose := false; JSON := false;
     XML := false; Progress := true; Stats := true; NoColor := false;
     UserAgent := "SubdomainFinder/1.0.0"; Headers := []; Retries := 3;
     Delay := 0 |}.

(** A resolver that knows only www.example.com; every later probe
    fails. *)
Definition example_env : Probes :=
  {| dns_Resolve := fun domain =>
       if (domain =? "www.example.com")%string then inl "93.184.216.34"%string
       else inr ("no A record found for " ++ domain)%string;
     makeRequest := fun _ => None;
     QuickScan := fun _ => Some (Some []);
     ssl_Analyze := fun _ _ => inr "dial tcp: i/o timeout"%string;
     tech_Detect := fun _ => inr "dial tcp: i/o timeout"%string;
     vuln_ScanURL := fun _ => inr "dial tcp: i/o timeout"%string;
     clock_Now := fun _ => 0;
     clock_Since := fun _ => 0 |}.

Definition example_words : list string :=
  ["www"; "api"; "mail"; "dev"; "ftp"]%string.

End Examples.

(* ================================================================== *)
(** ** Retry logs and executions of the scheduler *)
(* ================================================================== *)

Module RetryLog.
Import Limiter.

(** The delays asked of [time.After] along a log, summed: an upper bound
    of the time a retry spends sleeping (a cancelled sleep ends early). *)
Definition total_sleep {T : Type} (log : list (event T)) : Z :=
  fold_right (fun ev acc =>
                match ev with
                | EvSleep delay _ => delay + acc
                | EvCall _ _ => acc
                end) 0 log.

End RetryLog.

Module Runs.
Import Finder.

(** Whether the candidate of a word resolves. *)
Definition resolves (cfg : Config) (env : Probes) (w : string) : bool :=
  match dns_Resolve env (candidate cfg w) with
  | inl _ => true
  | inr _ => false
  end.

Section Counted.

Variable cfg : Config.
Variable env : Probes.
Variable words : list string.

(** Executions of [Find] with their number of steps. *)
Inductive steps_n : nat -> state -> state -> Prop :=
| steps_n_O (s : state) : steps_n 0 s s
| steps_n_S (n : nat) (s1 s2 s3 : state) :
    steps_n n s1 s2 -> step cfg env words s2 s3 -> steps_n (S n) s1 s3.

End Counted.

(** *** Calls of the pipeline that do not return

    [Finder.step_check] is the return of the call of [checkSubdomain] on
    line 350, and [Probes] gives what the calls of the pipeline return.
    A call need not return.  [Checker.makeRequest] panics in
    [extractTitle] (checker.go:93-105) when it slices the body at an
    index found in the lower-cased body and that index lies beyond the
    body; [SSLAnalyzer.Analyze] blocks in [tlsConn.Handshake()]
    (analyzer.go:70), which has no deadline, on a server that accepts the
    connection and stays silent.  [Find] has no [recover], so a panic in
    one goroutine ends the process; and it waits for every goroutine, so
    one that is blocked keeps it from returning. *)

Inductive fate : Type :=
| Returns
| Blocks     (* the call never returns *)
| Panics.    (* the call panics, and nothing recovers *)

(** What becomes of each call the pipeline makes, by the arguments of the
    call. *)
Record Hazards : Type := mkHazards {
  Resolve_fate : string -> fate;
  makeRequest_fate : string -> fate;
  QuickScan_fate : string -> fate;
  Analyze_fate : string -> Z -> fate;
  Detect_fate : string -> fate;
  ScanURL_fate : string -> fate
}.

(** One call, then what follows it when it returns. *)
Definition and_then (first rest : fate) : fate :=
  match first with
  | Returns => rest
  | Blocks => Blocks
  | Panics => Panics
  end.

(** [Checker.Check]: the request of [https://domain] is made only when
    that of [http://domain] returns nil. *)
Definition Check_fate (hz : Hazards) (env : Probes) (domain : string) : fate :=
  and_then (makeRequest_fate hz ("http://" ++ domain))
    match makeRequest env ("http://" ++ domain) with
    | Some _ => Returns
    | None => makeRequest_fate hz ("https://" ++ domain)
    end.

(** [Finder.checkSubdomain]: the calls in the order of lines 378-457;
    nothing is called after a resolution that fails. *)
Definition checkSubdomain_fate (hz : Hazards) (env : Probes)
    (subdomain : string) : fate :=
  and_then (Resolve_fate hz subdomain)
    match dns_Resolve env subdomain with
    | inr _ => Returns
    | inl ip =>
        and_then (Check_fate hz env subdomain)
          (and_then (QuickScan_fate hz ip)
             (and_then (Analyze_fate hz subdomain 443)
                (and_then (Detect_fate hz ("https://" ++ subdomain))
                   (ScanURL_fate hz ("https://" ++ subdomain)))))
    end.

(** A process in which [Find] runs: alive in a state of the scheduler, or
    ended by a panic. *)
Inductive process : Type :=
| Running (s : state)
| Crashed.

Definition steps_left_of (p : process) : nat :=
  match p with
  | Running s => steps_left s
  | Crashed => 0
  end.

Section Fates.

Variable cfg : Config.
Variable env : Probes.
Variable hz : Hazards.
Variable words : list string.

(** What becomes of the call of line 350 in the goroutine of a word. *)
Definition word_fate (w : string) : fate :=
  checkSubdomain_fate hz env (candidate cfg w).

(** From [s] to [s'] the goroutine of [w] at position [length pre] comes
    back from the call of line 350. *)
Definition call_returns (s s' : state) (w : string) : Prop :=
  exists pre post,
    workers s = pre ++ mkGoroutine w InPipeline :: post
    /\ workers s'
       = pre ++ mkGoroutine w (AtSend (checkSubdomain env (candidate cfg w)))
             :: post.

(** The steps of [Find] when calls may block or panic: a step of
    [Finder.step], which is the return of a call only for a call that
    returns; and the panic of a call under way. *)
Inductive run_step : process -> process -> Prop :=
| run_statement (s s' : state) :
    step cfg env words s s' ->
    (forall w, call_returns s s' w -> word_fate w = Returns) ->
    run_step (Running s) (Running s')
| run_panic (pre post : list goroutine) (w : string) (s : state) :
    workers s = pre ++ mkGoroutine w InPipeline :: post ->
    word_fate w = Panics ->
    run_step (Running s) Crashed.

(** Executions with their number of steps. *)
Inductive run_n : nat -> process -> process -> Prop :=
| run_n_O (p : process) : run_n 0 p p
| run_n_S (n : nat) (p1 p2 p3 : process) :
    run_n n p1 p2 -> run_step p2 p3 -> run_n (S n) p1 p3.

Definition run_reachable (p : process) : Prop :=
  exists s0 n, Find_init cfg words = Some s0 /\ run_n n (Running s0) p.

End Fates.

(** No call blocks or panics. *)
Definition no_hazard : Hazards :=
  {| Resolve_fate := fun _ => Returns;
     makeRequest_fate := fun _ => Returns;
     QuickScan_fate := fun _ => Returns;
     Analyze_fate := fun _ _ => Returns;
     Detect_fate := fun _ => Returns;
     ScanURL_fate := fun _ => Returns |}.

(** www.example.com accepts the connection on port 443 and never answers
    the handshake. *)
Definition silent_tls : Hazards :=
  {| Resolve_fate := fun _ => Returns;
     makeRequest_fate := fun _ => Returns;
     QuickScan_fate := fun _ => Returns;
     Analyze_fate := fun host port =>
       if ((host =? "www.example.com")%string && (port =? 443)%Z)%bool
       then Blocks else Returns;
     Detect_fate := fun _ => Returns;
     ScanURL_fate := fun _ => Returns |}.

(** [Find] at its [range] loop while the one goroutine, that of [w], is
    in its call of [checkSubdomain]. *)
Definition waiting_on (w : string) : state :=
  {| main := Collecting; workers := [mkGoroutine w InPipeline];
     closer := AtWait; semaphore := 1; wg := 1;
     resultsChan := []; results := [] |}.

(** The scan of example.com with no slot, and one of its states: the
    goroutine of the first word is past the gate, the others are queued. *)
Definition no_slot_cfg : Config :=
  {| Domain := "example.com"; Wordlist := ""; Threads := 0; Timeout := 5;
     RateLimit := 0; OutputFile := ""; Verbose := false; JSON := false;
     XML := false; Progress := true; Stats := true; NoColor := false;
     UserAgent := "SubdomainFinder/1.0.0"; Headers := []; Retries := 3;
     Delay := 0 |}.

(** The state in which [Find] enters its dispatch loop. *)
Definition entry (words : list string) : state :=
  {| main := Dispatching words; workers := []; closer := NotSpawned;
     semaphore := 0; wg := 0; resultsChan := []; results := [] |}.

Definition first_admitted (words : list string) : state :=
  match words with
  | [] => all_queued words
  | w :: rest =>
      {| main := Dispatching [];
         workers := mkGoroutine w InPipeline
                    :: map (fun w => mkGoroutine w AtGate) rest;
         closer := NotSpawned; semaphore := 1;
         wg := Z.of_nat (List.length words);
         resultsChan := []; results := [] |}
  end.

End Runs.

(* ================================================================== *)
(** ** package wordlist *)
(* ================================================================== *)

Module Wordlist.

Local Open Scope string_scope.

(** [type Wordlist struct] *)
Record Wordlist : Type := mkWordlist {
  words : list string;
  filePath : string
}.

(** The literal of [loadDefault]. *)
Definition defaultWords : list string :=
  ["www"; "mail"; "ftp"; "localhost"; "webmail"; "smtp"; "pop"; "ns1";
   "webdisk"; "ns2"; "cpanel"; "whm"; "autodiscover"; "autoconfig"; "m";
   "imap"; "test"; "ns"; "blog"; "pop3"; "dev"; "www2"; "admin"; "forum";
   "news"; "vpn"; "ns3"; "mail2"; "new"; "mysql"; "old"; "www1"; "www3";
   "www4"; "www5"; "www6"; "www7"; "www8"; "www9"; "www10"; "api"; "api1";
   "api2"; "api3"; "api4"; "api5"; "api6"; "api7"; "api8"; "api9"; "api10";
   "app"; "app1"; "app2"; "app3"; "app4"; "app5"; "app6"; "app7"; "app8";
   "app9"; "app10"; "beta"; "staging"; "dev1"; "dev2"; "dev3"; "dev4";
   "dev5"; "test1"; "test2"; "test3"; "test4"; "test5"; "stage";
   "staging1"; "staging2"; "staging3"; "staging4"; "staging5"; "demo";
   "demo1"; "demo2"; "demo3"; "demo4"; "demo5"; "alpha"; "beta1"; "beta2";
   "beta3"; "beta4"; "beta5"; "gamma"; "gamma1"; "gamma2"; "gamma3";
   "gamma4"; "gamma5"; "delta"; "delta1"; "delta2"; "delta3"; "delta4";
   "delta5"; "epsilon"; "epsilon1"; "epsilon2"; "epsilon3"; "epsilon4";
   "epsilon5"; "zeta"; "zeta1"; "zeta2"; "zeta3"; "zeta4"; "zeta5"; "eta";
   "eta1"; "eta2"; "eta3"; "eta4"; "eta5"; "theta"; "theta1"; "theta2";
   "theta3"; "theta4"; "theta5"; "iota"; "iota1"; "iota2"; "iota3";
   "iota4"; "iota5"; "kappa"; "kappa1"; "kappa2"; "kappa3"; "kappa4";
   "kappa5"; "lambda"; "lambda1"; "lambda2"; "lambda3"; "lambda4";
   "lambda5"; "mu"; "mu1"; "mu2"; "mu3"; "mu4"; "mu5"; "nu"; "nu1"; "nu2";
   "nu3"; "nu4"; "nu5"; "xi"; "xi1"; "xi2"; "xi3"; "xi4"; "xi5"; "omicron";
   "omicron1"; "omicron2"; "omicron3"; "omicron4"; "omicron5"; "pi"; "pi1";
   "pi2"; "pi3"; "pi4"; "pi5"; "rho"; "rho1"; "rho2"; "rho3"; "rho4";
   "rho5"; "sigma"; "sigma1"; "sigma2"; "sigma3"; "sigma4"; "sigma5";
   "tau"; "tau1"; "tau2"; "tau3"; "tau4"; "tau5"; "upsilon"; "upsilon1";
   "upsilon2"; "upsilon3"; "upsilon4"; "upsilon5"; "phi"; "phi1"; "phi2";
   "phi3"; "phi4"; "phi5"; "chi"; "chi1"; "chi2"; "chi3"; "chi4"; "chi5";
   "psi"; "psi1"; "psi2"; "psi3"; "psi4"; "psi5"; "omega"; "omega1";
   "omega2"; "omega3"; "omega4"; "omega5"; "a"; "b"; "c"; "d"; "e"; "f";
   "g"; "h"; "i"; "j"; "k"; "l"; "m"; "n"; "o"; "p"; "q"; "r"; "s"; "t";
   "u"; "v"; "w"; "x"; "y"; "z"; "0"; "1"; "2"; "3"; "4"; "5"; "6"; "7";
   "8"; "9"; "10"; "11"; "12"; "13"; "14"; "15"; "16"; "17"; "18"; "19";
   "20"; "21"; "22"; "23"; "24"; "25"; "26"; "27"; "28"; "29"; "30"; "31";
   "32"; "33"; "34"; "35"; "36"; "37"; "38"; "39"; "40"; "41"; "42"; "43";
   "44"; "45"; "46"; "47"; "48"; "49"; "50"; "51"; "52"; "53"; "54"; "55";
   "56"; "57"; "58"; "59"; "60"; "61"; "62"; "63"; "64"; "65"; "66"; "67";
   "68"; "69"; "70"; "71"; "72"; "73"; "74"; "75"; "76"; "77"; "78"; "79";
   "80"; "81"; "82"; "83"; "84"; "85"; "86"; "87"; "88"; "89"; "90"; "91";
   "92"; "93"; "94"; "95"; "96"; "97"; "98"; "99"; "100"].

(** The test of line 44 on a trimmed line. *)
Definition keeps (word : string) : bool :=
  negb (word =? "") && negb (prefix "#" word).

Section Files.

(** [strings.TrimSpace] *)
Variable TrimSpace : string -> string.

(** The file system: [inr err] when [os.Open] fails on the path;
    otherwise the lines [scanner.Text()] delivers until [scanner.Scan()]
    returns false, and the value of [scanner.Err()] ([None] is nil). *)
Variable readLines : string -> (list string * option string) + string.

(** [Wordlist.loadFromFile]: the wordlist after the call and the error
    returned. *)
Definition loadFromFile (w : Wordlist) : Wordlist * option string :=
  match readLines (filePath w) with
  | inr err => (w, Some ("failed to open wordlist file: " ++ err))
  | inl (lines, err) =>
      ({| words := words w ++ filter keeps (map TrimSpace lines);
          filePath := filePath w |}, err)
  end.

(** [Wordlist.loadDefault] *)
Definition loadDefault (w : Wordlist) : Wordlist :=
  {| words := defaultWords; filePath := filePath w |}.

(** [NewWordlist]; the error of [loadFromFile] is dropped. *)
Definition NewWordlist (filePath : string) : Wordlist :=
  let wl := {| words := []; filePath := filePath |} in
  if negb (filePath =? "") then fst (loadFromFile wl) else loadDefault wl.

(** [Wordlist.GetWords] *)
Definition GetWords (w : Wordlist) : list string := words w.

(** The [words] of [Find] on the finder [NewFinder(config)] (capture.go,
    lines 320 and 335). *)
Definition Find_words (config : Finder.Config) : list string :=
  GetWords (NewWordlist (Finder.Wordlist config)).

End Files.

(** [Wordlist.AddWord] *)
Definition AddWord (w : Wordlist) (word : string) : Wordlist :=
  {| words := words w ++ [word]; filePath := filePath w |}.

(** The loop of [RemoveWord]: the slice without the first element equal
    to [word]. *)
Fixpoint remove_first (word : string) (l : list string) : list string :=
  match l with
  | [] => []
  | wordItem :: rest =>
      if wordItem =? word then rest else wordItem :: remove_first word rest
  end.

(** [Wordlist.RemoveWord] *)
Definition RemoveWord (w : Wordlist) (word : string) : Wordlist :=
  {| words := remove_first word (words w); filePath := filePath w |}.

(** [Wordlist.GetCount] *)
Definition GetCount (w : Wordlist) : Z := Z.of_nat (List.length (words w)).

(** Whether no element of a list occurs twice. *)
Fixpoint distinct (l : list string) : bool :=
  match l with
  | [] => true
  | x :: rest => negb (existsb (String.eqb x) rest) && distinct rest
  end.

(** A scan with a wordlist file that cannot be opened, and a scan with
    the default wordlist against a resolver that knows m.example.com. *)
Definition missing_cfg : Finder.Config :=
  {| Finder.Domain := "example.com"; Finder.Wordlist := "missing.txt";
     Finder.Threads := 2; Finder.Timeout := 5; Finder.RateLimit := 0;
     Finder.OutputFile := ""; Finder.Verbose := false; Finder.JSON := false;
     Finder.XML := false; Finder.Progress := true; Finder.Stats := true;
     Finder.NoColor := false; Finder.UserAgent := "SubdomainFinder/1.0.0";
     Finder.Headers := []; Finder.Retries := 3; Finder.Delay := 0 |}.

Definition no_file (path : string) : (list string * option string) + string :=
  inr "open missing.txt: no such file or directory".

Definition one_file (path : string) : (list string * option string) + string :=
  inl (["# hosts"; "www"; ""; "api"], None).

Definition m_env : Finder.Probes :=
  {| Finder.dns_Resolve := fun domain =>
       if domain =? "m.example.com" then inl "93.184.216.34"
       else inr ("no A record found for " ++ domain);
     Finder.makeRequest := fun _ => None;
     Finder.QuickScan := fun _ => Some (Some []);
     Finder.ssl_Analyze := fun _ _ => inr "dial tcp: i/o timeout";
     Finder.tech_Detect := fun _ => inr "dial tcp: i/o timeout";
     Finder.vuln_ScanURL := fun _ => inr "dial tcp: i/o timeout";
     Finder.clock_Now := fun _ => 0%Z;
     Finder.clock_Since := fun _ => 0%Z |}.

End Wordlist.

(* ================================================================== *)
(** ** package dns *)
(* ================================================================== *)

Module Dns.

Local Open Scope string_scope.

(** The records of an answer section, by their dynamic type: [*dns.A]
    with the text of its address ([A.String()]), [*dns.CNAME] with its
    target, [*dns.MX] with its host, [*dns.TXT] with its strings, and
    every other type. *)
Inductive RR : Type :=
| RR_A (ip : string)
| RR_CNAME (target : string)
| RR_MX (mx : string)
| RR_TXT (txt : list string)
| RR_other.

(** [dns.Msg], the fields of a response that are read. *)
Record Msg : Type := mkMsg {
  Rcode : Z;
  Answer : list RR
}.

Definition RcodeSuccess : Z := 0.

Inductive Qtype : Type := TypeA | TypeCNAME | TypeMX | TypeTXT.

(** The literal of each resolving method. *)
Definition servers : list string := ["8.8.8.8:53"; "1.1.1.1:53"; "8.8.4.4:53"].

Section Client.

(** [r.client.Exchange(msg, server)] for the question (name, type):
    [None] when it returns an error. *)
Variable Exchange : string -> Qtype -> string -> option Msg.

(** The loop of lines 78-82. *)
Fixpoint first_A (answers : list RR) : option string :=
  match answers with
  | [] => None
  | RR_A ip :: _ => Some ip
  | _ :: rest => first_A rest
  end.

(** The loop of lines 68-83 over the servers left. *)
Fixpoint resolveA_from (domain : string) (servers : list string)
  : string + string :=
  match servers with
  | [] => inr ("no A record found for " ++ domain)
  | server :: rest =>
      match Exchange domain TypeA server with
      | None => resolveA_from domain rest
      | Some response =>
          if negb (Rcode response =? RcodeSuccess)%Z then
            resolveA_from domain rest
          else
            match first_A (Answer response) with
            | Some ip => inl ip
            | None => resolveA_from domain rest
            end
      end
  end.

(** [Resolver.resolveA] *)
Definition resolveA (domain : string) : string + string :=
  resolveA_from domain servers.

(** [Resolver.Resolve]: the [select] receives the outcome of [resolveA]
    or, when [timed_out], the end of the context first. *)
Definition Resolve (timed_out : bool) (domain : string) : string + string :=
  if timed_out then inr "context deadline exceeded" else resolveA domain.

(** The loop of lines 145-149. *)
Fixpoint all_MX (answers : list RR) : list string :=
  match answers with
  | [] => []
  | RR_MX mx :: rest => mx :: all_MX rest
  | _ :: rest => all_MX rest
  end.

(** The loop of lines 135-151 over the servers left: the value of
    [mxRecords] after it. *)
Fixpoint ResolveMX_from (domain : string) (servers : list string)
  : list string :=
  match servers with
  | [] => []
  | server :: rest =>
      match Exchange domain TypeMX server with
      | None => ResolveMX_from domain rest
      | Some response =>
          if negb (Rcode response =? RcodeSuccess)%Z then
            ResolveMX_from domain rest
          else all_MX (Answer response)
      end
  end.

(** [Resolver.ResolveMX] *)
Definition ResolveMX (domain : string) : list string + string :=
  let mxRecords := ResolveMX_from domain servers in
  if (Z.of_nat (List.length mxRecords) =? 0)%Z then
    inr ("no MX records found for " ++ domain)
  else inl mxRecords.

(** What one server contributes to [resolveA]: the first A record of its
    answer, when it answers with [RcodeSuccess]. *)
Definition A_from (domain server : string) : option string :=
  match Exchange domain TypeA server with
  | Some response =>
      if (Rcode response =? RcodeSuccess)%Z then first_A (Answer response)
      else None
  | None => None
  end.

End Client.

(** Servers for the examples: the first answers every question with an
    empty answer section, the second knows the address and the mail host
    of example.com, the third does not answer. *)
Definition split_horizon (domain : string) (q : Qtype) (server : string)
  : option Msg :=
  if server =? "8.8.8.8:53" then Some (mkMsg 0 [])
  else if server =? "1.1.1.1:53" then
    Some (mkMsg 0 [RR_CNAME "example.com."; RR_A "93.184.216.34";
                   RR_MX "mail.example.com."])
  else None.

(** The probes whose resolver asks these servers and never times out. *)
Definition served_env : Finder.Probes :=
  {| Finder.dns_Resolve := fun domain => Resolve split_horizon false domain;
     Finder.makeRequest := fun _ => None;
     Finder.QuickScan := fun _ => Some (Some []);
     Finder.ssl_Analyze := fun _ _ => inr "dial tcp: i/o timeout";
     Finder.tech_Detect := fun _ => inr "dial tcp: i/o timeout";
     Finder.vuln_ScanURL := fun _ => inr "dial tcp: i/o timeout";
     Finder.clock_Now := fun _ => 0%Z;
     Finder.clock_Since := fun _ => 0%Z |}.

End Dns.

(* ================================================================== *)
(** ** strings and slices *)
(* ================================================================== *)

Module GoLib.

Local Open Scope string_scope.

(** [strings.Contains]: [substr] occurs in [s] as a run of bytes. *)
Fixpoint Contains (s substr : string) : bool :=
  if prefix substr s then true
  else
    match s with
    | EmptyString => false
    | String _ rest => Contains rest substr
    end.

(** [append(s, x)] on a slice that may be nil. *)
Definition append {A : Type} (s : Finder.slice A) (x : A) : Finder.slice A :=
  Some (Finder.elems s ++ [x])%list.

End GoLib.

(* ================================================================== *)
(** ** package ssl *)
(* ================================================================== *)

Module Ssl.
Import GoInt GoLib.

Local Open Scope string_scope.

(** [x509.SignatureAlgorithm] and [x509.PublicKeyAlgorithm]: the values
    the analyzer tells apart. *)
Inductive SignatureAlgorithm : Type :=
| MD5WithRSA
| SHA1WithRSA
| OtherSignatureAlgorithm.

Inductive PublicKeyAlgorithm : Type :=
| RSA
| DSA
| ECDSA
| Ed25519
| UnknownPublicKeyAlgorithm.

(** [x509.Certificate], the fields that are read; [Subject] and [Issuer]
    hold the text of [String()]. *)
Record Certificate : Type := mkCertificate {
  x_Subject : string;
  x_Issuer : string;
  x_NotBefore : Z;
  x_NotAfter : Z;
  x_SignatureAlgorithm : SignatureAlgorithm;
  x_PublicKeyAlgorithm : PublicKeyAlgorithm;
  x_DNSNames : Finder.slice string
}.

(** [type CertificateInfo struct], without the fields that are only
    copied from the certificate (serial number, key usage, addresses). *)
Record CertificateInfo : Type := mkCertificateInfo {
  Subject : string;
  Issuer : string;
  NotBefore : Z;
  NotAfter : Z;
  DNSNames : Finder.slice string;
  IsValid : bool;
  DaysUntilExpiry : Z;
  IsSelfSigned : bool;
  IsWildcard : bool;
  IsExpired : bool;
  IsExpiringSoon : bool;
  Strength : string;
  Vulnerabilities : Finder.slice string
}.

(** [SSLAnalyzer.isWildcard] *)
Definition isWildcard (dnsNames : Finder.slice string) : bool :=
  existsb (fun name => prefix "*." name) (Finder.elems dnsNames).

(** [SSLAnalyzer.getKeyStrength] *)
Definition getKeyStrength (algorithm : PublicKeyAlgorithm) : string :=
  match algorithm with
  | RSA => "RSA (strength depends on key size)"
  | DSA => "DSA (deprecated)"
  | ECDSA => "ECDSA (elliptic curve)"
  | Ed25519 => "Ed25519 (modern)"
  | UnknownPublicKeyAlgorithm => "Unknown"
  end.

(** [SSLAnalyzer.checkVulnerabilities] *)
Definition checkVulnerabilities (cert : Certificate) : Finder.slice string :=
  let vulnerabilities : Finder.slice string := None in
  let vulnerabilities :=
    match x_SignatureAlgorithm cert with
    | MD5WithRSA => append vulnerabilities "MD5 signature (weak)"
    | _ => vulnerabilities
    end in
  let vulnerabilities :=
    match x_SignatureAlgorithm cert with
    | SHA1WithRSA => append vulnerabilities "SHA1 signature (weak)"
    | _ => vulnerabilities
    end in
  match x_PublicKeyAlgorithm cert with
  | DSA => append vulnerabilities "DSA public key (deprecated)"
  | _ => vulnerabilities
  end.

(** [SSLAnalyzer.analyzeCertificate]; [now] is the reading of
    [time.Now()] and [daysUntilExpiry] the value of line 100, a
    floating-point computation on [cert.NotAfter.Sub(now)] that is not
    modelled. *)
Definition analyzeCertificate (cert : Certificate) (now daysUntilExpiry : Z)
  : CertificateInfo :=
  {| Subject := x_Subject cert;
     Issuer := x_Issuer cert;
     NotBefore := x_NotBefore cert;
     NotAfter := x_NotAfter cert;
     DNSNames := x_DNSNames cert;
     IsValid := (x_NotBefore cert <? now)%Z && (now <? x_NotAfter cert)%Z;
     DaysUntilExpiry := daysUntilExpiry;
     IsSelfSigned := x_Issuer cert =? x_Subject cert;
     IsWildcard := isWildcard (x_DNSNames cert);
     IsExpired := (x_NotAfter cert <? now)%Z;
     IsExpiringSoon := (daysUntilExpiry <? 30)%Z;
     Strength := getKeyStrength (x_PublicKeyAlgorithm cert);
     Vulnerabilities := checkVulnerabilities cert |}.

(** [tls.VersionTLS10] .. [tls.VersionTLS13] *)
Definition VersionTLS10 : Z := 769.
Definition VersionTLS11 : Z := 770.
Definition VersionTLS12 : Z := 771.
Definition VersionTLS13 : Z := 772.

(** [SSLAnalyzer.getSupportedProtocols], on the version of the
    connection state. *)
Definition getSupportedProtocols (version : Z) : Finder.slice string :=
  let protocols : Finder.slice string := None in
  if (version =? VersionTLS10)%Z then append protocols "TLS 1.0"
  else if (version =? VersionTLS11)%Z then append protocols "TLS 1.1"
  else if (version =? VersionTLS12)%Z then append protocols "TLS 1.2"
  else if (version =? VersionTLS13)%Z then append protocols "TLS 1.3"
  else protocols.

(** [SSLAnalyzer.hasModernProtocol] *)
Definition hasModernProtocol (protocols : Finder.slice string) : bool :=
  existsb (fun protocol => (protocol =? "TLS 1.2") || (protocol =? "TLS 1.3"))
          (Finder.elems protocols).

(** [SSLAnalyzer.isSecure] *)
Definition isSecure (certInfo : CertificateInfo)
    (ciphers protocols : Finder.slice string) : bool :=
  if negb (IsValid certInfo) || IsExpired certInfo then false
  else if IsSelfSigned certInfo then false
  else
    negb (existsb (fun vuln => Contains vuln "weak" || Contains vuln "deprecated")
                  (Finder.elems (Vulnerabilities certInfo))).

(** The value of [score] in [calculateGrade] when the thresholds are
    tested. *)
Definition gradeScore (certInfo : CertificateInfo)
    (ciphers protocols : Finder.slice string) : Z :=
  let score := 100%Z in
  let score := if IsExpired certInfo then sub64 score 50 else score in
  let score := if IsExpiringSoon certInfo then sub64 score 20 else score in
  let score := if IsSelfSigned certInfo then sub64 score 30 else score in
  let score := if IsWildcard certInfo then sub64 score 10 else score in
  let score :=
    fold_left
      (fun score vuln =>
         let score := if Contains vuln "weak" then sub64 score 20 else score in
         if Contains vuln "deprecated" then sub64 score 15 else score)
      (Finder.elems (Vulnerabilities certInfo)) score in
  if (Finder.len protocols =? 0)%Z || negb (hasModernProtocol protocols)
  then sub64 score 25 else score.

(** [SSLAnalyzer.calculateGrade] *)
Definition calculateGrade (certInfo : CertificateInfo)
    (ciphers protocols : Finder.slice string) : string :=
  let score := gradeScore certInfo ciphers protocols in
  if (score >=? 90)%Z then "A+"
  else if (score >=? 80)%Z then "A"
  else if (score >=? 70)%Z then "B"
  else if (score >=? 60)%Z then "C"
  else if (score >=? 50)%Z then "D"
  else "F".

(** [SSLAnalyzer.getRecommendations] *)
Definition getRecommendations (certInfo : CertificateInfo)
    (ciphers protocols : Finder.slice string) : Finder.slice string :=
  let recommendations : Finder.slice string := None in
  let recommendations :=
    if IsExpired certInfo then
      append recommendations "Certificate is expired - renew immediately"
    else recommendations in
  let recommendations :=
    if IsExpiringSoon certInfo then
      append recommendations "Certificate expires soon - plan renewal"
    else recommendations in
  let recommendations :=
    if IsSelfSigned certInfo then
      append recommendations
             "Use a trusted CA certificate instead of self-signed"
    else recommendations in
  let recommendations :=
    if negb (hasModernProtocol protocols) then
      append recommendations "Upgrade to TLS 1.2 or 1.3"
    else recommendations in
  let recommendations :=
    if (Finder.len (Vulnerabilities certInfo) >? 0)%Z then
      append recommendations "Fix certificate vulnerabilities"
    else recommendations in
  if IsWildcard certInfo then
    append recommendations
           "Consider using specific certificates for better security"
  else recommendations.

(** [type SSLResult struct], the fields computed from the handshake. *)
Record SSLResult : Type := mkSSLResult {
  Certificate_ : CertificateInfo;
  SupportedCiphers : Finder.slice string;
  SupportedProtocols : Finder.slice string;
  IsSecure : bool;
  Grade : string;
  Recommendations : Finder.slice string
}.

(** [SSLAnalyzer.Analyze] from line 74 on: [cert] and [version] are the
    first peer certificate and the version of the connection state,
    [ciphers] the value of [getSupportedCiphers]. *)
Definition Analyze (cert : Certificate) (version : Z)
    (ciphers : Finder.slice string) (now daysUntilExpiry : Z) : SSLResult :=
  let certInfo := analyzeCertificate cert now daysUntilExpiry in
  let supportedProtocols := getSupportedProtocols version in
  {| Certificate_ := certInfo;
     SupportedCiphers := ciphers;
     SupportedProtocols := supportedProtocols;
     IsSecure := isSecure certInfo ciphers supportedProtocols;
     Grade := calculateGrade certInfo ciphers supportedProtocols;
     Recommendations := getRecommendations certInfo ciphers supportedProtocols |}.

(** The deductions of [calculateGrade] for an analyzed certificate, as a
    sum. *)
Definition deductions (cert : Certificate) (version now daysUntilExpiry : Z)
  : Z :=
  ((if x_NotAfter cert <? now then 50 else 0)
   + (if daysUntilExpiry <? 30 then 20 else 0)
   + (if x_Issuer cert =? x_Subject cert then 30 else 0)%string
   + (if isWildcard (x_DNSNames cert) then 10 else 0)
   + match x_SignatureAlgorithm cert with
     | MD5WithRSA | SHA1WithRSA => 20
     | OtherSignatureAlgorithm => 0
     end
   + match x_PublicKeyAlgorithm cert with
     | DSA => 15
     | _ => 0
     end
   + (if (version =? VersionTLS12) || (version =? VersionTLS13) then 0
      else 25))%Z.

(** The letter of a score. *)
Definition grade_of (score : Z) : string :=
  if (90 <=? score)%Z then "A+"
  else if (80 <=? score)%Z then "A"
  else if (70 <=? score)%Z then "B"
  else if (60 <=? score)%Z then "C"
  else if (50 <=? score)%Z then "D"
  else "F".

(** A certificate of a public CA for example.com, valid from instant
    1000 to instant 9000. *)
Definition example_cert : Certificate :=
  {| x_Subject := "CN=www.example.com";
     x_Issuer := "CN=Example CA";
     x_NotBefore := 1000;
     x_NotAfter := 9000;
     x_SignatureAlgorithm := OtherSignatureAlgorithm;
     x_PublicKeyAlgorithm := ECDSA;
     x_DNSNames := Some ["www.example.com"; "example.com"] |}.

End Ssl.

(* ================================================================== *)
(** ** package vulnscanner *)
(* ================================================================== *)

Module Vuln.
Import GoLib.

Local Open Scope string_scope.

(** [type Vulnerability struct] *)
Record Vulnerability : Type := mkVulnerability {
  Name : string;
  Severity : string;
  Description : string;
  CVSS : string;
  CVE : string;
  Solution : string;
  References : Finder.slice string;
  Evidence : string;
  Confidence : Z
}.

(** The literal of [checkSecurityHeaders]: header and expected value. *)
Definition securityHeaders : list (string * string) :=
  [("X-Content-Type-Options", "nosniff");
   ("X-Frame-Options", "DENY");
   ("X-XSS-Protection", "1; mode=block");
   ("Strict-Transport-Security", "max-age=31536000");
   ("Content-Security-Policy", "default-src 'self'");
   ("Referrer-Policy", "strict-origin-when-cross-origin")].

Section Response.

(** [resp.Header.Get] of the response at hand. *)
Variable Get : string -> string.

(** The finding of lines 111-117. *)
Definition missing_header (header expected : string) : Vulnerability :=
  {| Name := "Missing Security Header: " ++ header;
     Severity := "Medium";
     Description := "Missing security header: " ++ header;
     CVSS := ""; CVE := "";
     Solution := "Add " ++ header ++ " header with value: " ++ expected;
     References := None; Evidence := ""; Confidence := 90 |}.

Definition weak_hsts : Vulnerability :=
  {| Name := "Weak HSTS Configuration";
     Severity := "Low";
     Description := "HSTS header missing includeSubDomains directive";
     CVSS := ""; CVE := "";
     Solution := "Add includeSubDomains directive to HSTS header";
     References := None; Evidence := ""; Confidence := 80 |}.

(** [VulnScanner.checkSecurityHeaders].  The [range] over the map literal
    visits its entries in an order the run time chooses: [order] is that
    order, a permutation of [securityHeaders]. *)
Definition checkSecurityHeaders (order : list (string * string))
  : Finder.slice Vulnerability :=
  let vulns :=
    fold_left
      (fun vulns entry =>
         if Get (fst entry) =? "" then
           append vulns (missing_header (fst entry) (snd entry))
         else vulns)
      order None in
  let hsts := Get "Strict-Transport-Security" in
  if negb (hsts =? "") then
    if negb (Contains hsts "includeSubDomains") then append vulns weak_hsts
    else vulns
  else vulns.

(** [VulnScanner.checkServerInfo] *)
Definition checkServerInfo : Finder.slice Vulnerability :=
  let vulns : Finder.slice Vulnerability := None in
  let server := Get "Server" in
  let vulns :=
    if negb (server =? "") then
      let vulns :=
        if Contains server "/" then
          append vulns
            {| Name := "Server Version Disclosure";
               Severity := "Low";
               Description := "Server version disclosed: " ++ server;
               CVSS := ""; CVE := "";
               Solution := "Remove or obfuscate server version information";
               References := None; Evidence := ""; Confidence := 95 |}
        else vulns in
      if Contains server "Apache/2.2" || Contains server "Apache/2.0" then
        append vulns
          {| Name := "Outdated Apache Version";
             Severity := "High";
             Description := "Outdated Apache version: " ++ server;
             CVSS := ""; CVE := "";
             Solution := "Update Apache to latest version";
             References := None; Evidence := ""; Confidence := 90 |}
      else vulns
    else vulns in
  let poweredBy := Get "X-Powered-By" in
  if negb (poweredBy =? "") then
    append vulns
      {| Name := "Technology Disclosure";
         Severity := "Low";
         Description := "Technology disclosed: " ++ poweredBy;
         CVSS := ""; CVE := "";
         Solution := "Remove X-Powered-By header";
         References := None; Evidence := ""; Confidence := 95 |}
  else vulns.

(** Number of the six security headers the response lacks. *)
Definition missing_headers : Z :=
  Z.of_nat
    (List.length (filter (fun entry => Get (fst entry) =? "") securityHeaders)).

End Response.

(** The fields of a finding that [checkSubdomain] copies. *)
Definition scanned (vuln : Vulnerability) : Finder.ScannedVuln :=
  {| Finder.sv_Name := Name vuln; Finder.sv_Severity := Severity vuln;
     Finder.sv_Description := Description vuln; Finder.sv_CVSS := CVSS vuln;
     Finder.sv_CVE := CVE vuln; Finder.sv_Solution := Solution vuln;
     Finder.sv_References := References vuln |}.

(** Findings with one severity. *)
Definition with_severity (sev : string) (vulns : list Vulnerability)
  : list Vulnerability :=
  filter (fun vuln => Severity vuln =? sev) vulns.

(** A response with no header at all, one of an old Apache, and an
    environment in which www.example.com resolves and is scanned with a
    response that has no header. *)
Definition bare_response (header : string) : string := "".

Definition apache_response (header : string) : string :=
  if header =? "Server" then "Apache/2.2.15 (CentOS)" else "".

Definition headerless_env : Finder.Probes :=
  {| Finder.dns_Resolve := fun domain =>
       if domain =? "www.example.com" then inl "93.184.216.34"
       else inr ("no A record found for " ++ domain);
     Finder.makeRequest := fun _ => None;
     Finder.QuickScan := fun _ => Some (Some []);
     Finder.ssl_Analyze := fun _ _ => inr "dial tcp: i/o timeout";
     Finder.tech_Detect := fun _ => inr "dial tcp: i/o timeout";
     Finder.vuln_ScanURL := fun _ =>
       inl (Some (map scanned
                      (Finder.elems
                         (checkSecurityHeaders bare_response securityHeaders))));
     Finder.clock_Now := fun _ => 0%Z;
     Finder.clock_Since := fun _ => 0%Z |}.

End Vuln.

(* ================================================================== *)
(** ** package reporter *)
(* ================================================================== *)

Module Reporter.
Import GoInt.

Local Open Scope string_scope.

(** A Go map with [int] values, as the list of its entries; the order
    of the list is not observable but through [range]. *)
Definition counts (K : Type) : Type := list (K * Z).

(** [m[k]]: the zero value when [k] has no entry. *)
Fixpoint lookup {K : Type} (eqb : K -> K -> bool) (m : counts K) (k : K) : Z :=
  match m with
  | [] => 0%Z
  | (k', v) :: rest => if eqb k' k then v else lookup eqb rest k
  end.

(** [m[k]++] *)
Fixpoint incr {K : Type} (eqb : K -> K -> bool) (m : counts K) (k : K)
  : counts K :=
  match m with
  | [] => [(k, add64 0 1)]
  | (k', v) :: rest =>
      if eqb k' k then (k', add64 v 1) :: rest
      else (k', v) :: incr eqb rest k
  end.

(** [types.ScanSummary], without its time stamps and its metadata. *)
Record ScanSummary : Type := mkScanSummary {
  TotalSubdomains : Z;
  FoundSubdomains : Z;
  OpenPorts : Z;
  Vulnerabilities : Z;
  HighRiskItems : Z;
  Technologies : list Finder.Technology;
  TopPorts : list Finder.PortInfo;
  RiskDistribution : counts string;
  TechnologyStats : counts string
}.

(** [Reporter.getServiceName] *)
Definition getServiceName (port : Z) : string :=
  if (port =? 21)%Z then "FTP"
  else if (port =? 22)%Z then "SSH"
  else if (port =? 23)%Z then "Telnet"
  else if (port =? 25)%Z then "SMTP"
  else if (port =? 53)%Z then "DNS"
  else if (port =? 80)%Z then "HTTP"
  else if (port =? 110)%Z then "POP3"
  else if (port =? 143)%Z then "IMAP"
  else if (port =? 443)%Z then "HTTPS"
  else if (port =? 993)%Z then "IMAPS"
  else if (port =? 995)%Z then "POP3S"
  else if (port =? 3389)%Z then "RDP"
  else if (port =? 5432)%Z then "PostgreSQL"
  else if (port =? 3306)%Z then "MySQL"
  else if (port =? 6379)%Z then "Redis"
  else if (port =? 27017)%Z then "MongoDB"
  else "Unknown".

(** The variables the loop of lines 710-736 updates. *)
Record tally : Type := mkTally {
  t_found : Z;
  t_open : Z;
  t_vulns : Z;
  t_high : Z;
  t_risk : counts string;
  techMap : counts string;
  portMap : counts Z
}.

(** Whether a finding counts as a high risk item (line 724). *)
Definition high_risk (vuln : Finder.Vulnerability) : bool :=
  (Finder.vuln_Severity vuln =? "Critical")
  || (Finder.vuln_Severity vuln =? "High").

(** One iteration of the loop. *)
Definition account (t : tally) (result : Finder.Result) : tally :=
  {| t_found :=
       if negb (Finder.IP result =? "") then add64 (t_found t) 1
       else t_found t;
     t_open := add64 (t_open t) (Finder.len (Finder.Ports result));
     t_vulns := add64 (t_vulns t) (Finder.len (Finder.Vulnerabilities result));
     t_high :=
       fold_left (fun high vuln => if high_risk vuln then add64 high 1 else high)
                 (Finder.elems (Finder.Vulnerabilities result)) (t_high t);
     t_risk := incr String.eqb (t_risk t) (Finder.RiskLevel result);
     techMap :=
       fold_left (fun m tech => incr String.eqb m (Finder.tech_Name tech))
                 (Finder.elems (Finder.Technologies result)) (techMap t);
     portMap :=
       fold_left (fun m port => incr Z.eqb m (Finder.port_Port port))
                 (Finder.elems (Finder.Ports result)) (portMap t) |}.

Definition empty_tally : tally :=
  {| t_found := 0; t_open := 0; t_vulns := 0; t_high := 0;
     t_risk := []; techMap := []; portMap := [] |}.

(** The entry of [TopPorts] for a port (lines 746-751). *)
Definition top_port (port : Z) : Finder.PortInfo :=
  {| Finder.port_Port := port; Finder.port_Protocol := "tcp";
     Finder.port_State := "open"; Finder.port_Service := getServiceName port;
     Finder.port_Banner := ""; Finder.port_Version := "" |}.

(** [Reporter.GenerateSummaryReport].  [visit] is the order in which the
    [range] of line 744 visits the entries of [portMap]: the run time
    chooses it, and it is a permutation of the entries. *)
Definition GenerateSummaryReport (visit : counts Z -> counts Z)
    (results : Finder.slice Finder.Result) : ScanSummary :=
  let t := fold_left account (Finder.elems results) empty_tally in
  {| TotalSubdomains := Finder.len results;
     FoundSubdomains := t_found t;
     OpenPorts := t_open t;
     Vulnerabilities := t_vulns t;
     HighRiskItems := t_high t;
     Technologies := [];
     TopPorts :=
       map (fun entry => top_port (fst entry))
           (filter (fun entry => (snd entry >? 1)%Z) (visit (portMap t)));
     RiskDistribution := t_risk t;
     TechnologyStats := techMap t |}.

(** The counts of the design of the report, over unbounded integers. *)
Definition count_where {A : Type} (p : A -> bool) (l : list A) : Z :=
  Z.of_nat (List.length (filter p l)).

Definition total_of {A : Type} (f : A -> Z) (l : list A) : Z :=
  fold_right (fun x acc => f x + acc)%Z 0%Z l.

(** The open ports and the findings of all the records, in the order of
    the records. *)
Definition ports_of (results : list Finder.Result) : list Finder.PortInfo :=
  flat_map (fun result => Finder.elems (Finder.Ports result)) results.

Definition findings_of (results : list Finder.Result)
  : list Finder.Vulnerability :=
  flat_map (fun result => Finder.elems (Finder.Vulnerabilities result)) results.

(** The entries of a map of counters are positive and no key has two of
    them. *)
Definition well_formed {K : Type} (m : counts K) : Prop :=
  NoDup (map fst m) /\ Forall (fun entry => (0 < snd entry)%Z) m.

End Reporter.

(* ================================================================== *)
(** ** package portscanner *)
(* ================================================================== *)

Module PortScanner.
Import GoInt.

Local Open Scope string_scope.

(** [type ScanResult struct] *)
Record ScanResult : Type := mkScanResult {
  Host : string;
  Ports : list Finder.PortResult;
  OpenPorts : Z;
  TotalPorts : Z
}.

(** The literal of [NewPortScanner] and the literal of [QuickScan]. *)
Definition commonPorts : list Z :=
  [21; 22; 23; 25; 53; 80; 110; 111; 135; 139; 143; 443; 993; 995; 1723;
   3306; 3389; 5432; 5900; 8080; 8443; 8888; 9000; 9090; 9200; 9300; 11211;
   27017; 6379; 5984; 9200; 9300; 11211; 27017; 6379; 5984]%Z.

Definition quickPorts : list Z :=
  [21; 22; 23; 25; 53; 80; 110; 135; 139; 143; 443; 993; 995; 1723; 3306;
   3389; 5432; 5900; 8080; 8443; 8888; 9000; 9090]%Z.

(** The map literal of [getServiceName]. *)
Definition services : list (Z * string) :=
  [(21, "ftp"); (22, "ssh"); (23, "telnet"); (25, "smtp"); (53, "dns");
   (80, "http"); (110, "pop3"); (111, "rpcbind"); (135, "msrpc");
   (139, "netbios-ssn"); (143, "imap"); (443, "https"); (993, "imaps");
   (995, "pop3s"); (1723, "pptp"); (3306, "mysql"); (3389, "rdp");
   (5432, "postgresql"); (5900, "vnc"); (8080, "http-proxy");
   (8443, "https-alt"); (8888, "http-alt"); (9000, "http-alt");
   (9090, "http-alt"); (9200, "elasticsearch"); (9300, "elasticsearch");
   (11211, "memcached"); (27017, "mongodb"); (6379, "redis");
   (5984, "couchdb")]%Z.

(** [PortScanner.getServiceName] *)
Definition getServiceName (port : Z) : string :=
  match find (fun entry => (fst entry =? port)%Z) services with
  | Some entry => snd entry
  | None => "unknown"
  end.

Section Network.

(** [net.DialTimeout] to a port of a host, followed by [getBanner] on
    the connection: [None] when the dial fails, otherwise the banner. *)
Variable dial : string -> Z -> option string.

(** [PortScanner.scanPort] *)
Definition scanPort (host : string) (port : Z) : Finder.PortResult :=
  match dial host port with
  | None =>
      {| Finder.pr_Port := port; Finder.pr_Protocol := "tcp";
         Finder.pr_State := "closed";
         Finder.pr_Service := getServiceName port; Finder.pr_Banner := "" |}
  | Some banner =>
      {| Finder.pr_Port := port; Finder.pr_Protocol := "tcp";
         Finder.pr_State := "open";
         Finder.pr_Service := getServiceName port;
         Finder.pr_Banner := banner |}
  end.

(** [PortScanner.ScanHost].  Each port has a goroutine that, past the
    semaphore of capacity [threads], scans it and then, holding the
    mutex, counts and appends its result; [done] is the order in which
    the goroutines take the mutex, a permutation of the ports.  With no
    slot the goroutines never pass the semaphore and [wg.Wait] does not
    return: there is no result. *)
Definition ScanHost (threads : Z) (host : string) (ports : list Z)
    (done : list Z) : option ScanResult :=
  let ports := if (Z.of_nat (List.length ports) =? 0)%Z then commonPorts
               else ports in
  if (threads <? 1)%Z then None
  else
    Some {| Host := host;
            Ports := map (scanPort host) done;
            OpenPorts :=
              fold_left
                (fun n port =>
                   if Finder.pr_State (scanPort host port) =? "open"
                   then add64 n 1 else n)
                done 0%Z;
            TotalPorts := Z.of_nat (List.length ports) |}.

(** [PortScanner.QuickScan] *)
Definition QuickScan (threads : Z) (host : string) (done : list Z)
  : option ScanResult :=
  ScanHost threads host quickPorts done.

End Network.

(** A host with a web server and nothing else, and the resolver of the
    examples with its port scan. *)
Definition web_host (host : string) (port : Z) : option string :=
  if (port =? 80)%Z || (port =? 443)%Z then Some "" else None.

Definition scanned_env : Finder.Probes :=
  {| Finder.dns_Resolve := fun domain =>
       if domain =? "www.example.com" then inl "93.184.216.34"
       else inr ("no A record found for " ++ domain);
     Finder.makeRequest := fun _ => None;
     Finder.QuickScan := fun ip =>
       match QuickScan web_host 2 ip quickPorts with
       | Some result => Some (Some (Ports result))
       | None => None
       end;
     Finder.ssl_Analyze := fun _ _ => inr "dial tcp: i/o timeout";
     Finder.tech_Detect := fun _ => inr "dial tcp: i/o timeout";
     Finder.vuln_ScanURL := fun _ => inr "dial tcp: i/o timeout";
     Finder.clock_Now := fun _ => 0%Z;
     Finder.clock_Since := fun _ => 0%Z |}.

End PortScanner.

(* ================================================================== *)
(** ** package output *)
(* ================================================================== *)

Module Output.
Import Ascii.

Local Open Scope string_scope.

(** [strings.ReplaceAll(s, old, new)] for one-byte [old] and [new], as
    in the call of line 101. *)
Fixpoint ReplaceAll1 (s : string) (old new : Ascii.ascii) : string :=
  match s with
  | EmptyString => EmptyString
  | String c rest =>
      String (if Ascii.eqb c old then new else c) (ReplaceAll1 rest old new)
  end.

(** The line [Outputter.SaveToFile] writes for a record (lines
    97-102). *)
Definition csv_line (result : Finder.Result) : string :=
  Finder.Subdomain result ++ "," ++ Finder.IP result ++ ","
  ++ Finder.Status result ++ ","
  ++ ReplaceAll1 (Finder.Response result) ","%char ";"%char ++ String "010"%char "".

(** Number of occurrences of a byte. *)
Fixpoint occurrences (c : Ascii.ascii) (s : string) : nat :=
  match s with
  | EmptyString => 0
  | String d rest => (if Ascii.eqb d c then 1 else 0) + occurrences c rest
  end.

End Output.

(* ================================================================== *)
(** * Properties *)
(* ================================================================== *)

(** ** Go integer arithmetic *)

Module GoIntFacts.
Import GoInt.

Lemma wrap64_small (z : Z) : in_int64 z -> wrap64 z = z.
Proof.
  unfold in_int64, min_int64, max_int64, wrap64. intros H.
  rewrite Z.mod_small; lia.
Qed.

Lemma wrap64_range (z : Z) : in_int64 (wrap64 z).
Proof.
  unfold in_int64, min_int64, max_int64, wrap64.
  pose proof (Z.mod_pos_bound (z + 2 ^ 63) (2 ^ 64) ltac:(lia)). lia.
Qed.

Lemma add64_small (a b : Z) : in_int64 (a + b) -> add64 a b = a + b.
Proof. apply wrap64_small. Qed.

Lemma sub64_small (a b : Z) : in_int64 (a - b) -> sub64 a b = a - b.
Proof. apply wrap64_small. Qed.

Lemma mul64_small (a b : Z) : in_int64 (a * b) -> mul64 a b = a * b.
Proof. apply wrap64_small. Qed.

(** Truncated and floor division agree on a non-negative dividend and a
    positive divisor, and the quotient needs no wrap. *)
Lemma quot64_floor (a b : Z) :
  0 <= a <= max_int64 -> 0 < b -> quot64 a b = a / b.
Proof.
  intros Ha Hb. unfold quot64.
  rewrite Z.quot_div_nonneg by lia.
  apply wrap64_small. unfold in_int64, min_int64, max_int64 in *.
  assert (0 <= a / b) by (apply Z.div_pos; lia).
  assert (a / b <= a) by (apply Z.div_le_upper_bound; nia).
  lia.
Qed.

Lemma shl64_one (s : Z) : 0 <= s < 63 -> shl64 1 s = 2 ^ s.
Proof.
  intros Hs. unfold shl64.
  destruct (Z.ltb_spec s 64); [|lia].
  rewrite Z.shiftl_1_l. apply wrap64_small.
  unfold in_int64, min_int64, max_int64.
  assert (0 < 2 ^ s) by (apply Z.pow_pos_nonneg; lia).
  assert (2 ^ s <= 2 ^ 62) by (apply Z.pow_le_mono_r; lia).
  lia.
Qed.

Lemma to_uint64_small (x : Z) : 0 <= x < 2 ^ 64 -> to_uint64 x = x.
Proof. intros H. unfold to_uint64. apply Z.mod_small. exact H. Qed.

End GoIntFacts.

(** ** Backoff strategies *)

Module BackoffFacts.
Import GoInt GoIntFacts Limiter.

(** While [base * 2^(attempt-1)] fits an int64, the exponential delay is
    the capped power of two of the design. *)
Lemma exponential_delay_in_range (eb : ExponentialBackoff) (attempt : Z) :
  1 <= attempt <= 63 ->
  0 <= eb_BaseDelay eb ->
  eb_BaseDelay eb * 2 ^ (attempt - 1) <= max_int64 ->
  ExponentialBackoff_GetDelay eb attempt
  = Z.min (eb_BaseDelay eb * 2 ^ (attempt - 1)) (eb_MaxDelay eb).
Proof.
  intros Ha Hb Hfit. unfold ExponentialBackoff_GetDelay.
  rewrite sub64_small
    by (unfold in_int64, min_int64, max_int64; lia).
  rewrite to_uint64_small by lia.
  rewrite shl64_one by lia.
  assert (0 < 2 ^ (attempt - 1)) by (apply Z.pow_pos_nonneg; lia).
  rewrite mul64_small
    by (unfold in_int64, min_int64, max_int64 in *; nia).
  destruct (Z.gtb_spec (eb_BaseDelay eb * 2 ^ (attempt - 1)) (eb_MaxDelay eb)); lia.
Qed.

(** With a base of 100ms and a cap of 1s the product fits up to attempt
    37, and the delays are 100ms, 200ms, 400ms, 800ms, 1s, 1s, ... *)
Lemma exponential_delay_100ms_1s (attempt : Z) :
  1 <= attempt <= 37 ->
  ExponentialBackoff_GetDelay (mkExponential (100 * millisecond) second) attempt
  = Z.min (100 * millisecond * 2 ^ (attempt - 1)) second.
Proof.
  intros Ha.
  apply (exponential_delay_in_range (mkExponential (100 * millisecond) second));
    cbn [eb_BaseDelay eb_MaxDelay]; unfold millisecond, max_int64; try lia.
  assert (2 ^ (attempt - 1) <= 2 ^ 36) by (apply Z.pow_le_mono_r; lia).
  lia.
Qed.

Example exponential_delay_first_six :
  map (ExponentialBackoff_GetDelay (mkExponential (100 * millisecond) second))
      [1; 2; 3; 4; 5; 6]
  = [100 * millisecond; 200 * millisecond; 400 * millisecond;
     800 * millisecond; second; second].
Proof. vm_compute. reflexivity. Qed.

(** C6, at the input where the code leaves the claimed formula: with
    base = 100ms and maxDelay = 1s the product [base * 2^37] of attempt 38
    exceeds the int64 range and wraps to a negative Duration, which passes
    the cap test unchanged.  The delay of attempt 38 is negative, below the
    1s of attempt 37 and different from min(base * 2^37, maxDelay) = 1s;
    from attempt 65 on the shift yields 0 and the delay is 0. *)
Theorem exponential_delay_overflows :
  let eb := mkExponential (100 * millisecond) second in
  ExponentialBackoff_GetDelay eb 37 = second
  /\ ExponentialBackoff_GetDelay eb 38 = -4702848726509551616
  /\ ExponentialBackoff_GetDelay eb 38
     <> Z.min (eb_BaseDelay eb * 2 ^ (38 - 1)) (eb_MaxDelay eb)
  /\ ExponentialBackoff_GetDelay eb 38 < ExponentialBackoff_GetDelay eb 37
  /\ ExponentialBackoff_GetDelay eb 65 = 0.
Proof.
  cbv zeta. repeat split; vm_compute; congruence.
Qed.

End BackoffFacts.

(** ** RateLimiter *)

Module LimiterFacts.
Import GoInt GoIntFacts Limiter.

Lemma min_is_Zmin (a b : Z) : Limiter.min a b = Z.min a b.
Proof. unfold Limiter.min. destruct (Z.ltb_spec a b); lia. Qed.

Lemma time_Sub_range (t u : Z) : in_int64 (time_Sub t u).
Proof. unfold time_Sub, in_int64, min_int64, max_int64. lia. Qed.

Lemma time_Sub_nonneg (t u : Z) : u <= t -> 0 <= time_Sub t u <= max_int64.
Proof. unfold time_Sub, min_int64, max_int64. lia. Qed.

(** The refill step of [Wait] over unbounded integers. *)
Lemma refill_exact (rl : RateLimiter) (now add : Z) :
  in_int64 (tokens rl + add) ->
  refill rl now add
  = if 0 <? add then
      mkRateLimiter (rate rl) (interval rl)
                    (Z.min (tokens rl + add) (rate rl)) now
    else rl.
Proof.
  intros Hfit. unfold refill.
  rewrite Z.gtb_ltb. destruct (Z.ltb_spec 0 add); [|reflexivity].
  rewrite add64_small by exact Hfit. rewrite min_is_Zmin. reflexivity.
Qed.

Lemma refill_rate (rl : RateLimiter) (now add : Z) :
  rate (refill rl now add) = rate rl.
Proof. unfold refill. destruct (add >? 0); reflexivity. Qed.

Lemma refill_interval (rl : RateLimiter) (now add : Z) :
  interval (refill rl now add) = interval rl.
Proof. unfold refill. destruct (add >? 0); reflexivity. Qed.

(** On the states the design has in mind -- a rate of at least 1 and
    tokens within [0, rate] -- a refill that leaves no token means that
    less than one interval has elapsed, the wait is positive, and [Wait]
    is the algorithm of the design as it is worded. *)
Lemma Wait_design_from_rate_one (rl : RateLimiter) (now : Z) (wk : wake) :
  0 < interval rl <= max_int64 ->
  0 <= now - lastTime rl <= max_int64 ->
  1 <= rate rl <= max_int64 ->
  bucket_inv rl ->
  tokens rl + (now - lastTime rl) / interval rl <= max_int64 ->
  Wait rl now wk = Some (Wait_design rl now wk).
Proof.
  intros Hint Hel Hrate Hinv Hsum. unfold bucket_inv in Hinv.
  unfold Wait, Wait_design.
  assert (Hsub : time_Sub now (lastTime rl) = now - lastTime rl)
    by (unfold time_Sub, min_int64, max_int64 in *; lia).
  rewrite Hsub.
  destruct (Z.eqb_spec (interval rl) 0) as [E|_]; [lia|].
  rewrite quot64_floor by lia.
  set (elapsed := now - lastTime rl) in *.
  assert (Hq : 0 <= elapsed / interval rl) by (apply Z.div_pos; lia).
  rewrite refill_exact
    by (unfold in_int64, min_int64, max_int64 in *; lia).
  rewrite (Z.gtb_ltb (elapsed / interval rl)).
  destruct (Z.ltb_spec 0 (elapsed / interval rl)) as [Hadd|Hnone];
    cbn [tokens rate interval lastTime].
  - rewrite Z.gtb_ltb.
    destruct (Z.ltb_spec 0 (Z.min (tokens rl + elapsed / interval rl) (rate rl)));
      [|lia].
    rewrite sub64_small
      by (unfold in_int64, min_int64, max_int64 in *; lia).
    reflexivity.
  - assert (Hlt : elapsed < interval rl).
    { destruct (Z.lt_ge_cases elapsed (interval rl)) as [|Hge]; [assumption|].
      assert (1 <= elapsed / interval rl)
        by (apply Z.div_le_lower_bound; lia).
      lia. }
    rewrite Z.gtb_ltb.
    destruct (Z.ltb_spec 0 (tokens rl)).
    + rewrite sub64_small
        by (unfold in_int64, min_int64, max_int64 in *; lia).
      reflexivity.
    + rewrite sub64_small
        by (unfold in_int64, min_int64, max_int64 in *; lia).
      rewrite Z.gtb_ltb.
      destruct (Z.ltb_spec 0 (interval rl - elapsed)); [|lia].
      destruct wk; [reflexivity|].
      rewrite sub64_small
        by (unfold in_int64, min_int64, max_int64 in *; lia).
      reflexivity.
Qed.

(** C2, as amended: for a limiter with a positive interval, a clock that
    does not run backwards and no int overflow, [Wait] is the lazy refill
    of the design -- elapsed time since [lastTime], [floor(elapsed /
    interval)] tokens added and capped at [rate] with [lastTime] advanced
    to now when that number is positive, one token consumed and an
    immediate return when a token is there -- and otherwise it blocks for
    [waitTime = interval - elapsed] only when [waitTime] is positive
    (cancelled if the context fires first, else [tokens = rate - 1] and
    [lastTime] = the new now); when [waitTime <= 0] it returns ok at once
    with the refilled state, no token consumed. *)
Theorem Wait_lazy_refill (rl : RateLimiter) (now : Z) (wk : wake) :
  0 < interval rl <= max_int64 ->
  lastTime rl <= now ->
  fits_int64 rl now ->
  let elapsed := time_Sub now (lastTime rl) in
  let tokensToAdd := elapsed / interval rl in
  let refilled :=
    if 0 <? tokensToAdd then
      mkRateLimiter (rate rl) (interval rl)
                    (Z.min (tokens rl + tokensToAdd) (rate rl)) now
    else rl in
  Wait rl now wk
  = Some
      (if 0 <? tokens refilled then
         (RetToken,
          mkRateLimiter (rate rl) (interval rl) (tokens refilled - 1)
                        (lastTime refilled))
       else if 0 <? interval rl - elapsed then
         match wk with
         | CtxDone e => (RetCancelled e, refilled)
         | TimerFired now' =>
             (RetWaited (interval rl - elapsed),
              mkRateLimiter (rate rl) (interval rl) (rate rl - 1) now')
         end
       else (RetNoWait, refilled)).
Proof.
  intros Hint Hclock (Hrate & Htok & Hrate1 & Hsum). cbv zeta.
  pose proof (time_Sub_nonneg now (lastTime rl) Hclock) as Hel.
  unfold Wait.
  destruct (Z.eqb_spec (interval rl) 0) as [E|_]; [lia|].
  rewrite quot64_floor by lia.
  rewrite refill_exact by exact Hsum.
  set (elapsed := time_Sub now (lastTime rl)) in *.
  set (refilled :=
         if 0 <? elapsed / interval rl
         then mkRateLimiter (rate rl) (interval rl)
                (Z.min (tokens rl + elapsed / interval rl) (rate rl)) now
         else rl).
  assert (Hr : rate refilled = rate rl)
    by (unfold refilled; destruct (0 <? elapsed / interval rl); reflexivity).
  assert (Hi : interval refilled = interval rl)
    by (unfold refilled; destruct (0 <? elapsed / interval rl); reflexivity).
  assert (Ht : in_int64 (tokens refilled)).
  { unfold refilled. destruct (0 <? elapsed / interval rl); cbn [tokens].
    - unfold in_int64 in *. lia.
    - exact Htok. }
  rewrite Hr, Hi, Z.gtb_ltb.
  destruct (Z.ltb_spec 0 (tokens refilled)) as [Hpos|Hnone].
  - rewrite sub64_small by (unfold in_int64, min_int64, max_int64 in *; lia).
    reflexivity.
  - rewrite sub64_small
      by (unfold in_int64, min_int64, max_int64 in *; lia).
    rewrite Z.gtb_ltb.
    destruct (Z.ltb_spec 0 (interval rl - elapsed)); [|reflexivity].
    destruct wk; [reflexivity|].
    rewrite sub64_small by exact Hrate1. reflexivity.
Qed.

(** The witness: a limiter of rate 2 and interval 1s, half a second after
    its construction. *)
Lemma Wait_lazy_refill_witness :
  Wait (NewRateLimiter 2 second 0) (500 * millisecond) (TimerFired second)
  = Some (RetToken, mkRateLimiter 2 second 1 0).
Proof.
  apply (Wait_lazy_refill (NewRateLimiter 2 second 0) (500 * millisecond)
           (TimerFired second)).
  - vm_compute. split; [reflexivity | discriminate].
  - vm_compute. discriminate.
  - unfold fits_int64, in_int64. vm_compute. repeat split; discriminate.
Defined.

(** C2, the claim as stated fails: a limiter of rate 0, one interval after
    its last refill.  The refill leaves no token and [waitTime] is 0, so
    the code skips the [select] and returns nil with the refilled state;
    the claimed algorithm blocks and resets [tokens] to [rate - 1]. *)
Lemma Wait_skips_the_wait :
  let rl := NewRateLimiter 0 second 0 in
  Wait rl second (TimerFired (2 * second))
  = Some (RetNoWait, mkRateLimiter 0 second 0 second)
  /\ Wait_design rl second (TimerFired (2 * second))
     = (RetWaited 0, mkRateLimiter 0 second (-1) (2 * second))
  /\ Wait rl second (TimerFired (2 * second))
     <> Some (Wait_design rl second (TimerFired (2 * second))).
Proof.
  cbv zeta. split; [|split]; vm_compute; congruence.
Qed.

End LimiterFacts.

Module BucketInvariant.
Import GoInt GoIntFacts Limiter LimiterFacts.

Lemma refill_keeps_inv (rl : RateLimiter) (now add : Z) :
  bucket_inv rl -> tokens rl + add <= max_int64 ->
  bucket_inv (refill rl now add)
  /\ (1 <= rate rl -> add > 0 -> 0 < tokens (refill rl now add)).
Proof.
  unfold bucket_inv, refill. intros Hinv Hsum.
  rewrite Z.gtb_ltb. destruct (Z.ltb_spec 0 add) as [Hpos|Hle].
  - cbn [tokens rate].
    rewrite add64_small
      by (unfold in_int64, min_int64, max_int64 in *; lia).
    rewrite min_is_Zmin. lia.
  - split; [exact Hinv | lia].
Qed.

(** C3, as amended: the invariant [0 <= tokens <= rate] holds after
    construction for every rate >= 0.  On a limiter that satisfies it
    (with a non-zero interval, and a rate and a refill sum within the int
    range) every [Wait] returns and leaves the rate unchanged; it
    preserves the invariant, the blocked path that resets
    [tokens = rate - 1] included, with one exception: the blocked path of
    a limiter of rate 0, which leaves [tokens = -1].  [SetRate r], on
    whatever limiter satisfies the invariant, preserves it exactly when
    the tokens at hand do not exceed [r]. *)
Theorem bucket_inv_preserved
    (rate0 interval0 now0 : Z) (rl : RateLimiter) (now : Z) (wk : wake)
    (r : Z) :
  (0 <= rate0 -> bucket_inv (NewRateLimiter rate0 interval0 now0))
  /\ (bucket_inv rl ->
      rate rl <= max_int64 ->
      interval rl <> 0 ->
      tokens rl + quot64 (time_Sub now (lastTime rl)) (interval rl)
      <= max_int64 ->
      exists out rl',
        Wait rl now wk = Some (out, rl')
        /\ rate rl' = rate rl
        /\ (1 <= rate rl -> bucket_inv rl')
        /\ (rate rl = 0 ->
            match out with
            | RetWaited _ => tokens rl' = -1 /\ ~ bucket_inv rl'
            | RetToken | RetCancelled _ | RetNoWait => bucket_inv rl'
            end))
  /\ (bucket_inv rl -> (bucket_inv (SetRate rl r) <-> tokens rl <= r)).
Proof.
  split; [|split].
  - intros Hrate0. unfold bucket_inv, NewRateLimiter. cbn [tokens rate]. lia.
  - intros Hinv Hrate Hint Hsum. unfold Wait.
    destruct (Z.eqb_spec (interval rl) 0) as [E|_]; [contradiction|].
    set (add := quot64 (time_Sub now (lastTime rl)) (interval rl)) in *.
    destruct (refill_keeps_inv rl now add Hinv Hsum) as [Hinv1 _].
    pose proof (refill_rate rl now add) as Hr1.
    set (rl1 := refill rl now add) in *.
    unfold bucket_inv in Hinv, Hinv1.
    rewrite Z.gtb_ltb. destruct (Z.ltb_spec 0 (tokens rl1)) as [Hpos|Hnone].
    + eexists _, _. split; [reflexivity|]. cbn [rate tokens].
      split; [exact Hr1|].
      unfold bucket_inv. cbn [rate tokens].
      rewrite sub64_small
        by (unfold in_int64, min_int64, max_int64 in *; lia).
      split; intros; lia.
    + destruct (sub64 (interval rl1) (time_Sub now (lastTime rl)) >? 0).
      * destruct wk as [e|now'].
        -- eexists _, _. split; [reflexivity|]. split; [exact Hr1|].
           unfold bucket_inv. split; intros; lia.
        -- eexists _, _. split; [reflexivity|]. cbn [rate tokens].
           split; [exact Hr1|]. unfold bucket_inv. cbn [rate tokens].
           rewrite sub64_small
             by (unfold in_int64, min_int64, max_int64 in *; lia).
           split; intros; lia.
      * eexists _, _. split; [reflexivity|]. split; [exact Hr1|].
        unfold bucket_inv. split; intros; lia.
  - intros Hinv. unfold bucket_inv, SetRate in *. cbn [tokens rate]. lia.
Qed.

(** The witness: a limiter of rate 1 whose only token is spent, asked
    again within the same interval, blocks and starts a fresh window; a
    limiter constructed with rate 0 takes [SetRate 3]. *)
Lemma bucket_inv_preserved_witness :
  bucket_inv (NewRateLimiter 0 second 0)
  /\ (exists out rl',
         Wait (mkRateLimiter 1 second 0 0) (500 * millisecond)
              (TimerFired second) = Some (out, rl')
         /\ rate rl' = 1 /\ bucket_inv rl')
  /\ bucket_inv (SetRate (NewRateLimiter 0 second 0) 3).
Proof.
  destruct (bucket_inv_preserved 0 second 0 (mkRateLimiter 1 second 0 0)
              (500 * millisecond) (TimerFired second) 3)
    as (Hnew & Hwait & _).
  destruct (bucket_inv_preserved 0 second 0 (NewRateLimiter 0 second 0)
              0 (TimerFired second) 3)
    as (_ & _ & Hset).
  split; [apply Hnew; lia|]. split.
  - destruct Hwait as (out & rl' & Hw & Hr & Hone & _).
    + vm_compute. split; discriminate.
    + vm_compute. discriminate.
    + vm_compute. discriminate.
    + vm_compute. discriminate.
    + exists out, rl'. split; [exact Hw|]. split; [exact Hr|].
      apply Hone. vm_compute. discriminate.
  - apply Hset.
    + vm_compute. split; discriminate.
    + vm_compute. discriminate.
Defined.

(** C3, the claim as stated fails twice.  A limiter constructed with rate
    0 that blocks in [Wait] until the timer fires is left with
    [tokens = rate - 1 = -1]; and [SetRate] to a rate below the tokens at
    hand leaves [tokens > rate]. *)
Lemma bucket_inv_broken :
  (bucket_inv (NewRateLimiter 0 second 0)
   /\ Wait (NewRateLimiter 0 second 0) 0 (TimerFired second)
      = Some (RetWaited second, mkRateLimiter 0 second (-1) second)
   /\ ~ bucket_inv (mkRateLimiter 0 second (-1) second))
  /\ (bucket_inv (NewRateLimiter 5 second 0)
      /\ SetRate (NewRateLimiter 5 second 0) 2 = mkRateLimiter 2 second 5 0
      /\ ~ bucket_inv (mkRateLimiter 2 second 5 0)).
Proof.
  unfold bucket_inv. cbn [tokens rate NewRateLimiter].
  repeat split; try lia; try (vm_compute; congruence).
Qed.

End BucketInvariant.

Module RateZero.
Import GoInt GoIntFacts Limiter LimiterFacts.

(** What one [Wait] returns on a limiter of rate 0: it blocks when
    [waitTime] is positive, and returns at once otherwise. *)
Local Abbreviation rate_zero_ret waitTime wk :=
  (if 0 <? waitTime then
     match wk with
     | CtxDone e => RetCancelled e
     | TimerFired _ => RetWaited waitTime
     end
   else RetNoWait).

(** One [Wait] on a limiter of rate 0 whose tokens are 0 or -1. *)
Lemma rate_zero_step (rl : RateLimiter) (now : Z) (wk : wake) :
  rate rl = 0 ->
  -1 <= tokens rl <= 0 ->
  interval rl <> 0 ->
  let waitTime := sub64 (interval rl) (time_Sub now (lastTime rl)) in
  exists rl',
    Wait rl now wk = Some (rate_zero_ret waitTime wk, rl')
    /\ (rate rl' = 0 /\ -1 <= tokens rl' <= 0 /\ interval rl' = interval rl)
    /\ (0 < waitTime -> forall now', wk = TimerFired now' ->
        tokens rl' = -1 /\ lastTime rl' = now').
Proof.
  intros Hrate Htok Hint waitTime. unfold Wait.
  destruct (Z.eqb_spec (interval rl) 0) as [E|_]; [contradiction|].
  set (add := quot64 (time_Sub now (lastTime rl)) (interval rl)).
  assert (Hadd : in_int64 add) by apply wrap64_range.
  assert (H1 : rate (refill rl now add) = 0
               /\ -1 <= tokens (refill rl now add) <= 0).
  { unfold refill. rewrite Z.gtb_ltb. destruct (Z.ltb_spec 0 add).
    - cbn [rate tokens].
      rewrite add64_small
        by (unfold in_int64, min_int64, max_int64 in *; lia).
      rewrite min_is_Zmin. lia.
    - split; assumption. }
  pose proof (refill_interval rl now add) as Hi1.
  set (rl1 := refill rl now add) in *. destruct H1 as [Hr1 Ht1].
  rewrite Z.gtb_ltb. destruct (Z.ltb_spec 0 (tokens rl1)) as [Hpos|_]; [lia|].
  rewrite Hi1. fold waitTime. rewrite Z.gtb_ltb.
  destruct (Z.ltb_spec 0 waitTime) as [Hwait|Hnone].
  - destruct wk as [e|now'].
    + exists rl1. split; [reflexivity|]. split; [auto|].
      intros _ now' Hwk. discriminate.
    + eexists. split; [reflexivity|]. cbn [rate tokens interval lastTime].
      rewrite Hr1.
      assert (Hm : sub64 0 1 = -1) by (vm_compute; reflexivity).
      rewrite Hm. split; [repeat split; lia|].
      intros _ now'' Hwk. injection Hwk as ->. split; reflexivity.
  - exists rl1. split; [reflexivity|]. split; [auto|]. lia.
Qed.

(** The wait of a limiter with a positive interval and a clock that does
    not run backwards is the remainder of the interval, and there is one
    exactly when less than an interval has elapsed. *)
Lemma waitTime_remainder (interval0 last now : Z) :
  0 < interval0 <= max_int64 ->
  last <= now ->
  let waitTime := sub64 interval0 (time_Sub now last) in
  (0 < waitTime <-> now - last < interval0)
  /\ (0 < waitTime -> waitTime = interval0 - (now - last)).
Proof.
  intros Hint Hclock waitTime.
  pose proof (time_Sub_nonneg now last Hclock) as Hel.
  assert (Hw : waitTime = interval0 - time_Sub now last).
  { unfold waitTime. apply sub64_small.
    unfold in_int64, min_int64, max_int64 in *. lia. }
  rewrite Hw. clear Hw waitTime.
  unfold time_Sub, min_int64, max_int64 in *. lia.
Qed.

(** The calls of a sequence on a limiter of rate 0 return, none through
    the token path, and leave a limiter of rate 0. *)
Lemma rate_zero_all (inputs : list (Z * wake)) (rl : RateLimiter) :
  rate rl = 0 -> -1 <= tokens rl <= 0 -> interval rl <> 0 ->
  exists outs rl',
    Wait_all rl inputs = Some (outs, rl')
    /\ Forall (fun out => out <> RetToken) outs
    /\ (rate rl' = 0 /\ -1 <= tokens rl' <= 0 /\ interval rl' = interval rl)
    /\ Forall2 (fun input out =>
                  (forall e, out = RetCancelled e -> snd input = CtxDone e)
                  /\ (forall now', snd input = TimerFired now' ->
                                   ret_err out = None))
               inputs outs.
Proof.
  revert rl. induction inputs as [|[now wk] rest IH]; intros rl Hrate Htok Hi.
  - exists [], rl. repeat split; try constructor; lia.
  - cbn [Wait_all].
    destruct (rate_zero_step rl now wk Hrate Htok Hi)
      as (rl1 & Hw & (Hr1 & Ht1 & Hi1) & _).
    rewrite Hw.
    destruct (IH rl1 Hr1 Ht1 ltac:(congruence))
      as (outs & rl' & Hall & Hnone & (Hr' & Ht' & Hi') & Hrel).
    rewrite Hall. eexists (_ :: outs), rl'.
    split; [reflexivity|]. split; [|split; [|constructor; [|exact Hrel]]].
    + constructor; [|exact Hnone].
      destruct (0 <? _); [destruct wk|]; discriminate.
    + repeat split; try assumption; lia.
    + cbn [snd].
      destruct (0 <? _); [destruct wk|]; split; intros; try discriminate;
        try reflexivity; congruence.
Qed.

(** C4, as amended: a limiter constructed with rate 0 and a non-zero
    interval never holds a positive token count (its tokens are 0 or -1)
    and in every sequence of calls no [Wait] returns through the
    token-consuming path.  Still every call returns, the call [(now, wk)]
    that follows any sequence [inputs] as the others: when
    [waitTime = interval - elapsed] is positive it blocks for [waitTime]
    and returns ok, with [tokens = -1] and [lastTime] the reading of the
    clock after the wait, unless the context is done first, and only then
    does it return the cancellation error; when [waitTime] is not positive
    it returns ok at once.  For a positive interval and a clock that does
    not run backwards, [waitTime] is the remainder of the interval and is
    positive exactly when less than a whole interval has elapsed since
    [lastTime].  With an interval of 0 the division of [Wait] panics. *)
Theorem rate_zero_never_consumes (interval0 now0 : Z)
    (inputs : list (Z * wake)) (now : Z) (wk : wake) :
  (interval0 = 0 -> Wait (NewRateLimiter 0 interval0 now0) now wk = None)
  /\ (interval0 <> 0 ->
      exists outs rl,
        Wait_all (NewRateLimiter 0 interval0 now0) inputs = Some (outs, rl)
        /\ Forall (fun out => out <> RetToken) outs
        /\ Forall2 (fun input out =>
                      (forall e, out = RetCancelled e -> snd input = CtxDone e)
                      /\ (forall now', snd input = TimerFired now' ->
                                       ret_err out = None))
                   inputs outs
        /\ rate rl = 0 /\ interval rl = interval0 /\ -1 <= tokens rl <= 0
        /\ (let waitTime := sub64 interval0 (time_Sub now (lastTime rl)) in
            exists rl',
              Wait rl now wk
              = Some (if 0 <? waitTime then
                        match wk with
                        | CtxDone e => RetCancelled e
                        | TimerFired _ => RetWaited waitTime
                        end
                      else RetNoWait, rl')
              /\ rate rl' = 0 /\ -1 <= tokens rl' <= 0
              /\ (0 < waitTime -> forall now', wk = TimerFired now' ->
                  tokens rl' = -1 /\ lastTime rl' = now')
              /\ (0 < interval0 <= max_int64 -> lastTime rl <= now ->
                  (0 < waitTime <-> now - lastTime rl < interval0)
                  /\ (0 < waitTime ->
                      waitTime = interval0 - (now - lastTime rl))))).
Proof.
  split.
  - intros ->. reflexivity.
  - intros Hint.
    destruct (rate_zero_all inputs (NewRateLimiter 0 interval0 now0))
      as (outs & rl & Hall & Hnone & (Hr & Ht & Hi) & Hrel);
      [reflexivity | cbn; lia | exact Hint |].
    cbn [NewRateLimiter interval] in Hi.
    exists outs, rl. split; [exact Hall|]. split; [exact Hnone|].
    split; [exact Hrel|]. split; [exact Hr|]. split; [exact Hi|].
    split; [exact Ht|]. cbv zeta.
    destruct (rate_zero_step rl now wk Hr Ht ltac:(congruence))
      as (rl' & Hw & (Hr' & Ht' & _) & Hblocked).
    rewrite Hi in Hw, Hblocked. exists rl'.
    split; [exact Hw|]. split; [exact Hr'|]. split; [exact Ht'|].
    split; [exact Hblocked|].
    intros Hpos Hclock. apply waitTime_remainder; assumption.
Qed.

(** The witness: on [NewRateLimiter(0, time.Second)], two calls within
    the first interval, then a call two intervals later. *)
Lemma rate_zero_never_consumes_witness :
  exists outs rl,
    Wait_all (NewRateLimiter 0 second 0)
      [(0, TimerFired second); (second, CtxDone Canceled)]
    = Some (outs, rl)
    /\ Forall (fun out => out <> RetToken) outs
    /\ tokens rl <= 0
    /\ exists rl',
         Wait rl (3 * second) (TimerFired (4 * second))
         = Some (RetNoWait, rl').
Proof.
  destruct (rate_zero_never_consumes second 0
              [(0, TimerFired second); (second, CtxDone Canceled)]
              (3 * second) (TimerFired (4 * second)))
    as (_ & Hrun).
  destruct Hrun as (outs & rl & Hall & Hnone & _ & _ & _ & Ht & Hnext).
  - vm_compute. discriminate.
  - exists outs, rl. split; [exact Hall|]. split; [exact Hnone|].
    split; [lia|].
    cbv zeta in Hnext. destruct Hnext as (rl' & Hw & _).
    exists rl'. rewrite Hw.
    assert (Hrl : rl = mkRateLimiter 0 second (-1) second).
    { vm_compute in Hall. injection Hall as _ <-. reflexivity. }
    rewrite Hrl. reflexivity.
Defined.

(** The returns of these three calls: blocked one interval then ok;
    cancelled while blocked; ok without blocking. *)
Example rate_zero_three_calls :
  Wait_all (NewRateLimiter 0 second 0)
    [(0, TimerFired second); (second, CtxDone Canceled);
     (3 * second, TimerFired (4 * second))]
  = Some ([RetWaited second; RetCancelled Canceled; RetNoWait],
          mkRateLimiter 0 second 0 (3 * second)).
Proof. vm_compute. reflexivity. Qed.

(** C4, the claim as stated fails: the first [Wait] on a limiter
    constructed with rate 0, when the context is not cancelled, blocks for
    one interval and returns nil; a [Wait] one interval later returns nil
    without blocking. *)
Lemma rate_zero_returns_ok :
  let rl := NewRateLimiter 0 second 0 in
  Wait rl 0 (TimerFired second)
  = Some (RetWaited second, mkRateLimiter 0 second (-1) second)
  /\ ret_err (RetWaited second) = None
  /\ Wait rl second (CtxDone Canceled)
     = Some (RetNoWait, mkRateLimiter 0 second 0 second)
  /\ ret_err RetNoWait = None.
Proof.
  cbv zeta. repeat split; vm_compute; reflexivity.
Qed.

End RateZero.

(** ** Retryer *)

Module RetryFacts.
Import GoInt GoIntFacts Limiter Examples.

Section Shape.

Variable T : Type.
Variable m : Z.
Variable d : Z -> Z.

Lemma calls_app (l1 l2 : list (event T)) :
  calls (l1 ++ l2) = calls l1 + calls l2.
Proof.
  unfold calls. rewrite filter_app, length_app. lia.
Qed.

Lemma calls_slept (a : Z) : calls (slept (T := T) d a) = 0.
Proof. unfold slept. destruct (a >? 0); reflexivity. Qed.

Lemma calls_nonneg (l : list (event T)) : 0 <= calls l.
Proof. unfold calls. lia. Qed.

Lemma slept_goes_on (a : Z) : Forall goes_on (slept (T := T) d a).
Proof.
  unfold slept. destruct (a >? 0); repeat constructor.
Qed.

Lemma last_observed_slept (a : Z) (acc : T * option error)
    (rest : list (event T)) :
  last_observed acc (slept d a ++ rest) = last_observed acc rest.
Proof. unfold slept. destruct (a >? 0); reflexivity. Qed.

(** The number of calls from attempt [a] on is bounded by the number of
    attempts left. *)
Lemma attempts_calls_bound (a : Z) (v : T) (le : option error)
    (log : list (event T)) (out : T * option error) :
  attempts_from m d a v le log out ->
  calls log <= Z.max 0 (m + 1 - a).
Proof.
  induction 1.
  - unfold calls. cbn. lia.
  - unfold calls. cbn. lia.
  - rewrite calls_app, calls_slept. unfold calls. cbn. lia.
  - rewrite calls_app, calls_slept.
    change (EvCall v' (Some e) :: rest) with ([EvCall v' (Some e)] ++ rest).
    rewrite calls_app. unfold calls at 1. cbn [filter is_call List.length].
    lia.
Qed.

(** When nothing ends the retry early, every attempt left is made. *)
Lemma attempts_calls_exact (a : Z) (v : T) (le : option error)
    (log : list (event T)) (out : T * option error) :
  attempts_from m d a v le log out ->
  Forall goes_on log ->
  calls log = Z.max 0 (m + 1 - a).
Proof.
  induction 1; intros Hall.
  - unfold calls. cbn. lia.
  - inversion Hall as [|? ? Hbad _]; subst. cbn in Hbad. discriminate.
  - apply Forall_app in Hall. destruct Hall as [_ Hall].
    inversion Hall as [|? ? Hbad _]; subst. cbn in Hbad. congruence.
  - apply Forall_app in Hall. destruct Hall as [_ Hall].
    inversion Hall as [|? ? _ Hrest]; subst.
    rewrite calls_app, calls_slept.
    change (EvCall v' (Some e) :: rest) with ([EvCall v' (Some e)] ++ rest).
    rewrite calls_app, (IHattempts_from Hrest).
    unfold calls. cbn [filter is_call List.length]. lia.
Qed.

(** Every effect but the last lets the retry go on: a success or a
    cancelled sleep is the end of the log. *)
Lemma attempts_end_at_once (a : Z) (v : T) (le : option error)
    (log : list (event T)) (out : T * option error) :
  attempts_from m d a v le log out ->
  Forall goes_on (removelast log).
Proof.
  induction 1.
  - constructor.
  - constructor.
  - rewrite removelast_last. apply slept_goes_on.
  - rewrite removelast_app by discriminate.
    apply Forall_app. split; [apply slept_goes_on|].
    destruct rest as [|ev rest'].
    + constructor.
    + change (removelast (EvCall v' (Some e) :: ev :: rest'))
        with (EvCall v' (Some e) :: removelast (ev :: rest')).
      constructor; [cbn; discriminate | exact IHattempts_from].
Qed.

(** The outcome is what was observed last. *)
Lemma attempts_outcome (a : Z) (v : T) (le : option error)
    (log : list (event T)) (out : T * option error) :
  attempts_from m d a v le log out ->
  out = last_observed (v, le) log.
Proof.
  induction 1.
  - reflexivity.
  - reflexivity.
  - rewrite last_observed_slept. reflexivity.
  - rewrite last_observed_slept. exact IHattempts_from.
Qed.

(** Every sleep is the backoff delay of an attempt after the first. *)
Lemma attempts_sleeps (a : Z) (v : T) (le : option error)
    (log : list (event T)) (out : T * option error) :
  attempts_from m d a v le log out ->
  forall dl c, In (EvSleep dl c) log ->
  exists a', a <= a' <= m /\ 0 < a' /\ dl = d a'.
Proof.
  assert (Hslept : forall a dl c, a <= m ->
            In (EvSleep (T := T) dl c) (slept d a) ->
            exists a', a <= a' <= m /\ 0 < a' /\ dl = d a').
  { intros a0 dl c Ha. unfold slept. rewrite Z.gtb_ltb.
    destruct (Z.ltb_spec 0 a0); cbn; [|tauto].
    intros [Heq|[]]. inversion Heq; subst. exists a0. lia. }
  induction 1; intros dl c Hin.
  - destruct Hin.
  - destruct Hin as [Heq|[]]. inversion Heq; subst. exists a. lia.
  - apply in_app_or in Hin. destruct Hin as [Hin|Hin].
    + eapply Hslept; eassumption.
    + destruct Hin as [Heq|[]]. discriminate.
  - apply in_app_or in Hin. destruct Hin as [Hin|Hin].
    + eapply Hslept; eassumption.
    + destruct Hin as [Heq|Hin]; [discriminate|].
      destruct (IHattempts_from dl c Hin) as (a' & Ha' & Hpos & Hdl).
      exists a'. lia.
Qed.

(** The first effect of a retry is the call of attempt 0: no sleep comes
    before it. *)
Lemma attempts_start_with_call (v : T) (le : option error)
    (log : list (event T)) (out : T * option error) :
  0 <= m ->
  attempts_from m d 0 v le log out ->
  exists v' e rest, log = EvCall v' e :: rest.
Proof.
  intros Hm H. inversion H; subst; try lia.
  - eexists _, _, _. reflexivity.
  - eexists _, _, _. reflexivity.
Qed.

End Shape.

Section Loops.

Context {B : Type} {strategy : BackoffStrategy B}.
Variable W : Type.
Variable after : Z -> W -> option error * W.
Variable r : Retryer B.

Let m : Z := MaxRetries (config r).
Let d : Z -> Z := GetDelay (Backoff (config r)).

Lemma replays_app (T : Type) (fn : W -> (T * option error) * W)
    (l1 l2 : list (event T)) (w w1 w2 : W) :
  replays after fn w l1 w1 -> replays after fn w1 l2 w2 ->
  replays after fn w (l1 ++ l2) w2.
Proof.
  revert w. induction l1 as [|[dl c|v e] l1 IH]; intros w H1 H2;
    cbn [replays app] in *.
  - subst w1. exact H2.
  - destruct H1 as [Hc H1]. split; [exact Hc | eapply IH; eassumption].
  - destruct H1 as [Hc H1]. split; [exact Hc | eapply IH; eassumption].
Qed.

(** The sleep before an attempt adds [slept] to the log, unless it is
    cancelled; what it adds is what [after] did. *)
Lemma backoff_sleep_cases (T : Type) (fn : W -> (T * option error) * W)
    (attempt : Z) (w : W) (log : list (event T)) :
  (exists w1, backoff_sleep W after r attempt w log
              = (None, w1, log ++ slept d attempt)
              /\ replays after fn w (slept d attempt) w1)
  \/ (exists e w1, 0 < attempt
        /\ backoff_sleep W after r attempt w log
           = (Some e, w1, log ++ [EvSleep (d attempt) (Some e)])
        /\ replays after fn w [EvSleep (d attempt) (Some e)] w1).
Proof.
  unfold backoff_sleep, slept. rewrite Z.gtb_ltb.
  destruct (Z.ltb_spec 0 attempt) as [Hpos|Hle].
  - fold d. destruct (after (d attempt) w) as [[e|] w1] eqn:Hafter.
    + right. exists e, w1. split; [exact Hpos|]. split; [reflexivity|].
      cbn [replays]. rewrite Hafter. split; reflexivity.
    + left. exists w1. split; [reflexivity|].
      cbn [replays]. rewrite Hafter. split; reflexivity.
  - left. exists w. rewrite app_nil_r. split; reflexivity.
Qed.

(** The loop of [Execute], entered at [attempt] with enough fuel for the
    attempts left, returns; its effects are the attempts of the design,
    and they are those of the operation and of the context. *)
Lemma Execute_loop_attempts (fn : W -> option error * W) :
  m < max_int64 ->
  forall (fuel : nat) (attempt : Z) (lastErr : option error) (w : W)
         (log : list (event unit)),
  0 <= attempt ->
  (Z.to_nat (m + 1 - attempt) < fuel)%nat ->
  exists err w' suffix,
    Execute_loop W after fuel r fn attempt lastErr w log
    = Some (err, w', log ++ suffix)
    /\ attempts_from m d attempt tt lastErr suffix (tt, err)
    /\ replays after (no_value fn) w suffix w'.
Proof.
  intros Hm. induction fuel as [|fuel IH]; intros attempt lastErr w log Ha Hfuel.
  - lia.
  - cbn [Execute_loop]. fold m.
    destruct (Z.leb_spec attempt m) as [Hle|Hgt].
    + destruct (backoff_sleep_cases unit (no_value fn) attempt w log)
        as [(w1 & Hs & Hrs)|(e & w1 & Hpos & Hs & Hrs)]; rewrite Hs.
      * destruct (fn w1) as [[e|] w2] eqn:Hfn.
        -- assert (Hnext : add64 attempt 1 = attempt + 1)
             by (apply add64_small;
                 unfold in_int64, min_int64, max_int64 in *; lia).
           rewrite Hnext.
           destruct (IH (attempt + 1) (Some e) w2
                       ((log ++ slept d attempt) ++ [EvCall tt (Some e)]))
             as (err & w' & suffix & Hrun & Hshape & Hrep); [lia|lia|].
           exists err, w', (slept d attempt ++ EvCall tt (Some e) :: suffix).
           split; [|split].
           ++ rewrite Hrun. repeat rewrite <- app_assoc. reflexivity.
           ++ apply af_failure; assumption.
           ++ eapply replays_app; [exact Hrs|].
              assert (Hnv : no_value fn w1 = ((tt, Some e), w2))
                by (unfold no_value; rewrite Hfn; reflexivity).
              cbn [replays]. rewrite Hnv.
              split; [reflexivity | exact Hrep].
        -- exists None, w2, (slept d attempt ++ [EvCall tt None]).
           split; [|split].
           ++ rewrite <- app_assoc. reflexivity.
           ++ apply af_success. exact Hle.
           ++ eapply replays_app; [exact Hrs|].
              assert (Hnv : no_value fn w1 = ((tt, None), w2))
                by (unfold no_value; rewrite Hfn; reflexivity).
              cbn [replays]. rewrite Hnv. repeat split.
      * exists (Some e), w1, [EvSleep (d attempt) (Some e)].
        split; [|split].
        -- reflexivity.
        -- apply af_cancelled; assumption.
        -- exact Hrs.
    + exists lastErr, w, []. split; [|split].
      * rewrite app_nil_r. reflexivity.
      * apply af_exhausted. exact Hgt.
      * reflexivity.
Qed.

(** The same for the loop of [ExecuteWithResult]. *)
Lemma ExecuteWithResult_loop_attempts (T : Type)
    (fn : W -> (T * option error) * W) :
  m < max_int64 ->
  forall (fuel : nat) (attempt : Z) (result : T) (lastErr : option error)
         (w : W) (log : list (event T)),
  0 <= attempt ->
  (Z.to_nat (m + 1 - attempt) < fuel)%nat ->
  exists out w' suffix,
    ExecuteWithResult_loop W after fuel r fn attempt result lastErr w log
    = Some (out, w', log ++ suffix)
    /\ attempts_from m d attempt result lastErr suffix out
    /\ replays after fn w suffix w'.
Proof.
  intros Hm. induction fuel as [|fuel IH];
    intros attempt result lastErr w log Ha Hfuel.
  - lia.
  - cbn [ExecuteWithResult_loop]. fold m.
    destruct (Z.leb_spec attempt m) as [Hle|Hgt].
    + destruct (backoff_sleep_cases T fn attempt w log)
        as [(w1 & Hs & Hrs)|(e & w1 & Hpos & Hs & Hrs)]; rewrite Hs.
      * destruct (fn w1) as [[res [e|]] w2] eqn:Hfn.
        -- assert (Hnext : add64 attempt 1 = attempt + 1)
             by (apply add64_small;
                 unfold in_int64, min_int64, max_int64 in *; lia).
           rewrite Hnext.
           destruct (IH (attempt + 1) res (Some e) w2
                       ((log ++ slept d attempt) ++ [EvCall res (Some e)]))
             as (out & w' & suffix & Hrun & Hshape & Hrep); [lia|lia|].
           exists out, w', (slept d attempt ++ EvCall res (Some e) :: suffix).
           split; [|split].
           ++ rewrite Hrun. repeat rewrite <- app_assoc. reflexivity.
           ++ apply af_failure; assumption.
           ++ eapply replays_app; [exact Hrs|].
              cbn [replays]. rewrite Hfn.
              split; [reflexivity | exact Hrep].
        -- exists (res, None), w2, (slept d attempt ++ [EvCall res None]).
           split; [|split].
           ++ rewrite <- app_assoc. reflexivity.
           ++ apply af_success. exact Hle.
           ++ eapply replays_app; [exact Hrs|].
              cbn [replays]. rewrite Hfn. repeat split.
      * exists (result, Some e), w1, [EvSleep (d attempt) (Some e)].
        split; [|split].
        -- reflexivity.
        -- apply af_cancelled; assumption.
        -- exact Hrs.
    + exists (result, lastErr), w, []. split; [|split].
      * rewrite app_nil_r. reflexivity.
      * apply af_exhausted. exact Hgt.
      * reflexivity.
Qed.

(** A log of an operation that always fails, under a context that is
    never done, has no effect that ends the retry. *)
Lemma replays_goes_on (T : Type) (fn : W -> (T * option error) * W)
    (log : list (event T)) (w w' : W) :
  (forall w0, snd (fst (fn w0)) <> None) ->
  (forall dl w0, fst (after dl w0) = None) ->
  replays after fn w log w' ->
  Forall goes_on log.
Proof.
  intros Hfails Hlive. revert w.
  induction log as [|[dl c|v e] log IH]; intros w Hrep; cbn [replays] in Hrep.
  - constructor.
  - destruct Hrep as [Hc Hrep]. constructor; [|eapply IH; exact Hrep].
    cbn. rewrite <- Hc. apply Hlive.
  - destruct Hrep as [Hc Hrep]. constructor; [|eapply IH; exact Hrep].
    cbn. pose proof (Hfails w) as Hw. rewrite Hc in Hw. exact Hw.
Qed.

End Loops.

Lemma attempts_contract (T : Type) (m : Z) (d : Z -> Z) (zero : T)
    (log : list (event T)) (out : T * option error) :
  0 <= m ->
  attempts_from m d 0 zero None log out ->
  retry_contract m d zero log out.
Proof.
  intros Hm H. unfold retry_contract.
  destruct (attempts_start_with_call T m d zero None log out Hm H)
    as (v & e & rest & Hlog).
  pose proof (attempts_calls_bound T m d 0 zero None log out H) as Hbound.
  split; [exact H|]. split; [|split; [|split; [|split; [|split]]]].
  - split; [|lia]. subst log. unfold calls. cbn [filter is_call List.length]. lia.
  - exists v, e, rest. exact Hlog.
  - intros dl c Hin.
    destruct (attempts_sleeps T m d 0 zero None log out H dl c Hin)
      as (a & Ha & Hpos & Hdl).
    exists a. lia.
  - eapply attempts_end_at_once. exact H.
  - eapply attempts_outcome. exact H.
  - intros Hall.
    rewrite (attempts_calls_exact T m d 0 zero None log out H Hall). lia.
Qed.

(** An effect that lets the retry go on leaves an error as the last one
    observed, once there is one. *)
Lemma last_observed_error (T : Type) (log : list (event T))
    (acc : T * option error) :
  Forall goes_on log -> snd acc <> None ->
  snd (last_observed acc log) <> None.
Proof.
  unfold last_observed. revert acc.
  induction log as [|[dl c|v e] log IH]; intros acc Hall Hacc;
    cbn [fold_left]; [exact Hacc| |];
    inversion Hall as [|? ? Hev Hrest]; subst; cbn in Hev; apply IH;
    try exact Hrest.
  - subst c. exact Hacc.
  - exact Hev.
Qed.

(** What a retry does, from the contract and the replay of its log: when
    the first call succeeds it is the only effect and the outcome is its
    value with a nil error; when every call fails and the context is
    never done there are [m + 1] calls and an error comes back. *)
Lemma contract_on_operation (T W : Type) (after : Z -> W -> option error * W)
    (fn : W -> (T * option error) * W) (m : Z) (d : Z -> Z) (zero : T)
    (w w' : W) (log : list (event T)) (out : T * option error) :
  retry_contract m d zero log out ->
  replays after fn w log w' ->
  (snd (fst (fn w)) = None ->
   log = [EvCall (fst (fst (fn w))) None]
   /\ out = (fst (fst (fn w)), None) /\ w' = snd (fn w))
  /\ ((forall w0, snd (fst (fn w0)) <> None) ->
      (forall dl w0, fst (after dl w0) = None) ->
      calls log = m + 1 /\ snd out <> None).
Proof.
  intros (_ & _ & (v & e & rest & Hlog) & _ & Hend & Hout & Hexact) Hrep.
  subst log. cbn [replays] in Hrep. destruct Hrep as [Hcall Hrep]. split.
  - intros Hok. rewrite Hcall in Hok. cbn in Hok. subst e.
    destruct rest as [|ev rest].
    + cbn [replays] in Hrep. rewrite Hcall. cbn [fst].
      split; [reflexivity|]. split; [exact Hout | exact Hrep].
    + change (removelast (EvCall v None :: ev :: rest))
        with (EvCall v None :: removelast (ev :: rest)) in Hend.
      inversion Hend as [|? ? Hbad _]. cbn in Hbad. congruence.
  - intros Hfails Hlive.
    assert (Hall : Forall goes_on (EvCall v e :: rest)).
    { apply (replays_goes_on W after T fn (EvCall v e :: rest) w w' Hfails Hlive).
      cbn [replays]. split; assumption. }
    split; [apply Hexact; exact Hall|].
    rewrite Hout. unfold last_observed. cbn [fold_left observe].
    inversion Hall as [|? ? Hev Hrest]; subst.
    apply last_observed_error; [exact Hrest | exact Hev].
Qed.

(** C5: for every [MaxRetries >= 0] (below the largest int, so that the
    loop counter cannot wrap), every operation and every behaviour of the
    context, [Execute] and [ExecuteWithResult] return.  Their log of
    effects is what the operation and the context did ([replays]: each
    call recorded is a call of the operation with what it returned, each
    sleep a [select] on the context with the backoff delay), and log and
    outcome satisfy [retry_contract]: the operation is invoked at least
    once and at most [MaxRetries + 1] times; no sleep precedes attempt 0
    and each sleep is [GetDelay a] for an attempt [a >= 1]; the first
    success ends the retry at once with a nil error; a cancelled sleep
    ends it with the cancellation error; otherwise the last observed
    error (and, for [ExecuteWithResult], the last observed value) is
    returned.  In particular an operation that succeeds at once is called
    once and nothing else happens, and an operation that always fails,
    under a context that is never done, is called exactly
    [MaxRetries + 1] times and an error comes back. *)
Theorem Execute_retry_contract
    (B : Type) (strategy : BackoffStrategy B) (W : Type)
    (after : Z -> W -> option error * W) (r : Retryer B)
    (fn : W -> option error * W)
    (T : Type) (zero : T) (fnT : W -> (T * option error) * W)
    (w : W) (fuel : nat) :
  0 <= MaxRetries (config r) < max_int64 ->
  (Z.to_nat (MaxRetries (config r) + 1) < fuel)%nat ->
  (exists err w' log,
      Execute W after fuel r fn w = Some (err, w', log)
      /\ replays after (no_value fn) w log w'
      /\ retry_contract (MaxRetries (config r))
           (GetDelay (Backoff (config r))) tt log (tt, err)
      /\ (fst (fn w) = None ->
          log = [EvCall tt None] /\ err = None /\ w' = snd (fn w))
      /\ ((forall w0, fst (fn w0) <> None) ->
          (forall dl w0, fst (after dl w0) = None) ->
          calls log = MaxRetries (config r) + 1 /\ err <> None))
  /\ (exists out w' log,
         ExecuteWithResult W after fuel r zero fnT w = Some (out, w', log)
         /\ replays after fnT w log w'
         /\ retry_contract (MaxRetries (config r))
              (GetDelay (Backoff (config r))) zero log out
         /\ (snd (fst (fnT w)) = None ->
             log = [EvCall (fst (fst (fnT w))) None]
             /\ out = (fst (fst (fnT w)), None) /\ w' = snd (fnT w))
         /\ ((forall w0, snd (fst (fnT w0)) <> None) ->
             (forall dl w0, fst (after dl w0) = None) ->
             calls log = MaxRetries (config r) + 1 /\ snd out <> None)).
Proof.
  intros Hm Hfuel. split.
  - destruct (Execute_loop_attempts W after r fn ltac:(lia) fuel 0 None w [])
      as (err & w' & log & Hrun & Hshape & Hrep);
      [lia | rewrite Z.sub_0_r; exact Hfuel |].
    exists err, w', log. split; [exact Hrun|]. split; [exact Hrep|].
    assert (Hc : retry_contract (MaxRetries (config r))
                   (GetDelay (Backoff (config r))) tt log (tt, err))
      by (apply attempts_contract; [lia | exact Hshape]).
    split; [exact Hc|].
    destruct (contract_on_operation unit W after (no_value fn) _ _ tt w w'
                log (tt, err) Hc Hrep) as [Hfirst Hfail].
    split.
    + intros Hok. destruct (Hfirst Hok) as (Hlog & Hout & Hw).
      split; [exact Hlog|]. split; [congruence | exact Hw].
    + intros Hfails Hlive. apply Hfail; [exact Hfails | exact Hlive].
  - destruct (ExecuteWithResult_loop_attempts W after r T fnT ltac:(lia)
                fuel 0 zero None w [])
      as (out & w' & log & Hrun & Hshape & Hrep);
      [lia | rewrite Z.sub_0_r; exact Hfuel |].
    exists out, w', log. split; [exact Hrun|]. split; [exact Hrep|].
    assert (Hc : retry_contract (MaxRetries (config r))
                   (GetDelay (Backoff (config r))) zero log out)
      by (apply attempts_contract; [lia | exact Hshape]).
    split; [exact Hc|].
    exact (contract_on_operation T W after fnT _ _ zero w w' log out Hc Hrep).
Qed.

(** With [MaxRetries = 3] an operation that always fails is invoked
    exactly 4 times, with sleeps of 100ms, 200ms and 400ms in between and
    none before the first call; the last error comes back. *)
Example Execute_four_calls :
  Execute nat never_done 5 retryer3 (fails_until 10) 0%nat
  = Some (Some (OpError "refused"), 4%nat,
          [EvCall tt (Some (OpError "refused"));
           EvSleep (100 * millisecond) None;
           EvCall tt (Some (OpError "refused"));
           EvSleep (200 * millisecond) None;
           EvCall tt (Some (OpError "refused"));
           EvSleep (400 * millisecond) None;
           EvCall tt (Some (OpError "refused"))]).
Proof. vm_compute. reflexivity. Qed.

(** A first call that succeeds is the only effect. *)
Example Execute_first_success :
  Execute nat never_done 5 retryer3 (fails_until 0) 0%nat
  = Some (None, 1%nat, [EvCall tt None]).
Proof. vm_compute. reflexivity. Qed.

(** A context done during the first backoff sleep ends the retry after
    one call, with the cancellation error and the value of that call. *)
Example ExecuteWithResult_cancelled :
  ExecuteWithResult nat (fun _ w => (Some Canceled, w)) 5 retryer3 0%nat
    (fails_until_value 10) 7%nat
  = Some ((7%nat, Some Canceled), 8%nat,
          [EvCall 7%nat (Some (OpError "refused"));
           EvSleep (100 * millisecond) (Some Canceled)]).
Proof. vm_compute. reflexivity. Qed.

(** The witness: [retryer3] on the always-failing operation. *)
Lemma Execute_retry_contract_witness :
  (exists err w' log,
      Execute nat never_done 5 retryer3 (fails_until 10) 0%nat
      = Some (err, w', log)
      /\ replays never_done (no_value (fails_until 10)) 0%nat log w'
      /\ retry_contract 3
           (GetDelay (mkExponential (100 * millisecond) second)) tt log
           (tt, err)
      /\ calls log = 4 /\ err <> None)
  /\ (exists out w' log,
         ExecuteWithResult nat never_done 5 retryer3 0%nat
           (fails_until_value 10) 0%nat
         = Some (out, w', log)
         /\ replays never_done (fails_until_value 10) 0%nat log w'
         /\ retry_contract 3
              (GetDelay (mkExponential (100 * millisecond) second)) 0%nat log
              out
         /\ calls log = 4 /\ snd out <> None).
Proof.
  destruct (Execute_retry_contract ExponentialBackoff
              ExponentialBackoff_strategy nat never_done retryer3
              (fails_until 10) nat 0%nat (fails_until_value 10) 0%nat 5%nat)
    as [(err & w' & log & Hrun & Hrep & Hc & _ & Hfail)
        (out & w2 & log2 & Hrun2 & Hrep2 & Hc2 & _ & Hfail2)].
  - vm_compute. split; [discriminate | reflexivity].
  - vm_compute. lia.
  - assert (Hrun' := Hrun). vm_compute in Hrun'. injection Hrun' as <- <- <-.
    assert (Hrun2' := Hrun2). vm_compute in Hrun2'.
    injection Hrun2' as <- <- <-.
    split.
    + eexists _, _, _. split; [exact Hrun|]. split; [exact Hrep|].
      split; [exact Hc|]. split; [reflexivity | discriminate].
    + eexists _, _, _. split; [exact Hrun2|]. split; [exact Hrep2|].
      split; [exact Hc2|]. split; [reflexivity | discriminate].
Defined.

End RetryFacts.

(** ** Risk level and confidence *)

Module ScoringFacts.
Import GoInt GoIntFacts Finder Examples.

Local Open Scope string_scope.
Local Open Scope Z_scope.

Lemma severity_points_range (sev : string) : 0 <= severity_points sev <= 10.
Proof.
  unfold severity_points.
  destruct (sev =? "Critical")%string, (sev =? "High")%string,
    (sev =? "Medium")%string, (sev =? "Low")%string; lia.
Qed.

Lemma sum_points_range (vulns : list Vulnerability) :
  0 <= sum_points vulns <= 10 * Z.of_nat (List.length vulns).
Proof.
  induction vulns as [|v vulns IH]; cbn [sum_points fold_right List.length].
  - lia.
  - fold (sum_points vulns).
    pose proof (severity_points_range (vuln_Severity v)). lia.
Qed.

(** The accumulation of the [for] loop never wraps while the sum fits. *)
Lemma fold_points (vulns : list Vulnerability) (acc : Z) :
  0 <= acc ->
  acc + 10 * Z.of_nat (List.length vulns) <= max_int64 ->
  fold_left (fun acc vuln => add64 acc (severity_points (vuln_Severity vuln)))
            vulns acc
  = acc + sum_points vulns.
Proof.
  revert acc. induction vulns as [|v vulns IH]; intros acc Hacc Hfit;
    cbn [fold_left sum_points fold_right List.length] in *.
  - lia.
  - fold (sum_points vulns).
    pose proof (severity_points_range (vuln_Severity v)) as Hp.
    rewrite add64_small
      by (unfold in_int64, min_int64, max_int64 in *; lia).
    rewrite IH by lia. lia.
Qed.

Lemma count_in_cons (sev : string) (v : Vulnerability)
    (vulns : list Vulnerability) :
  count_in sev (v :: vulns)
  = (if (vuln_Severity v =? sev)%string then 1 else 0) + count_in sev vulns.
Proof.
  unfold count_in. cbn [filter].
  destruct (vuln_Severity v =? sev)%string; cbn [List.length]; lia.
Qed.

(** The sum of the points is the weighted count of the four severities. *)
Lemma sum_points_counts (vulns : list Vulnerability) :
  sum_points vulns
  = 10 * count_in "Critical" vulns + 7 * count_in "High" vulns
    + 4 * count_in "Medium" vulns + 1 * count_in "Low" vulns.
Proof.
  induction vulns as [|v vulns IH].
  - reflexivity.
  - cbn [sum_points fold_right]. fold (sum_points vulns).
    rewrite IH, !count_in_cons. unfold severity_points.
    destruct (String.eqb_spec (vuln_Severity v) "Critical");
      destruct (String.eqb_spec (vuln_Severity v) "High");
      destruct (String.eqb_spec (vuln_Severity v) "Medium");
      destruct (String.eqb_spec (vuln_Severity v) "Low");
      try lia; congruence.
Qed.

(** Rewrites the additions that provably stay in range, innermost
    first. *)
Ltac unwrap :=
  repeat match goal with
         | Hsmall : forall x k, _ -> _ -> add64 x k = x + k
           |- context [add64 ?x ?k] => rewrite (Hsmall x k) by lia
         end.

Lemma riskScore_design (result : Result) :
  len (Vulnerabilities result) < 2 ^ 59 ->
  riskScore result = risk_score_design result.
Proof.
  intros Hlen. unfold riskScore, risk_score_design, count_severity.
  unfold len in Hlen.
  pose proof (sum_points_range (elems (Vulnerabilities result))) as Hsum.
  rewrite fold_points by (unfold max_int64; lia).
  rewrite sum_points_counts in *. unfold count_in in *.
  set (base := 10 * _ + 7 * _ + 4 * _ + 1 * _) in *.
  rewrite Z.add_0_l.
  assert (Hsmall : forall x k, 0 <= x <= 10 * 2 ^ 59 + 16 -> 0 <= k <= 8 ->
                               add64 x k = x + k).
  { intros x k Hx Hk. apply add64_small.
    unfold in_int64, min_int64, max_int64. lia. }
  assert (Hssl :
    match SSL result with
    | Some ssl =>
        let s := if ssl_Expired ssl then add64 base 8 else base in
        let s := if ssl_ExpiresSoon ssl then add64 s 3 else s in
        if len (ssl_Vulnerabilities ssl) >? 0 then add64 s 5 else s
    | None => base
    end
    = base + match SSL result with
             | Some ssl =>
                 (if ssl_Expired ssl then 8 else 0)
                 + (if ssl_ExpiresSoon ssl then 3 else 0)
                 + (if 0 <? len (ssl_Vulnerabilities ssl) then 5 else 0)
             | None => 0
             end
    /\ 0 <= match SSL result with
            | Some ssl =>
                (if ssl_Expired ssl then 8 else 0)
                + (if ssl_ExpiresSoon ssl then 3 else 0)
                + (if 0 <? len (ssl_Vulnerabilities ssl) then 5 else 0)
            | None => 0
            end <= 16).
  { destruct (SSL result) as [ssl|]; [|split; lia].
    cbv zeta. rewrite Z.gtb_ltb.
    destruct (ssl_Expired ssl), (ssl_ExpiresSoon ssl),
      (0 <? len (ssl_Vulnerabilities ssl));
      unwrap; split; lia. }
  destruct Hssl as [Hssl Hrange]. cbv zeta in Hssl |- *. rewrite Hssl.
  set (cert := match SSL result with Some _ => _ | None => 0 end) in *.
  rewrite Z.gtb_ltb.
  destruct (10 <? len (Ports result));
    destruct (Status result =? "403")%string;
    destruct (Status result =? "500")%string;
    unwrap; lia.
Qed.

Lemma assessRisk_level (result : Result) :
  assessRisk result = risk_level_design (riskScore result).
Proof.
  unfold assessRisk, risk_level_design. rewrite !Z.geb_leb. reflexivity.
Qed.

Lemma risk_level_thresholds (score : Z) :
  (risk_level_design score = "high" <-> 15 <= score)
  /\ (risk_level_design score = "medium" <-> 8 <= score < 15)
  /\ (risk_level_design score = "low" <-> 3 <= score < 8)
  /\ (risk_level_design score = "info" <-> score < 3).
Proof.
  unfold risk_level_design.
  destruct (Z.leb_spec 15 score); [|destruct (Z.leb_spec 8 score);
    [|destruct (Z.leb_spec 3 score)]];
    repeat split; intros; try lia; try reflexivity; try discriminate.
Qed.

(** C7: the risk score is the sum of the design (10, 7, 4 and 1 per
    Critical, High, Medium and Low finding; 8, 3 and 5 for an expired
    certificate, one that expires soon and one with certificate-level
    vulnerabilities; 3 for more than 10 open ports; 2 for status 403 and 5
    for status 500), and the level is "high" from 15, "medium" from 8,
    "low" from 3 and "info" below; a record whose only findings are two
    High vulnerabilities scores 14 and is "medium", and with one Critical
    more it scores 24 and is "high".  The bound on the number of findings
    keeps the sum within Go's int; no slice in memory reaches it. *)
Theorem assessRisk_design (result : Result) (h1 h2 c : Vulnerability) :
  len (Vulnerabilities result) < 2 ^ 59 ->
  vuln_Severity h1 = "High" ->
  vuln_Severity h2 = "High" ->
  vuln_Severity c = "Critical" ->
  riskScore result = risk_score_design result
  /\ assessRisk result = risk_level_design (risk_score_design result)
  /\ (assessRisk result = "high" <-> 15 <= risk_score_design result)
  /\ (assessRisk result = "medium" <-> 8 <= risk_score_design result < 15)
  /\ (assessRisk result = "low" <-> 3 <= risk_score_design result < 8)
  /\ (assessRisk result = "info" <-> risk_score_design result < 3)
  /\ riskScore (with_findings [h1; h2]) = 14
  /\ assessRisk (with_findings [h1; h2]) = "medium"
  /\ riskScore (with_findings [h1; h2; c]) = 24
  /\ assessRisk (with_findings [h1; h2; c]) = "high".
Proof.
  intros Hlen Hh1 Hh2 Hc.
  pose proof (riskScore_design result Hlen) as Hscore.
  pose proof (assessRisk_level result) as Hlevel. rewrite Hscore in Hlevel.
  destruct (risk_level_thresholds (risk_score_design result))
    as (Hhigh & Hmedium & Hlow & Hinfo).
  rewrite Hlevel.
  assert (H14 : riskScore (with_findings [h1; h2]) = 14).
  { unfold riskScore, with_findings.
    cbn [Vulnerabilities elems fold_left SSL Ports Status].
    rewrite Hh1, Hh2. vm_compute. reflexivity. }
  assert (H24 : riskScore (with_findings [h1; h2; c]) = 24).
  { unfold riskScore, with_findings.
    cbn [Vulnerabilities elems fold_left SSL Ports Status].
    rewrite Hh1, Hh2, Hc. vm_compute. reflexivity. }
  repeat split; try tauto; try assumption.
  - rewrite assessRisk_level, H14. reflexivity.
  - rewrite assessRisk_level, H24. reflexivity.
Qed.

(** The witness: the record with two High findings. *)
Lemma assessRisk_design_witness :
  riskScore (with_findings [finding "High"; finding "High"])
  = risk_score_design (with_findings [finding "High"; finding "High"])
  /\ assessRisk (with_findings [finding "High"; finding "High"]) = "medium"
  /\ riskScore
       (with_findings [finding "High"; finding "High"; finding "Critical"])
     = 24
  /\ assessRisk
       (with_findings [finding "High"; finding "High"; finding "Critical"])
     = "high".
Proof.
  pose proof (assessRisk_design
                (with_findings [finding "High"; finding "High"])
                (finding "High") (finding "High") (finding "Critical")
                ltac:(vm_compute; reflexivity) eq_refl eq_refl eq_refl) as H.
  repeat split; apply H.
Defined.

(** As a function of the fields of the record, the confidence is 50 plus
    20 for a non-empty [IP], 15 for a non-empty [Status], 10 for a
    non-empty [Technologies] and 5 for a non-nil [SSL], capped at 100; it
    lies in [50, 100] and is exactly 100 when the four hold. *)
Lemma calculateConfidence_design (result : Result) :
  calculateConfidence result = confidence_design result
  /\ 50 <= calculateConfidence result <= 100
  /\ (ip_resolved result && status_obtained result
      && tech_fingerprinted result && cert_obtained result = true ->
      calculateConfidence result = 100).
Proof.
  unfold calculateConfidence, confidence_design, ip_resolved, status_obtained,
    tech_fingerprinted, cert_obtained.
  rewrite !Z.gtb_ltb.
  destruct (negb (IP result =? "")%string),
    (negb (Status result =? "")%string),
    (0 <? len (Technologies result)), (SSL result);
    cbn [andb]; vm_compute; repeat split; congruence.
Qed.

Example calculateConfidence_all_signals :
  calculateConfidence all_signals = 100.
Proof.
  exact (proj2 (proj2 (calculateConfidence_design all_signals)) eq_refl).
Qed.

(** C8, at an input where the code leaves the claim: the record
    [checkSubdomain] builds for a candidate that resolves while both HTTP
    requests get no response, no technology is fingerprinted and no
    certificate is obtained.  [Check] returns the placeholder "N/A" as
    status; it is not the empty string, so the test [result.Status != ""]
    of [calculateConfidence] passes and the 15 points of the HTTP status
    are granted although no status was obtained: the confidence is 85,
    not 50 + 20 = 70. *)
Theorem confidence_counts_missing_status :
  let result := checkSubdomain example_env "www.example.com" in
  makeRequest example_env "http://www.example.com" = None
  /\ makeRequest example_env "https://www.example.com" = None
  /\ Status result = "N/A"
  /\ IP result = "93.184.216.34"
  /\ Technologies result = None
  /\ SSL result = None
  /\ calculateConfidence result = 85
  /\ Confidence result = 85.
Proof.
  cbv zeta. repeat split; vm_compute; reflexivity.
Qed.

End ScoringFacts.

(** ** The probe pipeline and the scheduler *)

Module FinderFacts.
Import GoInt GoIntFacts Finder Examples.

Local Open Scope Z_scope.

(** *** One pipeline execution *)

Lemma candidate_nonempty (cfg : Config) (w : string) :
  candidate cfg w <> ""%string.
Proof.
  unfold candidate. destruct w; cbn; discriminate.
Qed.

Lemma probe_stages_Subdomain (env : Probes) (subdomain ip : string) :
  Subdomain (probe_stages env subdomain ip) = subdomain
  /\ IP (probe_stages env subdomain ip) = ip.
Proof.
  unfold probe_stages.
  destruct (Check env subdomain) as [status response].
  destruct (tech_Detect env ("https://" ++ subdomain)); split; reflexivity.
Qed.

(** A resolved candidate yields a record that carries its name and IP,
    whatever the later stages return. *)
Lemma checkSubdomain_resolved (env : Probes) (subdomain ip : string) :
  dns_Resolve env subdomain = inl ip ->
  Subdomain (checkSubdomain env subdomain) = subdomain
  /\ IP (checkSubdomain env subdomain) = ip.
Proof.
  intros Hdns. unfold checkSubdomain. rewrite Hdns.
  cbn [set_ResponseTime set_Confidence set_RiskLevel Subdomain IP].
  apply probe_stages_Subdomain.
Qed.

(** An unresolved candidate yields the zero record. *)
Lemma checkSubdomain_unresolved (env : Probes) (subdomain err : string) :
  dns_Resolve env subdomain = inr err ->
  checkSubdomain env subdomain = zero_Result.
Proof.
  intros Hdns. unfold checkSubdomain. rewrite Hdns. reflexivity.
Qed.

(** The later stages are soft: a failure of one of them leaves its
    fields nil (for the HTTP probe: the placeholder of [Check]) in a
    record that is still built. *)
Lemma checkSubdomain_soft_failures (env : Probes) (subdomain ip : string) :
  dns_Resolve env subdomain = inl ip ->
  let result := checkSubdomain env subdomain in
  (Status result, Response result) = Check env subdomain
  /\ (makeRequest env ("http://" ++ subdomain) = None ->
      makeRequest env ("https://" ++ subdomain) = None ->
      Status result = "N/A"%string)
  /\ (QuickScan env ip = None -> Ports result = None)
  /\ (forall err, ssl_Analyze env subdomain 443 = inr err -> SSL result = None)
  /\ (forall err, tech_Detect env ("https://" ++ subdomain) = inr err ->
      Technologies result = None /\ Server result = ""%string)
  /\ (forall err, vuln_ScanURL env ("https://" ++ subdomain) = inr err ->
      Vulnerabilities result = None).
Proof.
  intros Hdns. cbv zeta. unfold checkSubdomain. rewrite Hdns.
  cbn [set_ResponseTime set_Confidence set_RiskLevel
       Status Response Ports SSL Technologies Server Vulnerabilities].
  unfold probe_stages.
  assert (Hna : makeRequest env ("http://" ++ subdomain) = None ->
                makeRequest env ("https://" ++ subdomain) = None ->
                fst (Check env subdomain) = "N/A"%string).
  { intros H1 H2. unfold Check. rewrite H1, H2. reflexivity. }
  destruct (Check env subdomain) as [status response].
  destruct (tech_Detect env ("https://" ++ subdomain)) as [tr|e1];
    cbn [Status Response Ports SSL Technologies Server Vulnerabilities];
    repeat split; try congruence;
    try (intros H1 H2; exact (Hna H1 H2));
    try (intros Hq; rewrite Hq; reflexivity);
    try (intros err Hq; rewrite Hq; reflexivity).
Qed.

Section SchedulerFacts.

Variable cfg : Config.
Variable env : Probes.
Variable words : list string.

Local Abbreviation emitted := (emitted cfg env).
Local Abbreviation pending_of := (pending_of cfg env).
Local Abbreviation step := (step cfg env words).
Local Abbreviation steps := (steps cfg env words).
Local Abbreviation reachable := (reachable cfg env words).
Local Abbreviation scheduler_inv := (scheduler_inv cfg env words).

(** What a goroutine sends is its record when the candidate resolves, and
    nothing otherwise. *)
Lemma emitted_cases (w : string) :
  match dns_Resolve env (candidate cfg w) with
  | inl ip =>
      emitted w = [checkSubdomain env (candidate cfg w)]
      /\ Subdomain (checkSubdomain env (candidate cfg w)) = candidate cfg w
      /\ IP (checkSubdomain env (candidate cfg w)) = ip
  | inr _ => emitted w = []
  end.
Proof.
  unfold Finder.emitted.
  destruct (dns_Resolve env (candidate cfg w)) as [ip|err] eqn:Hdns.
  - destruct (checkSubdomain_resolved env _ ip Hdns) as [Hsub Hip].
    rewrite Hsub.
    destruct (String.eqb_spec (candidate cfg w) "") as [E|_].
    + destruct (candidate_nonempty cfg w E).
    + repeat split; assumption.
  - rewrite (checkSubdomain_unresolved env _ err Hdns). reflexivity.
Qed.

Lemma emitted_length (ws : list string) :
  (List.length (flat_map emitted ws) <= List.length ws)%nat.
Proof.
  induction ws as [|w ws IH]; cbn [flat_map List.length].
  - lia.
  - rewrite length_app. unfold Finder.emitted at 1.
    destruct (Subdomain _ =? "")%string; cbn [List.length]; lia.
Qed.

(** *** Executions *)

Lemma steps_one (s s' : state) : step s s' -> steps s s'.
Proof. intros H. eapply steps_step; [apply steps_refl | exact H]. Qed.

Lemma steps_trans (s1 s2 s3 : state) :
  steps s1 s2 -> steps s2 s3 -> steps s1 s3.
Proof.
  intros H12 H23. induction H23.
  - exact H12.
  - eapply steps_step; [apply IHsteps; exact H12 | eassumption].
Qed.

(** *** The invariant *)

Lemma inv_init (s0 : state) :
  Find_init cfg words = Some s0 -> scheduler_inv s0.
Proof.
  unfold Find_init. destruct (Z.ltb_spec (Threads cfg) 0); [discriminate|].
  intros E. inversion E; subst. constructor; cbn.
  - reflexivity.
  - reflexivity.
  - lia.
  - reflexivity.
  - discriminate.
  - discriminate.
  - apply Permutation_refl.
Qed.

Lemma length_replace (pre post : list goroutine) (g g' : goroutine) :
  List.length (pre ++ g' :: post) = List.length (pre ++ g :: post).
Proof. rewrite !length_app. reflexivity. Qed.

Lemma holders_split (pre post : list goroutine) (g : goroutine) :
  Z.of_nat (List.length (filter holds_slot (pre ++ g :: post)))
  = Z.of_nat (List.length (filter holds_slot pre))
    + (if holds_slot g then 1 else 0)
    + Z.of_nat (List.length (filter holds_slot post)).
Proof.
  rewrite filter_app, length_app. cbn [filter].
  destruct (holds_slot g); cbn [List.length]; lia.
Qed.

Lemma pending_split (pre post : list goroutine) (g : goroutine) :
  flat_map pending_of (pre ++ g :: post)
  = flat_map pending_of pre ++ pending_of g ++ flat_map pending_of post.
Proof. rewrite flat_map_app. reflexivity. Qed.

Lemma nonempty_middle (pre post : list goroutine) (g : goroutine) :
  pre ++ g :: post <> [].
Proof. destruct pre; discriminate. Qed.
Lemma inv_step (s s' : state) :
  scheduler_inv s -> step s s' -> scheduler_inv s'.
Proof.
  intros [Hwg Hsem Hcap Hcl Hclosed Hret Hacc] Hstep.
  destruct Hstep as
    [w rest s Hmain
    |s Hmain
    |pre post w s Hws Hroom
    |pre post w s Hws
    |pre post w r s Hws Hsub Hbuf Hopen
    |pre post w r s Hws Hsub
    |pre post w s Hws Hpos
    |pre post w s Hws
    |s Hcloser Hzero
    |r rest s Hmain Hchan
    |s Hmain Hchan Hcloser];
    constructor; cbn [main workers closer semaphore wg resultsChan results];
    try rewrite Hmain in *; try rewrite Hws in *;
    cbn [undispatched flat_map] in *.
  (* spawn *)
  - rewrite length_app. cbn [List.length]. lia.
  - rewrite filter_app, length_app. cbn. lia.
  - exact Hcap.
  - exact Hcl.
  - intros E. rewrite Hcl in E. discriminate.
  - discriminate.
  - rewrite flat_map_app. cbn [flat_map]. rewrite app_nil_r.
    unfold Finder.pending_of at 2. cbn [g_phase g_word].
    rewrite <- !app_assoc in *. exact Hacc.
  (* loop exit *)
  - exact Hwg.
  - exact Hsem.
  - exact Hcap.
  - discriminate.
  - discriminate.
  - discriminate.
  - exact Hacc.
  (* acquire *)
  - rewrite Hwg, !length_app. reflexivity.
  - rewrite holders_split in *. cbn in *. lia.
  - lia.
  - exact Hcl.
  - intros E. destruct (nonempty_middle pre post _ (Hclosed E)).
  - exact Hret.
  - rewrite pending_split in *. exact Hacc.
  (* check *)
  - rewrite Hwg, !length_app. reflexivity.
  - rewrite holders_split in *. cbn in *. lia.
  - exact Hcap.
  - exact Hcl.
  - intros E. destruct (nonempty_middle pre post _ (Hclosed E)).
  - exact Hret.
  - rewrite pending_split in *. exact Hacc.
  (* send *)
  - rewrite Hwg, !length_app. reflexivity.
  - rewrite holders_split in *. cbn in *. lia.
  - exact Hcap.
  - exact Hcl.
  - intros E. contradiction.
  - intros E. destruct (Hret E) as [_ Hc]. contradiction.
  - rewrite pending_split in *.
    unfold Finder.pending_of at 2 in Hacc. unfold Finder.pending_of at 2.
    cbn [g_phase] in *.
    destruct (String.eqb_spec (Subdomain r) "") as [E|_]; [contradiction|].
    eapply Permutation_trans; [|exact Hacc].
    apply Permutation_app_head. rewrite <- !app_assoc.
    apply Permutation_app_head. cbn [app].
    apply Permutation_middle.
  (* skip *)
  - rewrite Hwg, !length_app. reflexivity.
  - rewrite holders_split in *. cbn in *. lia.
  - exact Hcap.
  - exact Hcl.
  - intros E. destruct (nonempty_middle pre post _ (Hclosed E)).
  - exact Hret.
  - rewrite pending_split in *.
    unfold Finder.pending_of at 2 in Hacc. unfold Finder.pending_of at 2.
    cbn [g_phase] in *. rewrite Hsub in Hacc. exact Hacc.
  (* release *)
  - rewrite Hwg, !length_app. reflexivity.
  - rewrite holders_split in *. cbn in *. lia.
  - lia.
  - exact Hcl.
  - intros E. destruct (nonempty_middle pre post _ (Hclosed E)).
  - exact Hret.
  - rewrite pending_split in *. exact Hacc.
  (* done *)
  - rewrite Hwg, !length_app. cbn [List.length]. lia.
  - rewrite holders_split in Hsem. cbn in Hsem.
    rewrite filter_app, length_app. lia.
  - exact Hcap.
  - exact Hcl.
  - intros E. destruct (nonempty_middle pre post _ (Hclosed E)).
  - exact Hret.
  - rewrite pending_split in Hacc. cbn in Hacc.
    rewrite flat_map_app. exact Hacc.
  (* close *)
  - exact Hwg.
  - exact Hsem.
  - exact Hcap.
  - destruct (main s);
      [rewrite Hcl in Hcloser; discriminate | discriminate | discriminate].
  - intros _. apply length_zero_iff_nil. lia.
  - intros E. destruct (Hret E) as [Hc _]. split; [exact Hc|reflexivity].
  - exact Hacc.
  (* collect *)
  - exact Hwg.
  - exact Hsem.
  - exact Hcap.
  - exact Hcl.
  - exact Hclosed.
  - discriminate.
  - rewrite Hchan in Hacc. rewrite <- app_assoc. exact Hacc.
  (* return *)
  - exact Hwg.
  - exact Hsem.
  - exact Hcap.
  - rewrite Hcloser. discriminate.
  - exact Hclosed.
  - intros _. split; assumption.
  - rewrite Hchan in *. exact Hacc.
Qed.

Lemma inv_steps (s s' : state) :
  scheduler_inv s -> steps s s' -> scheduler_inv s'.
Proof.
  intros Hinv H. induction H.
  - exact Hinv.
  - eapply inv_step; [apply IHsteps; exact Hinv | eassumption].
Qed.

Lemma inv_reachable (s : state) : reachable s -> scheduler_inv s.
Proof.
  intros (s0 & Hinit & Hsteps).
  eapply inv_steps; [apply inv_init; exact Hinit | exact Hsteps].
Qed.

(** *** The admission gate *)

Lemma executing_le_holders (l : list goroutine) :
  (List.length (filter in_pipeline l) <= List.length (filter holds_slot l))%nat.
Proof.
  induction l as [|g l IH]; cbn [filter].
  - lia.
  - destruct g as [w ph]. unfold in_pipeline at 1, holds_slot at 1.
    destruct ph; cbn [g_phase List.length]; lia.
Qed.

Lemma executing_bounded (s : state) :
  scheduler_inv s -> executing s <= Threads cfg.
Proof.
  intros [_ Hsem Hcap _ _ _ _]. unfold executing.
  pose proof (executing_le_holders (workers s)). lia.
Qed.

(** The dispatch loop can run to its end before any goroutine passes the
    gate. *)
Lemma dispatch_all (rest done : list string) :
  steps
    {| main := Dispatching rest;
       workers := map (fun w => mkGoroutine w AtGate) done;
       closer := NotSpawned; semaphore := 0;
       wg := Z.of_nat (List.length done);
       resultsChan := []; results := [] |}
    {| main := Dispatching [];
       workers := map (fun w => mkGoroutine w AtGate) (done ++ rest);
       closer := NotSpawned; semaphore := 0;
       wg := Z.of_nat (List.length (done ++ rest));
       resultsChan := []; results := [] |}.
Proof.
  revert done. induction rest as [|w rest IH]; intros done.
  - rewrite app_nil_r. apply steps_refl.
  - eapply steps_trans.
    + apply steps_one. eapply step_spawn. reflexivity.
    + cbn [main workers closer semaphore wg resultsChan results].
      specialize (IH (done ++ [w])).
      rewrite <- app_assoc in IH. cbn [app] in IH.
      rewrite map_app, length_app in IH. cbn [map List.length] in IH.
      replace (Z.of_nat (List.length done + 1)) with (Z.of_nat (List.length done) + 1)
        in IH by lia.
      exact IH.
Qed.

Lemma all_queued_reachable :
  0 <= Threads cfg -> reachable (all_queued words).
Proof.
  intros Hthreads. unfold Finder.reachable, Find_init.
  destruct (Z.ltb_spec (Threads cfg) 0); [lia|].
  eexists. split; [reflexivity|].
  apply (dispatch_all words []).
Qed.

Lemma all_queued_count : queued (all_queued words) = Z.of_nat (List.length words).
Proof.
  unfold queued, all_queued. cbn [workers].
  induction words as [|w ws IH]; cbn [map filter at_gate g_phase List.length].
  - reflexivity.
  - lia.
Qed.

(** *** Progress and termination *)

Lemma at_gate_or_active (l : list goroutine) :
  Forall (fun g => g_phase g = AtGate) l
  \/ exists pre g post, l = pre ++ g :: post /\ g_phase g <> AtGate.
Proof.
  induction l as [|g l [IH|(pre & g' & post & Hl & Hg')]].
  - left. constructor.
  - destruct g as [w ph]. destruct ph.
    1: left; constructor; [reflexivity | exact IH].
    all: right; eexists [], _, l; split; [reflexivity | cbn; discriminate].
  - right. exists (g :: pre), g', post. split; [rewrite Hl; reflexivity | exact Hg'].
Qed.

Lemma no_holder_at_gate (l : list goroutine) :
  Forall (fun g => g_phase g = AtGate) l -> filter holds_slot l = [].
Proof.
  induction 1 as [|g l Hg _ IH]; cbn [filter].
  - reflexivity.
  - unfold holds_slot at 1. rewrite Hg. exact IH.
Qed.

(** The buffer of [resultsChan] has room whenever a goroutine is about to
    send. *)
Lemma send_has_room (s : state) (pre post : list goroutine) (w : string)
    (r : Result) :
  scheduler_inv s ->
  workers s = pre ++ mkGoroutine w (AtSend r) :: post ->
  Subdomain r <> ""%string ->
  (List.length (resultsChan s) < List.length words)%nat.
Proof.
  intros [_ _ _ _ _ _ Hacc] Hws Hsub.
  apply Permutation_length in Hacc. rewrite Hws, pending_split in Hacc.
  unfold Finder.pending_of at 2 in Hacc. cbn [g_phase] in Hacc.
  destruct (String.eqb_spec (Subdomain r) "") as [E|_]; [contradiction|].
  rewrite !length_app in Hacc. cbn [List.length] in Hacc.
  pose proof (emitted_length words). lia.
Qed.

Lemma progress (s : state) :
  1 <= Threads cfg ->
  scheduler_inv s ->
  main s <> Returned ->
  exists s', step s s'.
Proof.
  intros Hthreads Hinv Hlive.
  pose proof Hinv as [Hwg Hsem Hcap Hcl Hclosed Hret Hacc].
  destruct (main s) as [[|w rest]| |] eqn:Hmain.
  - eexists. apply step_loop_exit. exact Hmain.
  - eexists. eapply step_spawn. exact Hmain.
  - destruct (resultsChan s) as [|r rest] eqn:Hchan.
    2:{ eexists. eapply step_collect; eassumption. }
    destruct (at_gate_or_active (workers s))
      as [Hgate|(pre & [w ph] & post & Hws & Hph)].
    + destruct (workers s) as [|[w ph] post] eqn:Hws.
      * destruct (closer s) eqn:Hcloser.
        -- contradiction.
        -- eexists. apply step_close; [exact Hcloser|].
           rewrite Hwg. reflexivity.
        -- eexists. apply step_return; assumption.
      * inversion Hgate as [|? ? Hph Hrest]; subst. cbn in Hph. subst ph.
        eexists. apply (step_acquire cfg env words [] post w s).
        -- exact Hws.
        -- rewrite Hsem, (no_holder_at_gate _ Hgate). cbn. lia.
    + destruct ph as [| |r| |].
      * contradiction.
      * eexists. eapply step_check. exact Hws.
      * destruct (String.eqb_spec (Subdomain r) "") as [E|NE].
        -- eexists. eapply step_skip; eassumption.
        -- eexists. eapply step_send; [exact Hws | exact NE | |].
           ++ eapply send_has_room; eassumption.
           ++ intros E. rewrite (Hclosed E) in Hws.
              symmetry in Hws. destruct (nonempty_middle _ _ _ Hws).
      * eexists. eapply step_release; [exact Hws|].
        rewrite Hsem, Hws, holders_split. cbn. lia.
      * eexists. eapply step_done. exact Hws.
  - contradiction.
Qed.

Lemma weight_split (pre post : list goroutine) (g : goroutine) :
  list_sum (map phase_weight (pre ++ g :: post))
  = (list_sum (map phase_weight pre) + phase_weight g
     + list_sum (map phase_weight post))%nat.
Proof.
  rewrite map_app, list_sum_app. unfold list_sum. cbn [map fold_right]. lia.
Qed.

Lemma step_decreases (s s' : state) :
  step s s' -> (steps_left s' < steps_left s)%nat.
Proof.
  intros Hstep. destruct Hstep; unfold steps_left;
    cbn [main workers closer semaphore wg resultsChan results];
    repeat match goal with
           | H : main _ = _ |- _ => rewrite H
           | H : workers _ = _ |- _ => rewrite H
           | H : closer _ = _ |- _ => rewrite H
           | H : resultsChan _ = _ |- _ => rewrite H
           end;
    rewrite ?weight_split, ?map_app, ?list_sum_app, ?length_app;
    unfold list_sum;
    cbn [phase_weight g_phase map fold_right List.length]; lia.
Qed.

(** From every state of an execution, [Find] can go on to return. *)
Lemma can_return (n : nat) :
  1 <= Threads cfg ->
  forall s, (steps_left s < n)%nat -> scheduler_inv s ->
  exists s', steps s s' /\ main s' = Returned.
Proof.
  intros Hthreads. induction n as [|n IH]; intros s Hn Hinv.
  - lia.
  - destruct (main s) eqn:Hmain.
    3:{ exists s. split; [apply steps_refl | exact Hmain]. }
    all: destruct (progress s Hthreads Hinv) as [s1 Hstep];
      [rewrite Hmain; discriminate|];
      pose proof (step_decreases s s1 Hstep) as Hdec;
      destruct (IH s1 ltac:(lia) (inv_step s s1 Hinv Hstep))
        as (s' & Hsteps & Hret);
      exists s'; (split; [|exact Hret]);
      eapply steps_trans; [apply steps_one; exact Hstep | exact Hsteps].
Qed.

(** With at least one slot no execution is ever stuck before [Find]
    returns, and every step brings the return nearer: every execution is
    finite and ends with [Find] returned. *)
Lemma Find_never_stuck (s : state) :
  1 <= Threads cfg ->
  reachable s ->
  main s = Returned
  \/ exists s', step s s' /\ (steps_left s' < steps_left s)%nat.
Proof.
  intros Hthreads Hs.
  destruct (main s) eqn:Hmain; [right|right|left; reflexivity];
    destruct (progress s Hthreads (inv_reachable s Hs)) as [s' Hstep];
    try (rewrite Hmain; discriminate);
    exists s'; (split; [exact Hstep | apply step_decreases; exact Hstep]).
Qed.

(** With no slot ([Threads = 0], an unbuffered semaphore that nobody
    receives from) every goroutine stays at the gate, the WaitGroup never
    drains, and [Find] does not return. *)
Lemma all_stay_at_gate (s s' : state) :
  Threads cfg = 0 ->
  scheduler_inv s ->
  Forall (fun g => g_phase g = AtGate) (workers s)
  /\ (List.length (workers s) + List.length (undispatched (main s))
      = List.length words)%nat ->
  step s s' ->
  Forall (fun g => g_phase g = AtGate) (workers s')
  /\ (List.length (workers s') + List.length (undispatched (main s'))
      = List.length words)%nat.
Proof.
  intros Hzero [_ Hsem _ _ _ _ _] [Hgate Hlen] Hstep.
  assert (Hmid : forall pre post w ph,
            workers s = pre ++ mkGoroutine w ph :: post -> ph = AtGate).
  { intros pre post w ph Hws. rewrite Hws in Hgate.
    apply Forall_app in Hgate. destruct Hgate as [_ Hgate].
    inversion Hgate as [|? ? Hph _]. exact Hph. }
  destruct Hstep;
    cbn [main workers closer semaphore wg resultsChan results];
    try match goal with
        | H : workers _ = _ ++ _ :: _ |- _ =>
            solve [discriminate (Hmid _ _ _ _ H)]
        end.
  - rewrite H in Hlen. cbn [undispatched List.length] in *.
    split.
    + apply Forall_app. split; [exact Hgate | repeat constructor].
    + rewrite length_app. cbn [List.length]. lia.
  - rewrite H in Hlen. cbn [undispatched] in *. split; assumption.
  - rewrite (no_holder_at_gate _ Hgate) in Hsem. cbn in Hsem. lia.
  - split; assumption.
  - split; assumption.
  - split; [exact Hgate|]. rewrite H in Hlen. exact Hlen.
Qed.

Lemma Find_hangs_without_slots (s : state) :
  Threads cfg = 0 ->
  words <> [] ->
  reachable s ->
  main s <> Returned.
Proof.
  intros Hzero Hwords (s0 & Hinit & Hsteps).
  assert (Hboth : scheduler_inv s
                  /\ Forall (fun g => g_phase g = AtGate) (workers s)
                  /\ (List.length (workers s)
                      + List.length (undispatched (main s))
                      = List.length words)%nat).
  { induction Hsteps as [s0|s0 s1 s2 Hsteps IH Hstep].
    - split; [apply inv_init; exact Hinit|].
      unfold Find_init in Hinit. rewrite Hzero in Hinit. cbn in Hinit.
      inversion Hinit; subst. cbn. split; [constructor | reflexivity].
    - destruct (IH Hinit) as [Hinv HJ].
      split; [eapply inv_step; eassumption|].
      eapply all_stay_at_gate; eassumption. }
  destruct Hboth as ([_ _ _ Hcl Hclosed Hret _] & _ & Hlen).
  intros Hmain. destruct (Hret Hmain) as [_ Hcloser].
  rewrite (Hclosed Hcloser), Hmain in Hlen. cbn in Hlen.
  destruct words; [contradiction | discriminate].
Qed.

(** *** What [Find] returns *)

(** When [Find] returns, every record to emit has been collected, once. *)
Lemma returned_output (out : list Result) :
  Find_returns cfg env words out ->
  Permutation out (flat_map emitted words).
Proof.
  intros (s & Hreach & Hmain & Hout). subst out.
  destruct (inv_reachable s Hreach) as [_ _ _ _ Hclosed Hret Hacc].
  destruct (Hret Hmain) as [Hchan Hcloser].
  rewrite Hmain, Hchan, (Hclosed Hcloser) in Hacc.
  cbn [flat_map undispatched app] in Hacc. rewrite app_nil_r in Hacc.
  exact Hacc.
Qed.

(** With at least one slot, [Find] has an execution that returns. *)
Lemma Find_can_return :
  1 <= Threads cfg -> exists out, Find_returns cfg env words out.
Proof.
  intros Hthreads.
  set (s0 := {| main := Dispatching words; workers := []; closer := NotSpawned;
                semaphore := 0; wg := 0; resultsChan := []; results := [] |}).
  assert (Hinit : Find_init cfg words = Some s0).
  { unfold Find_init. destruct (Z.ltb_spec (Threads cfg) 0); [lia|reflexivity]. }
  destruct (can_return (S (steps_left s0)) Hthreads s0 ltac:(lia)
              (inv_init s0 Hinit)) as (s' & Hsteps & Hret).
  exists (results s'), s'. split; [|split; [exact Hret|reflexivity]].
  exists s0. split; [exact Hinit | exact Hsteps].
Qed.

(** C1: with a concurrency bound of at least 1, [Find] returns, and
    whatever the interleaving of its goroutines its output holds exactly
    the records of the candidates whose DNS resolution succeeded: it
    contains a record with a candidate's name if and only if the
    candidate resolves.  When the candidate of a word resolves, the
    output contains the record built for it, with the candidate's name
    and the resolved IP, whatever the later stages return: their failures
    only leave their fields nil (the placeholder "N/A" for the HTTP
    status).  When the resolution fails, no record of the output bears
    the candidate's name, in this and in every other run.  Nothing else
    is in the output, and [Find] has no error result. *)
Theorem Find_emits_iff_resolved :
  1 <= Threads cfg ->
  (exists out, Find_returns cfg env words out)
  /\ (forall out, Find_returns cfg env words out ->
      Permutation out (flat_map emitted words)
      /\ (forall w, In w words ->
          ((exists r, In r out /\ Subdomain r = candidate cfg w)
           <-> (exists ip, dns_Resolve env (candidate cfg w) = inl ip)))
      /\ (forall w, In w words ->
          match dns_Resolve env (candidate cfg w) with
          | inl ip =>
              let r := checkSubdomain env (candidate cfg w) in
              In r out
              /\ Subdomain r = candidate cfg w /\ IP r = ip
              /\ (makeRequest env ("http://" ++ candidate cfg w) = None ->
                  makeRequest env ("https://" ++ candidate cfg w) = None ->
                  Status r = "N/A"%string)
              /\ (QuickScan env ip = None -> Ports r = None)
              /\ (forall err, ssl_Analyze env (candidate cfg w) 443 = inr err ->
                  SSL r = None)
              /\ (forall err,
                   tech_Detect env ("https://" ++ candidate cfg w) = inr err ->
                   Technologies r = None)
              /\ (forall err,
                   vuln_ScanURL env ("https://" ++ candidate cfg w) = inr err ->
                   Vulnerabilities r = None)
          | inr _ => forall r, In r out -> Subdomain r <> candidate cfg w
          end)
      /\ (forall r, In r out ->
          exists w ip,
            In w words /\ dns_Resolve env (candidate cfg w) = inl ip
            /\ r = checkSubdomain env (candidate cfg w))).
Proof.
  intros Hthreads. split.
  - apply Find_can_return. exact Hthreads.
  - intros out Hfind. pose proof (returned_output out Hfind) as Hperm.
    assert (Hin : forall r, In r out ->
              exists w ip, In w words
                /\ dns_Resolve env (candidate cfg w) = inl ip
                /\ r = checkSubdomain env (candidate cfg w)).
    { intros r Hr. apply (Permutation_in _ Hperm) in Hr.
      apply in_flat_map in Hr. destruct Hr as (w & Hw & Hr).
      pose proof (emitted_cases w) as Hcase.
      destruct (dns_Resolve env (candidate cfg w)) as [ip|err] eqn:Hdns.
      - destruct Hcase as (He & _). rewrite He in Hr.
        destruct Hr as [Hr|[]]. exists w, ip.
        repeat split; [exact Hw | exact Hdns | symmetry; exact Hr].
      - rewrite Hcase in Hr. destruct Hr. }
    split; [exact Hperm|]. split; [|split; [|exact Hin]].
    { intros w Hw. pose proof (emitted_cases w) as Hcase. split.
      - intros (r & Hr & Hname).
        destruct (Hin r Hr) as (w' & ip' & _ & Hdns' & Hr').
        destruct (checkSubdomain_resolved env _ ip' Hdns') as [Hsub' _].
        rewrite <- Hr', Hname in Hsub'. rewrite <- Hsub' in Hdns'.
        exists ip'. exact Hdns'.
      - intros (ip & Hdns). rewrite Hdns in Hcase.
        destruct Hcase as (He & Hsub & _).
        exists (checkSubdomain env (candidate cfg w)). split; [|exact Hsub].
        apply (Permutation_in _ (Permutation_sym Hperm)).
        apply in_flat_map. exists w. split; [exact Hw|].
        rewrite He. left. reflexivity. }
    intros w Hw. pose proof (emitted_cases w) as Hcase.
    destruct (dns_Resolve env (candidate cfg w)) as [ip|err] eqn:Hdns.
    + destruct Hcase as (He & Hsub & Hip). cbv zeta.
      destruct (checkSubdomain_soft_failures env _ ip Hdns)
        as (_ & Hhttp & Hports & Hssl & Htech & Hvuln).
      split; [|repeat split; try assumption].
      * apply (Permutation_in _ (Permutation_sym Hperm)).
        apply in_flat_map. exists w. split; [exact Hw|].
        rewrite He. left. reflexivity.
      * intros err Herr. apply (Htech err Herr).
    + intros r Hr Hname.
      destruct (Hin r Hr) as (w' & ip' & _ & Hdns' & Hr').
      destruct (checkSubdomain_resolved env _ ip' Hdns') as [Hsub' _].
      rewrite <- Hr', Hname in Hsub'. rewrite <- Hsub' in Hdns'. congruence.
Qed.

(** C9: with a concurrency bound N >= 1, in every state of every
    execution of [Find] the number of goroutines inside [checkSubdomain]
    is at most N; and the dispatch does not wait for the gate: the state
    in which every word has its goroutine, all of them queued on the gate
    and none executing, is reachable, so the number of queued executions
    reaches the number of candidates whatever N is. *)
Theorem gate_bounds_executions :
  1 <= Threads cfg ->
  (forall s, reachable s -> executing s <= Threads cfg)
  /\ reachable (all_queued words)
  /\ queued (all_queued words) = Z.of_nat (List.length words)
  /\ executing (all_queued words) = 0.
Proof.
  intros Hthreads. split; [|split; [|split]].
  - intros s Hs. apply executing_bounded. apply inv_reachable. exact Hs.
  - apply all_queued_reachable. lia.
  - apply all_queued_count.
  - unfold executing, all_queued. cbn [workers].
    induction words as [|w ws IH]; cbn [map filter in_pipeline g_phase];
      [reflexivity | exact IH].
Qed.

End SchedulerFacts.

(** *** A run on example.com *)

(** The witness: the run on example.com. *)
Lemma Find_emits_iff_resolved_witness :
  (exists out, Find_returns example_cfg example_env example_words out)
  /\ (forall out, Find_returns example_cfg example_env example_words out ->
      Permutation out
        (flat_map (emitted example_cfg example_env) example_words)
      /\ (forall w, In w example_words ->
          ((exists r, In r out /\ Subdomain r = candidate example_cfg w)
           <-> (exists ip,
                  dns_Resolve example_env (candidate example_cfg w) = inl ip)))
      /\ (forall w, In w example_words ->
          match dns_Resolve example_env (candidate example_cfg w) with
          | inl ip =>
              let r := checkSubdomain example_env (candidate example_cfg w) in
              In r out
              /\ Subdomain r = candidate example_cfg w /\ IP r = ip
              /\ (makeRequest example_env
                    ("http://" ++ candidate example_cfg w) = None ->
                  makeRequest example_env
                    ("https://" ++ candidate example_cfg w) = None ->
                  Status r = "N/A"%string)
              /\ (QuickScan example_env ip = None -> Ports r = None)
              /\ (forall err,
                   ssl_Analyze example_env (candidate example_cfg w) 443
                   = inr err -> SSL r = None)
              /\ (forall err,
                   tech_Detect example_env
                     ("https://" ++ candidate example_cfg w) = inr err ->
                   Technologies r = None)
              /\ (forall err,
                   vuln_ScanURL example_env
                     ("https://" ++ candidate example_cfg w) = inr err ->
                   Vulnerabilities r = None)
          | inr _ =>
              forall r, In r out -> Subdomain r <> candidate example_cfg w
          end)
      /\ (forall r, In r out ->
          exists w ip,
            In w example_words
            /\ dns_Resolve example_env (candidate example_cfg w) = inl ip
            /\ r = checkSubdomain example_env (candidate example_cfg w))).
Proof.
  apply (Find_emits_iff_resolved example_cfg example_env example_words).
  vm_compute. discriminate.
Defined.

(** On example.com every run returns the one record of www.example.com,
    with its IP. *)
Example Find_example_output (out : list Result) :
  Find_returns example_cfg example_env example_words out ->
  out = [checkSubdomain example_env "www.example.com"]
  /\ IP (checkSubdomain example_env "www.example.com") = "93.184.216.34"%string.
Proof.
  intros Hfind.
  pose proof (returned_output example_cfg example_env example_words out Hfind)
    as Hperm.
  assert (Hemit : flat_map (emitted example_cfg example_env) example_words
                  = [checkSubdomain example_env "www.example.com"])
    by (vm_compute; reflexivity).
  rewrite Hemit in Hperm. split; [|reflexivity].
  apply Permutation_sym, Permutation_length_1_inv in Hperm. exact Hperm.
Qed.

(** The witness: two slots, five candidates. *)
Lemma gate_bounds_executions_witness :
  (forall s, reachable example_cfg example_env example_words s ->
             executing s <= 2)
  /\ reachable example_cfg example_env example_words (all_queued example_words)
  /\ queued (all_queued example_words) = 5
  /\ executing (all_queued example_words) = 0.
Proof.
  apply (gate_bounds_executions example_cfg example_env example_words).
  vm_compute. discriminate.
Defined.

End FinderFacts.

(** ** The scan command *)

Module CmdFacts.
Import Finder Cmd.

(** [runScan] has no rejecting path: whatever the flags, it calls
    [finder.Find] on a configuration that carries them unchanged. *)
Lemma runScan_always_schedules (fl : Flags) (verbose : bool) (domain : string) :
  exists cfg,
    runScan fl verbose domain = Scheduled cfg
    /\ Finder.Domain cfg = domain
    /\ Finder.Threads cfg = threads fl
    /\ Finder.Timeout cfg = timeout fl
    /\ Finder.Retries cfg = retries fl.
Proof.
  eexists. split; [reflexivity|]. repeat split.
Qed.

(** C10, at inputs where the code leaves the claim: the command lines
    [scan example.com --threads 5000 --timeout 0 --retries 11] and
    [scan example.com --threads 0].  Each of these values is outside the
    range its [validate] tag on [config.Config] declares, and
    [Loader.ValidateConfig] refuses the configuration; but [runScan] never
    builds a [config.Config] nor calls the validator: it copies the flags
    into a [finder.Config] and calls [Find].  With the first command line
    [Find] runs to completion; with the second every goroutine blocks on
    the gate and [Find] never returns. *)
Theorem runScan_schedules_invalid_config :
  let fl := mkFlags "" 5000 0 0 "" false false true true false
                    "SubdomainFinder/1.0.0" [] 11 0 in
  let fl0 := mkFlags "" 0 5 0 "" false false true true false
                     "SubdomainFinder/1.0.0" [] 3 0 in
  (exists cfg,
      runScan fl false "example.com" = Scheduled cfg
      /\ Finder.Threads cfg = 5000
      /\ Finder.Timeout cfg = 0
      /\ Finder.Retries cfg = 11
      /\ Config.ValidateConfig (as_config cfg) = false
      /\ (forall env words, exists out, Find_returns cfg env words out))
  /\ (exists cfg,
         runScan fl0 false "example.com" = Scheduled cfg
         /\ Finder.Threads cfg = 0
         /\ Config.ValidateConfig (as_config cfg) = false
         /\ (forall env words s,
               words <> [] -> reachable cfg env words s -> main s <> Returned)).
Proof.
  cbv zeta. split.
  - eexists. split; [reflexivity|]. repeat split.
    intros env words. apply FinderFacts.Find_can_return. cbn. lia.
  - eexists. split; [reflexivity|]. repeat split.
    intros env words s Hwords Hs.
    apply (fun H => FinderFacts.Find_hangs_without_slots _ _ _ s H Hwords Hs).
    reflexivity.
Qed.

End CmdFacts.

(** ** Backoff delays and the time a retry sleeps *)

Module DelayFacts.
Import GoInt GoIntFacts Limiter RetryLog.

Lemma exponential_delay_capped (eb : ExponentialBackoff) (attempt : Z) :
  ExponentialBackoff_GetDelay eb attempt <= eb_MaxDelay eb.
Proof.
  unfold ExponentialBackoff_GetDelay. cbv zeta.
  rewrite Z.gtb_ltb.
  destruct (Z.ltb_spec (eb_MaxDelay eb)
              (mul64 (eb_BaseDelay eb) (shl64 1 (to_uint64 (sub64 attempt 1)))));
    lia.
Qed.

(** X1: while [BaseDelay * 2^(b-1)] fits an int64, the exponential delay
    does not decrease from an attempt [a >= 1] to a later attempt [b]; it
    is positive when the base delay and the cap are; and it never exceeds
    [MaxDelay], for any attempt whatsoever. *)
Theorem exponential_delay_monotone (eb : ExponentialBackoff) (a b : Z) :
  0 <= eb_BaseDelay eb ->
  1 <= a -> a <= b -> b <= 63 ->
  eb_BaseDelay eb * 2 ^ (b - 1) <= max_int64 ->
  ExponentialBackoff_GetDelay eb a <= ExponentialBackoff_GetDelay eb b
  /\ (0 < eb_BaseDelay eb -> 0 < eb_MaxDelay eb ->
      0 < ExponentialBackoff_GetDelay eb a)
  /\ (forall attempt, ExponentialBackoff_GetDelay eb attempt <= eb_MaxDelay eb).
Proof.
  intros Hbase Ha Hab Hb Hfit.
  assert (Hpow : 2 ^ (a - 1) <= 2 ^ (b - 1))
    by (apply Z.pow_le_mono_r; lia).
  assert (Hpos : 0 < 2 ^ (a - 1)) by (apply Z.pow_pos_nonneg; lia).
  assert (Hle : eb_BaseDelay eb * 2 ^ (a - 1) <= eb_BaseDelay eb * 2 ^ (b - 1))
    by (apply Z.mul_le_mono_nonneg_l; assumption).
  rewrite (BackoffFacts.exponential_delay_in_range eb a) by lia.
  rewrite (BackoffFacts.exponential_delay_in_range eb b) by lia.
  split; [lia|]. split.
  - intros Hb0 Hm0.
    assert (0 < eb_BaseDelay eb * 2 ^ (a - 1)) by (apply Z.mul_pos_pos; lia).
    lia.
  - apply exponential_delay_capped.
Qed.

Lemma exponential_delay_monotone_witness :
  let eb := mkExponential (100 * millisecond) second in
  ExponentialBackoff_GetDelay eb 2 <= ExponentialBackoff_GetDelay eb 5
  /\ (0 < eb_BaseDelay eb -> 0 < eb_MaxDelay eb ->
      0 < ExponentialBackoff_GetDelay eb 2)
  /\ (forall attempt, ExponentialBackoff_GetDelay eb attempt <= eb_MaxDelay eb).
Proof.
  apply (exponential_delay_monotone
           (mkExponential (100 * millisecond) second) 2 5);
    cbn; unfold max_int64, millisecond; lia.
Defined.

(** X2: while [BaseDelay * b] fits an int64, the linear delay of an
    attempt is [BaseDelay * attempt]: it grows by [BaseDelay] with every
    attempt and is not capped. *)
Theorem linear_delay_in_range (lb : LinearBackoff) (a b : Z) :
  0 <= lb_BaseDelay lb ->
  0 <= a -> a < b ->
  lb_BaseDelay lb * b <= max_int64 ->
  LinearBackoff_GetDelay lb a = lb_BaseDelay lb * a
  /\ LinearBackoff_GetDelay lb (a + 1)
     = LinearBackoff_GetDelay lb a + lb_BaseDelay lb
  /\ LinearBackoff_GetDelay lb a <= LinearBackoff_GetDelay lb b.
Proof.
  intros Hbase Ha Hab Hfit.
  assert (Hmono : forall x, 0 <= x <= b ->
            LinearBackoff_GetDelay lb x = lb_BaseDelay lb * x).
  { intros x Hx. unfold LinearBackoff_GetDelay. apply mul64_small.
    unfold in_int64, min_int64, max_int64 in *.
    assert (lb_BaseDelay lb * x <= lb_BaseDelay lb * b)
      by (apply Z.mul_le_mono_nonneg_l; lia).
    assert (0 <= lb_BaseDelay lb * x) by (apply Z.mul_nonneg_nonneg; lia).
    lia. }
  rewrite (Hmono a), (Hmono (a + 1)), (Hmono b) by lia.
  split; [reflexivity|]. split; [ring|].
  apply Z.mul_le_mono_nonneg_l; lia.
Qed.

Lemma linear_delay_in_range_witness :
  let lb := mkLinear (100 * millisecond) in
  LinearBackoff_GetDelay lb 2 = lb_BaseDelay lb * 2
  /\ LinearBackoff_GetDelay lb (2 + 1)
     = LinearBackoff_GetDelay lb 2 + lb_BaseDelay lb
  /\ LinearBackoff_GetDelay lb 2 <= LinearBackoff_GetDelay lb 10.
Proof.
  apply (linear_delay_in_range (mkLinear (100 * millisecond)) 2 10);
    cbn; unfold max_int64, millisecond; lia.
Defined.

End DelayFacts.

(** ** The sleeps of a retry *)

Module SleepFacts.
Import GoInt GoIntFacts Limiter RetryLog.

Section SleepBound.

Variable T : Type.
Variable m : Z.
Variable d : Z -> Z.
Variable cap : Z.

Hypothesis d_capped : forall a, d a <= cap.
Hypothesis cap_nonneg : 0 <= cap.

Lemma total_sleep_app (l1 l2 : list (event T)) :
  total_sleep (l1 ++ l2) = total_sleep l1 + total_sleep l2.
Proof.
  unfold total_sleep.
  induction l1 as [|ev l1 IH]; cbn; [reflexivity|].
  destruct ev; rewrite IH; ring.
Qed.

Lemma total_sleep_slept (a : Z) :
  total_sleep (slept (T := T) d a) <= (if 0 <? a then cap else 0).
Proof.
  unfold slept. rewrite Z.gtb_ltb.
  destruct (Z.ltb_spec 0 a); cbn; [pose proof (d_capped a); lia | lia].
Qed.

(** The attempts from [a] on ask for at most one capped sleep per attempt
    in [max a 1 .. m]. *)
Lemma attempts_sleep_bound (a : Z) (v : T) (le : option error)
    (log : list (event T)) (out : T * option error) :
  attempts_from m d a v le log out ->
  total_sleep log <= Z.max 0 (m + 1 - Z.max a 1) * cap.
Proof.
  induction 1 as [a v le Hlt | a v le e Hle Hpos | a v le v' Hle
                  | a v le v' e rest out Hle Hrest IH].
  - cbn. apply Z.mul_nonneg_nonneg; lia.
  - cbn. pose proof (d_capped a).
    replace (Z.max 0 (m + 1 - Z.max a 1)) with (m + 1 - a) by lia. nia.
  - rewrite total_sleep_app.
    change (total_sleep [EvCall v' None]) with 0.
    pose proof (total_sleep_slept a) as Hs.
    destruct (Z.ltb_spec 0 a).
    + replace (Z.max 0 (m + 1 - Z.max a 1)) with (m + 1 - a) by lia. nia.
    + assert (0 <= Z.max 0 (m + 1 - Z.max a 1) * cap)
        by (apply Z.mul_nonneg_nonneg; lia).
      lia.
  - rewrite total_sleep_app.
    change (total_sleep (EvCall v' (Some e) :: rest)) with (total_sleep rest).
    pose proof (total_sleep_slept a) as Hs.
    destruct (Z.ltb_spec 0 a).
    + replace (Z.max 0 (m + 1 - Z.max a 1)) with (m + 1 - a) by lia.
      replace (Z.max 0 (m + 1 - Z.max (a + 1) 1)) with (m - a) in IH by lia.
      nia.
    + replace (Z.max (a + 1) 1) with 1 in IH by lia.
      replace (Z.max a 1) with 1 by lia. lia.
Qed.

End SleepBound.

(** X3: a retry with the exponential backoff (cap [MaxDelay >= 0],
    [0 <= MaxRetries]) returns having asked [time.After] for at most
    [MaxRetries * MaxDelay] in total, whatever the operation returns,
    whenever the context is cancelled, and even for the attempts whose
    delay has overflowed. *)
Theorem Execute_sleep_bounded
    (W : Type) (after : Z -> W -> option error * W)
    (maxRetries delay0 : Z) (eb : ExponentialBackoff)
    (fn : W -> option error * W)
    (T : Type) (zero : T) (fnT : W -> (T * option error) * W)
    (w : W) (fuel : nat) :
  0 <= maxRetries < max_int64 ->
  0 <= eb_MaxDelay eb ->
  (Z.to_nat (maxRetries + 1) < fuel)%nat ->
  let r := NewRetryer (mkRetryConfig maxRetries delay0 eb) in
  (exists err w' log,
      Execute W after fuel r fn w = Some (err, w', log)
      /\ total_sleep log <= maxRetries * eb_MaxDelay eb)
  /\ (exists out w' log,
         ExecuteWithResult W after fuel r zero fnT w = Some (out, w', log)
         /\ total_sleep log <= maxRetries * eb_MaxDelay eb).
Proof.
  intros Hm Hcap Hfuel r.
  assert (Hr : MaxRetries (config r) = maxRetries) by reflexivity.
  assert (Hd : forall a, GetDelay eb a <= eb_MaxDelay eb)
    by (intros a; apply DelayFacts.exponential_delay_capped).
  split.
  - destruct (RetryFacts.Execute_loop_attempts W after r fn ltac:(lia)
                fuel 0 None w [])
      as (err & w' & log & Hrun & Hshape & _);
      [lia | rewrite Hr, Z.sub_0_r; exact Hfuel |].
    exists err, w', log. split; [exact Hrun|].
    pose proof (attempts_sleep_bound unit maxRetries (GetDelay eb)
                  (eb_MaxDelay eb) Hd Hcap 0 tt None log (tt, err) Hshape).
    replace (Z.max 0 (maxRetries + 1 - Z.max 0 1)) with maxRetries in H by lia.
    exact H.
  - destruct (RetryFacts.ExecuteWithResult_loop_attempts W after r T fnT
                ltac:(lia) fuel 0 zero None w [])
      as (out & w' & log & Hrun & Hshape & _);
      [lia | rewrite Hr, Z.sub_0_r; exact Hfuel |].
    exists out, w', log. split; [exact Hrun|].
    pose proof (attempts_sleep_bound T maxRetries (GetDelay eb)
                  (eb_MaxDelay eb) Hd Hcap 0 zero None log out Hshape).
    replace (Z.max 0 (maxRetries + 1 - Z.max 0 1)) with maxRetries in H by lia.
    exact H.
Qed.

Lemma Execute_sleep_bounded_witness :
  let r := NewRetryer
             (mkRetryConfig 3 0 (mkExponential (100 * millisecond) second)) in
  (exists err w' log,
      Execute nat Examples.never_done 5 r (Examples.fails_until 10) 0%nat
      = Some (err, w', log)
      /\ total_sleep log <= 3 * second)
  /\ (exists out w' log,
         ExecuteWithResult nat Examples.never_done 5 r 0%nat
           (Examples.fails_until_value 10) 0%nat
         = Some (out, w', log)
         /\ total_sleep log <= 3 * second).
Proof.
  apply (Execute_sleep_bounded nat Examples.never_done 3 0
           (mkExponential (100 * millisecond) second)
           (Examples.fails_until 10) nat 0%nat
           (Examples.fails_until_value 10) 0%nat 5);
    cbn; unfold max_int64, second; lia.
Defined.

(** X4: with a negative [MaxRetries] the loop body never runs:
    [Execute] returns a nil error and [ExecuteWithResult] the zero value
    with a nil error, without one call of the operation and without a
    sleep. *)
Theorem Execute_negative_retries
    (B : Type) (strategy : BackoffStrategy B) (W : Type)
    (after : Z -> W -> option error * W) (r : Retryer B)
    (fn : W -> option error * W)
    (T : Type) (zero : T) (fnT : W -> (T * option error) * W)
    (w : W) (fuel : nat) :
  MaxRetries (config r) < 0 ->
  Execute W after (S fuel) r fn w = Some (None, w, [])
  /\ ExecuteWithResult W after (S fuel) r zero fnT w
     = Some ((zero, None), w, []).
Proof.
  intros Hneg. unfold Execute, ExecuteWithResult. cbn.
  destruct (Z.leb_spec 0 (MaxRetries (config r))); [lia|].
  split; reflexivity.
Qed.

Lemma Execute_negative_retries_witness :
  let r := NewRetryer
             (mkRetryConfig (-1) 0 (mkExponential (100 * millisecond) second)) in
  Execute nat Examples.never_done 1 r (Examples.fails_until 0) 0%nat
  = Some (None, 0%nat, [])
  /\ ExecuteWithResult nat Examples.never_done 1 r 7%nat
       (Examples.fails_until_value 0) 0%nat
     = Some ((7%nat, None), 0%nat, []).
Proof.
  apply (Execute_negative_retries ExponentialBackoff _ nat Examples.never_done
           (NewRetryer
              (mkRetryConfig (-1) 0 (mkExponential (100 * millisecond) second)))
           (Examples.fails_until 0) nat 7%nat (Examples.fails_until_value 0)
           0%nat 0).
  cbn. lia.
Defined.

End SleepFacts.

(** ** The burst a limiter lets through *)

Module BurstFacts.
Import GoInt GoIntFacts Limiter LimiterFacts.

(** A [Wait] entered before one interval has passed since the last
    refill adds no token. *)
Lemma Wait_in_window (rl : RateLimiter) (now : Z) (wk : wake) :
  0 < interval rl <= max_int64 ->
  lastTime rl <= now < lastTime rl + interval rl ->
  in_int64 (tokens rl - 1) ->
  in_int64 (rate rl - 1) ->
  Wait rl now wk
  = Some (if 0 <? tokens rl then
            (RetToken,
             mkRateLimiter (rate rl) (interval rl) (tokens rl - 1) (lastTime rl))
          else
            match wk with
            | CtxDone e => (RetCancelled e, rl)
            | TimerFired now' =>
                (RetWaited (interval rl - (now - lastTime rl)),
                 mkRateLimiter (rate rl) (interval rl) (rate rl - 1) now')
            end).
Proof.
  intros Hint Hnow Htok Hrate.
  destruct rl as [r i k t]. cbn [rate interval tokens lastTime] in *.
  unfold Wait. cbn [rate interval tokens lastTime].
  assert (Hel : time_Sub now t = now - t).
  { unfold time_Sub, min_int64, max_int64 in *. lia. }
  rewrite Hel.
  destruct (Z.eqb_spec i 0) as [->|_]; [lia|].
  assert (Hq : quot64 (now - t) i = 0).
  { rewrite quot64_floor by (unfold max_int64 in *; lia).
    apply Z.div_small. lia. }
  rewrite Hq. unfold refill. cbn [rate interval tokens lastTime].
  change (0 >? 0) with false. cbv iota.
  cbn [rate interval tokens lastTime].
  rewrite !Z.gtb_ltb.
  destruct (Z.ltb_spec 0 k).
  - rewrite sub64_small by exact Htok. reflexivity.
  - rewrite (sub64_small i (now - t))
      by (unfold in_int64, min_int64, max_int64 in *; lia).
    destruct (Z.ltb_spec 0 (i - (now - t))); [|lia].
    destruct wk as [e|now']; [reflexivity|].
    rewrite sub64_small by exact Hrate. reflexivity.
Qed.

Lemma Wait_all_app (rl : RateLimiter) (l1 l2 : list (Z * wake)) :
  Wait_all rl (l1 ++ l2)
  = match Wait_all rl l1 with
    | None => None
    | Some (outs1, rl1) =>
        match Wait_all rl1 l2 with
        | None => None
        | Some (outs2, rl2) => Some (outs1 ++ outs2, rl2)
        end
    end.
Proof.
  revert rl. induction l1 as [|[now wk] l1 IH]; intros rl; cbn [Wait_all app].
  - destruct (Wait_all rl l2) as [[outs2 rl2]|]; reflexivity.
  - destruct (Wait rl now wk) as [[out rl1]|]; [|reflexivity].
    rewrite IH.
    destruct (Wait_all rl1 l1) as [[outs1 rl1']|]; [|reflexivity].
    destruct (Wait_all rl1' l2) as [[outs2 rl2]|]; reflexivity.
Qed.

(** Calls within the window of the last refill each take one of the
    tokens that are left. *)
Lemma Wait_all_tokens (r i t : Z) (inputs : list (Z * wake)) :
  0 < i <= max_int64 ->
  in_int64 (r - 1) ->
  Forall (fun input => t <= fst input < t + i) inputs ->
  forall k,
  Z.of_nat (List.length inputs) <= k <= max_int64 ->
  Wait_all (mkRateLimiter r i k t) inputs
  = Some (map (fun _ => RetToken) inputs,
          mkRateLimiter r i (k - Z.of_nat (List.length inputs)) t).
Proof.
  intros Hi Hr Hall.
  induction Hall as [|[now wk] inputs Hnow Hall IH]; intros k Hk.
  - cbn. rewrite Z.sub_0_r. reflexivity.
  - cbn [List.length] in Hk. cbn [fst] in Hnow.
    cbn [Wait_all map List.length].
    rewrite Wait_in_window;
      cbn [rate interval tokens lastTime];
      try (unfold in_int64, min_int64, max_int64 in *; lia).
    destruct (Z.ltb_spec 0 k); [|lia].
    rewrite IH by lia.
    do 3 f_equal. lia.
Qed.

(** X5: a limiter built with [rate >= 0] lets exactly [rate] calls
    through during the interval that follows its construction: each of
    the first [rate] calls entered in that interval takes a token and
    returns at once, and the next one entered in it finds none: it waits
    for the rest of the interval (and then opens a window with
    [rate - 1] tokens), or returns the context's error if that is done
    first, leaving the bucket empty. *)
Theorem Wait_burst (rate0 interval0 t0 : Z) (inputs : list (Z * wake))
    (now : Z) (wk : wake) :
  0 < interval0 <= max_int64 ->
  0 <= rate0 <= max_int64 ->
  Z.of_nat (List.length inputs) = rate0 ->
  Forall (fun input => t0 <= fst input < t0 + interval0) inputs ->
  t0 <= now < t0 + interval0 ->
  Wait_all (NewRateLimiter rate0 interval0 t0) (inputs ++ [(now, wk)])
  = Some (map (fun _ => RetToken) inputs
          ++ [match wk with
              | CtxDone e => RetCancelled e
              | TimerFired _ => RetWaited (interval0 - (now - t0))
              end],
          match wk with
          | CtxDone _ => mkRateLimiter rate0 interval0 0 t0
          | TimerFired now' => mkRateLimiter rate0 interval0 (rate0 - 1) now'
          end).
Proof.
  intros Hi Hr Hlen Hall Hnow.
  rewrite Wait_all_app. unfold NewRateLimiter.
  rewrite (Wait_all_tokens rate0 interval0 t0 inputs Hi)
    by (try assumption; unfold in_int64, min_int64, max_int64 in *; lia).
  rewrite Hlen, Z.sub_diag.
  cbn [Wait_all].
  rewrite Wait_in_window;
    cbn [rate interval tokens lastTime];
    try (unfold in_int64, min_int64, max_int64 in *; lia).
  change (0 <? 0) with false. cbv iota.
  destruct wk; reflexivity.
Qed.

Lemma Wait_burst_witness :
  Wait_all (NewRateLimiter 2 second 0)
    ([(0, TimerFired 0); (500 * millisecond, CtxDone Canceled)]
     ++ [(600 * millisecond, TimerFired second)])
  = Some (map (fun _ => RetToken)
            [(0, TimerFired 0); (500 * millisecond, CtxDone Canceled)]
          ++ [RetWaited (second - (600 * millisecond - 0))],
          mkRateLimiter 2 second (2 - 1) second).
Proof.
  apply (Wait_burst 2 second 0
           [(0, TimerFired 0); (500 * millisecond, CtxDone Canceled)]
           (600 * millisecond) (TimerFired second)).
  - unfold second, max_int64. lia.
  - unfold max_int64. lia.
  - reflexivity.
  - repeat constructor; cbn; unfold second, millisecond; lia.
  - unfold second, millisecond. lia.
Defined.

End BurstFacts.

(** ** The record of a resolved candidate *)

Module RecordFacts.
Import GoInt GoIntFacts Finder.

Local Open Scope string_scope.
Local Open Scope Z_scope.

(** [%d] prints a decimal numeral that reads back as the number. *)
Lemma Sprintf_d_parse (n : Z) :
  NilZero.int_of_string (Sprintf_d n) = Some (Z.to_int n).
Proof.
  unfold Sprintf_d. apply NilZero.isi; destruct n as [|p|p]; cbn;
    try discriminate; intros H; injection H;
    apply DecimalPos.Unsigned.to_uint_nonnil.
Qed.

Lemma Sprintf_d_inj (n n' : Z) : Sprintf_d n = Sprintf_d n' -> n = n'.
Proof.
  intros H. apply DecimalZ.to_int_inj.
  pose proof (Sprintf_d_parse n) as Hn. rewrite H, Sprintf_d_parse in Hn.
  injection Hn. auto.
Qed.

Lemma Sprintf_d_not_placeholder (n : Z) :
  Sprintf_d n <> "" /\ Sprintf_d n <> "N/A".
Proof.
  pose proof (Sprintf_d_parse n) as Hn.
  split; intros H; rewrite H in Hn; discriminate.
Qed.

Lemma Check_status_nonempty (env : Probes) (domain : string) :
  fst (Check env domain) <> "".
Proof.
  unfold Check.
  destruct (makeRequest env ("http://" ++ domain)) as [r1|];
    [|destruct (makeRequest env ("https://" ++ domain)) as [r2|]];
    cbn [fst response_summary];
    try apply Sprintf_d_not_placeholder. discriminate.
Qed.

(** X6: [Check] never returns an empty status; it returns the
    placeholder "N/A" exactly when neither [http://domain] nor
    [https://domain] is answered; and the status is the decimal numeral of
    a code exactly when that is the status code of the first of the two
    that is answered: the answer to the plain-HTTP request wins even when
    HTTPS answers too, with its summary as response text. *)
Theorem Check_reports_first_answer (env : Probes) (domain : string) :
  let status := fst (Check env domain) in
  status <> ""
  /\ (status = "N/A"
      <-> makeRequest env ("http://" ++ domain) = None
          /\ makeRequest env ("https://" ++ domain) = None)
  /\ (forall code,
        status = Sprintf_d code
        <-> (exists response,
               makeRequest env ("http://" ++ domain) = Some response
               /\ StatusCode response = code)
            \/ (makeRequest env ("http://" ++ domain) = None
                /\ exists response,
                     makeRequest env ("https://" ++ domain) = Some response
                     /\ StatusCode response = code))
  /\ (forall response,
        makeRequest env ("http://" ++ domain) = Some response ->
        Check env domain = response_summary response).
Proof.
  cbv zeta. unfold Check.
  destruct (makeRequest env ("http://" ++ domain)) as [r1|] eqn:H1;
    [|destruct (makeRequest env ("https://" ++ domain)) as [r2|] eqn:H2];
    cbn [fst response_summary].
  - destruct (Sprintf_d_not_placeholder (StatusCode r1)) as [Hne Hna].
    split; [exact Hne|]. split; [|split].
    + split; [intros H; contradiction | intros [H _]; discriminate].
    + intros code. split.
      * intros H. left. exists r1. split; [reflexivity|].
        apply Sprintf_d_inj. exact H.
      * intros [(r & Hr & Hc) | (Hr & _)]; [|discriminate].
        injection Hr as <-. rewrite Hc. reflexivity.
    + intros r Hr. injection Hr as <-. reflexivity.
  - destruct (Sprintf_d_not_placeholder (StatusCode r2)) as [Hne Hna].
    split; [exact Hne|]. split; [|split].
    + split; [intros H; contradiction | intros [_ H]; discriminate].
    + intros code. split.
      * intros H. right. split; [reflexivity|]. exists r2.
        split; [reflexivity|]. apply Sprintf_d_inj. exact H.
      * intros [(r & Hr & _) | (_ & r & Hr & Hc)]; [discriminate|].
        injection Hr as <-. rewrite Hc. reflexivity.
    + intros r Hr. discriminate.
  - split; [discriminate|]. split; [|split].
    + split; [intros _; split; reflexivity | reflexivity].
    + intros code. split.
      * intros H. symmetry in H.
        destruct (Sprintf_d_not_placeholder code) as [_ Hna]. contradiction.
      * intros [(r & Hr & _) | (_ & r & Hr & _)]; discriminate.
    + intros r Hr. discriminate.
Qed.

(** The fields of the record of a candidate that resolves. *)
Lemma checkSubdomain_fields (env : Probes) (subdomain ip : string) :
  dns_Resolve env subdomain = inl ip ->
  let result := checkSubdomain env subdomain in
  RiskLevel result = assessRisk result
  /\ Confidence result = calculateConfidence result
  /\ Vulnerabilities result
     = match vuln_ScanURL env ("https://" ++ subdomain) with
       | inl vulns => Some (map to_Vulnerability (elems vulns))
       | inr _ => None
       end
  /\ Ports result
     = match QuickScan env ip with
       | Some portResult =>
           Some (map to_PortInfo
                     (filter (fun port => (pr_State port =? "open")%string)
                             (elems portResult)))
       | None => None
       end.
Proof.
  intros Hdns result. subst result. unfold checkSubdomain. rewrite Hdns.
  split; [reflexivity|]. split; [reflexivity|].
  cbn [Vulnerabilities Ports set_ResponseTime set_Confidence set_RiskLevel].
  unfold probe_stages.
  destruct (Check env subdomain),
    (tech_Detect env ("https://" ++ subdomain)); split; reflexivity.
Qed.

(** X7: the record [checkSubdomain] returns for a candidate that
    resolves carries the scores of its own fields: its [RiskLevel] is
    [assessRisk] of the record and its [Confidence] is
    [calculateConfidence] of it, so both can be recomputed from the
    record.  The level is one of high, medium, low and info; the status is
    never empty, so the confidence is at least 65, and at least 85 when
    the resolver returned a non-empty address. *)
Theorem checkSubdomain_scores_stored (env : Probes) (subdomain ip : string) :
  dns_Resolve env subdomain = inl ip ->
  let result := checkSubdomain env subdomain in
  RiskLevel result = assessRisk result
  /\ Confidence result = calculateConfidence result
  /\ In (RiskLevel result) ["high"; "medium"; "low"; "info"]
  /\ Status result <> ""
  /\ 65 <= Confidence result <= 100
  /\ (ip <> "" -> 85 <= Confidence result)
  /\ Timestamp result = clock_Now env subdomain
  /\ ResponseTime result = clock_Since env subdomain.
Proof.
  intros Hdns result.
  pose proof (FinderFacts.checkSubdomain_soft_failures env subdomain ip Hdns)
    as [Hcheck _].
  pose proof (FinderFacts.checkSubdomain_resolved env subdomain ip Hdns)
    as [_ Hip].
  fold result in Hcheck, Hip.
  assert (Hstatus : Status result <> "").
  { replace (Status result) with (fst (Check env subdomain))
      by (rewrite <- Hcheck; reflexivity).
    apply Check_status_nonempty. }
  destruct (checkSubdomain_fields env subdomain ip Hdns)
    as (Hrisk & Hconf & _).
  fold result in Hrisk, Hconf.
  split; [exact Hrisk|]. split; [exact Hconf|]. split; [|split].
  - rewrite Hrisk. unfold assessRisk. cbv zeta.
    destruct (riskScore result >=? 15); [cbn; auto|].
    destruct (riskScore result >=? 8); [cbn; auto|].
    destruct (riskScore result >=? 3); cbn; auto.
  - exact Hstatus.
  - rewrite Hconf.
    destruct (ScoringFacts.calculateConfidence_design result) as (Hd & _ & _).
    rewrite Hd. unfold confidence_design, status_obtained, ip_resolved.
    destruct (String.eqb_spec (Status result) "") as [He|_];
      [contradiction|].
    rewrite Hip.
    split; [|split; [|split]].
    + cbn [negb].
      destruct (negb (ip =? "")%string), (tech_fingerprinted result),
        (cert_obtained result); lia.
    + intros Hne. destruct (String.eqb_spec ip "") as [He|_];
        [contradiction|]. cbn [negb].
      destruct (tech_fingerprinted result), (cert_obtained result); lia.
    + subst result. unfold checkSubdomain. rewrite Hdns.
      cbn [Timestamp set_ResponseTime set_Confidence set_RiskLevel].
      unfold probe_stages.
      destruct (Check env subdomain),
        (tech_Detect env ("https://" ++ subdomain)); reflexivity.
    + subst result. unfold checkSubdomain. rewrite Hdns. reflexivity.
Qed.

Lemma checkSubdomain_scores_stored_witness :
  let result := checkSubdomain Examples.example_env "www.example.com" in
  RiskLevel result = assessRisk result
  /\ Confidence result = calculateConfidence result
  /\ In (RiskLevel result) ["high"; "medium"; "low"; "info"]
  /\ Status result <> ""
  /\ 65 <= Confidence result <= 100
  /\ ("93.184.216.34" <> "" -> 85 <= Confidence result)
  /\ Timestamp result = clock_Now Examples.example_env "www.example.com"
  /\ ResponseTime result = clock_Since Examples.example_env "www.example.com".
Proof.
  apply (checkSubdomain_scores_stored Examples.example_env "www.example.com"
           "93.184.216.34").
  reflexivity.
Defined.

End RecordFacts.

(** ** Executions of the scheduler *)

Module RunFacts.
Import GoInt Finder Runs.

Local Open Scope Z_scope.

Lemma length_append (s1 s2 : string) :
  String.length (s1 ++ s2) = (String.length s1 + String.length s2)%nat.
Proof. induction s1 as [|c s1 IH]; cbn; [reflexivity | rewrite IH; reflexivity]. Qed.

Lemma append_inj_l (s w1 w2 : string) :
  (w1 ++ s = w2 ++ s)%string -> w1 = w2.
Proof.
  revert w2. induction w1 as [|c1 w1 IH]; intros [|c2 w2] H; cbn in H.
  - reflexivity.
  - apply (f_equal String.length) in H. cbn in H.
    rewrite length_append in H. lia.
  - apply (f_equal String.length) in H. cbn in H.
    rewrite length_append in H. lia.
  - injection H as -> H. rewrite (IH w2 H). reflexivity.
Qed.

Lemma filter_length_perm {A : Type} (f : A -> bool) (l l' : list A) :
  Permutation l l' ->
  List.length (filter f l) = List.length (filter f l').
Proof.
  induction 1 as [|x l l' _ IH|x y l|l l' l'' _ IH1 _ IH2]; cbn [filter].
  - reflexivity.
  - destruct (f x); cbn [List.length]; rewrite IH; reflexivity.
  - destruct (f x), (f y); reflexivity.
  - rewrite IH1. exact IH2.
Qed.

Lemma same_position {A : Type} (pre pre' post post' : list A)
    (a a' b b' : A) :
  pre ++ a :: post = pre' ++ b :: post' ->
  pre ++ a' :: post = pre' ++ b' :: post' ->
  a <> a' ->
  pre = pre' /\ a = b /\ a' = b' /\ post = post'.
Proof.
  revert pre'. induction pre as [|x pre IH]; intros [|y pre'] H1 H2 Hne;
    cbn [app] in H1, H2.
  - injection H1 as -> ->. injection H2 as ->. repeat split.
  - injection H1 as -> _. injection H2 as -> _. contradiction.
  - injection H1 as _ H1. injection H2 as _ H2. rewrite <- H1 in H2.
    apply app_inv_head in H2. injection H2 as ->. contradiction.
  - injection H1 as -> H1. injection H2 as H2.
    destruct (IH pre' H1 H2 Hne) as (-> & -> & -> & ->). repeat split.
Qed.

Section Executions.

Variable cfg : Config.
Variable env : Probes.
Variable hz : Hazards.
Variable words : list string.

Local Abbreviation step := (step cfg env words).
Local Abbreviation reachable := (reachable cfg env words).
Local Abbreviation steps_n := (steps_n cfg env words).
Local Abbreviation emitted := (emitted cfg env).
Local Abbreviation word_fate := (word_fate cfg env hz).
Local Abbreviation call_returns := (call_returns cfg env).
Local Abbreviation run_step := (run_step cfg env hz words).
Local Abbreviation run_n := (run_n cfg env hz words).
Local Abbreviation run_reachable := (run_reachable cfg env hz words).

Lemma steps_n_steps (n : nat) (s s' : state) :
  steps_n n s s' -> steps cfg env words s s'.
Proof.
  induction 1 as [s|n s1 s2 s3 _ IH Hstep].
  - apply steps_refl.
  - eapply steps_step; eassumption.
Qed.

Lemma steps_n_budget (n : nat) (s s' : state) :
  steps_n n s s' -> (n + steps_left s' <= steps_left s)%nat.
Proof.
  induction 1 as [s|n s1 s2 s3 _ IH Hstep].
  - lia.
  - pose proof (FinderFacts.step_decreases cfg env words s2 s3 Hstep). lia.
Qed.

(** *** Runs in which a call may block or panic *)

(** A process that is alive has only taken steps of [Finder.step]: what
    holds of every state reachable by these holds of it. *)
Lemma running_steps (n : nat) (s0 s : state) :
  run_n n (Running s0) (Running s) -> steps_n n s0 s.
Proof.
  intros H.
  assert (Hgen : forall p0 p, run_n n p0 p ->
            forall s0 s, p0 = Running s0 -> p = Running s -> steps_n n s0 s).
  { clear. induction 1 as [p|n p1 p2 p3 _ IH Hstep]; intros s0 s E0 E.
    - subst p. injection E as ->. apply steps_n_O.
    - subst p1 p3. inversion Hstep as [s2 s3 Hs _ E2 E3|]; subst.
      eapply steps_n_S; [apply IH; reflexivity | exact Hs]. }
  eapply Hgen; [exact H | reflexivity | reflexivity].
Qed.

Lemma running_reachable (s : state) :
  run_reachable (Running s) -> reachable s.
Proof.
  intros (s0 & n & Hinit & Hrun). exists s0. split; [exact Hinit|].
  eapply steps_n_steps, running_steps, Hrun.
Qed.

(** What such a process returns is an output of [Find_returns]: the
    properties of every returned output hold of it, whatever blocks or
    panics elsewhere. *)
Lemma run_output (s : state) :
  run_reachable (Running s) -> main s = Returned ->
  Find_returns cfg env words (results s).
Proof.
  intros Hreach Hmain. exists s.
  split; [apply running_reachable; exact Hreach|].
  split; [exact Hmain | reflexivity].
Qed.

(** A crash is the panic of a call under way, and the last step. *)
Lemma crashed_by_panic (n : nat) (s0 : state) :
  run_n n (Running s0) Crashed ->
  exists k s pre post w,
    n = S k /\ run_n k (Running s0) (Running s)
    /\ workers s = pre ++ mkGoroutine w InPipeline :: post
    /\ word_fate w = Panics.
Proof.
  intros H. inversion H as [p E1 E2|k p1 p2 p3 Hrun Hstep]; subst.
  inversion Hstep as [|pre post w s Hws Hfate]; subst.
  exists k, s, pre, post, w. repeat split; assumption.
Qed.

(** The goroutines work on words of the wordlist. *)
Lemma workers_of_words (s : state) :
  reachable s ->
  Forall (fun g => In (g_word g) words) (workers s)
  /\ Forall (fun w => In w words) (undispatched (main s)).
Proof.
  intros (s0 & Hinit & Hsteps).
  induction Hsteps as [s0|s0 s1 s2 _ IH Hstep].
  - unfold Find_init in Hinit. destruct (Threads cfg <? 0); [discriminate|].
    injection Hinit as <-. cbn [workers main undispatched].
    split; [constructor|]. apply Forall_forall. auto.
  - destruct (IH Hinit) as [Hws Hun]. clear IH.
    destruct Hstep;
      cbn [main workers closer semaphore wg resultsChan results undispatched];
      repeat match goal with
             | H : main _ = _ |- _ => rewrite H in *
             | H : workers _ = _ |- _ => rewrite H in *
             end;
      cbn [undispatched] in *;
      repeat match goal with
             | H : Forall _ (_ ++ _) |- _ =>
                 apply Forall_app in H; destruct H
             | H : Forall _ (_ :: _) |- _ =>
                 apply Forall_cons_iff in H; destruct H
             end;
      split; repeat (apply Forall_app; split);
      repeat (apply Forall_cons); try apply Forall_nil; assumption.
Qed.

(** Which steps are the return of a call. *)
Lemma call_returns_cases (s s' : state) :
  step s s' ->
  (forall w, ~ call_returns s s' w)
  \/ exists pre post w,
       workers s = pre ++ mkGoroutine w InPipeline :: post
       /\ forall w0, call_returns s s' w0 -> w0 = w.
Proof.
  intros Hstep.
  destruct Hstep as
    [w rest s Hmain
    |s Hmain
    |pre post w s Hws Hroom
    |pre post w s Hws
    |pre post w r s Hws Hsub Hbuf Hopen
    |pre post w r s Hws Hsub
    |pre post w s Hws Hpos
    |pre post w s Hws
    |s Hcloser Hzero
    |r rest s Hmain Hchan
    |s Hmain Hchan Hcloser].
  4:{ right. exists pre, post, w. split; [exact Hws|].
      intros w0 (pre0 & post0 & H1 & H2). cbn [workers] in H2.
      rewrite Hws in H1.
      destruct (same_position _ _ _ _ _ _ _ _ H1 H2) as (_ & E & _);
        [discriminate|].
      injection E as ->. reflexivity. }
  all: left; intros w0 (pre0 & post0 & H1 & H2); cbn [workers] in H2.
  (* the list of goroutines has another length *)
  1, 7: apply (f_equal (@List.length _)) in H1, H2;
    try rewrite Hws in H1; rewrite ?length_app in *;
    cbn [List.length] in *; lia.
  (* the list of goroutines is the same *)
  1, 6, 7, 8: rewrite H1 in H2; apply app_inv_head in H2; discriminate.
  (* another goroutine moves *)
  all: rewrite Hws in H1;
    destruct (same_position _ _ _ _ _ _ _ _ H1 H2) as (_ & E & _);
    discriminate.
Qed.

Lemma steps_counted (s s' : state) :
  steps cfg env words s s' -> exists n, steps_n n s s'.
Proof.
  induction 1 as [s|s1 s2 s3 _ [n IH] Hstep].
  - exists 0%nat. apply steps_n_O.
  - exists (S n). eapply steps_n_S; eassumption.
Qed.

(** The goroutine that comes back from a call works on a word of the
    wordlist. *)
Lemma caller_of_words (s s' : state) (w : string) :
  reachable s -> call_returns s s' w -> In w words.
Proof.
  intros Hreach (pre & post & Hws & _).
  destruct (workers_of_words s Hreach) as [Hwords _].
  rewrite Hws in Hwords. apply Forall_app in Hwords.
  destruct Hwords as [_ Hwords]. inversion Hwords as [|? ? Hw _].
  exact Hw.
Qed.

(** When the calls of the words all return, every execution of
    [Finder.step] is one of the process. *)
Lemma returning_run (n : nat) (s0 s : state) :
  (forall w, In w words -> word_fate w = Returns) ->
  Find_init cfg words = Some s0 ->
  steps_n n s0 s -> run_n n (Running s0) (Running s).
Proof.
  intros Hall Hinit H.
  induction H as [s0|n s0 s1 s2 Hrun IH Hstep].
  - apply run_n_O.
  - eapply run_n_S; [apply IH; exact Hinit|].
    apply run_statement; [exact Hstep|].
    intros w Hw. apply Hall.
    assert (Hreach : reachable s1)
      by (exists s0; split; [exact Hinit | eapply steps_n_steps; exact Hrun]).
    eapply caller_of_words; eassumption.
Qed.

(** The goroutines of a word whose call does not return stay before the
    return of the call, and there is one as soon as the word is
    dispatched. *)
Lemma held_back (w : string) (s s' : state) :
  word_fate w <> Returns ->
  run_step (Running s) (Running s') ->
  Forall (fun g => g_word g = w ->
                   g_phase g = AtGate \/ g_phase g = InPipeline) (workers s)
  /\ (In w (undispatched (main s))
      \/ exists g, In g (workers s) /\ g_word g = w) ->
  Forall (fun g => g_word g = w ->
                   g_phase g = AtGate \/ g_phase g = InPipeline) (workers s')
  /\ (In w (undispatched (main s'))
      \/ exists g, In g (workers s') /\ g_word g = w).
Proof.
  intros Hfate Hstep [Hphases Hthere].
  inversion Hstep as [s1 s2 Hs Hcall E1 E2|]; subst. clear Hstep.
  assert (Hmid : forall pre post w1 ph,
            workers s = pre ++ mkGoroutine w1 ph :: post ->
            ph <> AtGate -> ph <> InPipeline -> w1 <> w).
  { intros pre post w1 ph Hws H1 H2 ->. rewrite Hws in Hphases.
    apply Forall_app in Hphases. destruct Hphases as [_ Hphases].
    inversion Hphases as [|? ? Hg _]. cbn in Hg.
    destruct (Hg eq_refl); contradiction. }
  assert (Hreplace : forall pre post w1 ph ph',
            workers s = pre ++ mkGoroutine w1 ph :: post ->
            (w1 = w -> ph' = AtGate \/ ph' = InPipeline) ->
            Forall (fun g => g_word g = w ->
                             g_phase g = AtGate \/ g_phase g = InPipeline)
                   (pre ++ mkGoroutine w1 ph' :: post)
            /\ (In w (undispatched (main s))
                \/ exists g, In g (pre ++ mkGoroutine w1 ph' :: post)
                             /\ g_word g = w)).
  { intros pre post w1 ph ph' Hws Hph. rewrite Hws in Hphases, Hthere.
    apply Forall_app in Hphases. destruct Hphases as [Hpre Hpost].
    apply Forall_cons_iff in Hpost. destruct Hpost as [_ Hpost].
    split.
    - apply Forall_app. split; [exact Hpre|].
      apply Forall_cons; [exact Hph | exact Hpost].
    - destruct Hthere as [Hun|(g & Hin & Hg)]; [left; exact Hun|].
      right. apply in_app_iff in Hin. destruct Hin as [Hin|[<-|Hin]].
      + exists g. split; [apply in_app_iff; left; exact Hin | exact Hg].
      + eexists. split; [apply in_app_iff; right; left; reflexivity|].
        exact Hg.
      + exists g. split; [apply in_app_iff; right; right; exact Hin|].
        exact Hg. }
  destruct Hs as
    [w1 rest s Hmain
    |s Hmain
    |pre post w1 s Hws Hroom
    |pre post w1 s Hws
    |pre post w1 r s Hws Hsub Hbuf Hopen
    |pre post w1 r s Hws Hsub
    |pre post w1 s Hws Hpos
    |pre post w1 s Hws
    |s Hcloser Hzero
    |r rest s Hmain Hchan
    |s Hmain Hchan Hcloser];
    cbn [main workers closer semaphore wg resultsChan results].
  - (* spawn *)
    rewrite Hmain in Hthere. cbn [undispatched] in *. split.
    + apply Forall_app. split; [exact Hphases|].
      apply Forall_cons; [|apply Forall_nil]. intros _. left. reflexivity.
    + destruct Hthere as [[->|Hin]|(g & Hin & Hg)].
      * right. eexists. split; [apply in_app_iff; right; left; reflexivity|].
        reflexivity.
      * left. exact Hin.
      * right. exists g. split; [apply in_app_iff; left; exact Hin | exact Hg].
  - (* loop exit *)
    rewrite Hmain in Hthere. cbn [undispatched] in *.
    split; [exact Hphases | exact Hthere].
  - (* acquire *)
    apply (Hreplace pre post w1 AtGate InPipeline Hws). auto.
  - (* the call returns *)
    assert (Hw1 : w1 <> w).
    { intros ->. apply Hfate, Hcall. exists pre, post.
      split; [exact Hws | reflexivity]. }
    apply (Hreplace pre post w1 InPipeline _ Hws). intros E. contradiction.
  - (* send *)
    pose proof (Hmid pre post w1 _ Hws ltac:(discriminate) ltac:(discriminate)).
    apply (Hreplace pre post w1 _ AtRelease Hws). intros E. contradiction.
  - (* skip *)
    pose proof (Hmid pre post w1 _ Hws ltac:(discriminate) ltac:(discriminate)).
    apply (Hreplace pre post w1 _ AtRelease Hws). intros E. contradiction.
  - (* release *)
    pose proof (Hmid pre post w1 _ Hws ltac:(discriminate) ltac:(discriminate)).
    apply (Hreplace pre post w1 _ AtDone Hws). intros E. contradiction.
  - (* done *)
    pose proof (Hmid pre post w1 _ Hws ltac:(discriminate) ltac:(discriminate))
      as Hw1.
    rewrite Hws in Hphases, Hthere.
    apply Forall_app in Hphases. destruct Hphases as [Hpre Hpost].
    apply Forall_cons_iff in Hpost. destruct Hpost as [_ Hpost].
    split; [apply Forall_app; split; assumption|].
    destruct Hthere as [Hun|(g & Hin & Hg)]; [left; exact Hun|].
    right. exists g. split; [|exact Hg].
    apply in_app_iff in Hin. apply in_app_iff.
    destruct Hin as [Hin|[<-|Hin]]; [left; exact Hin | | right; exact Hin].
    cbn in Hg. contradiction.
  - (* close *)
    split; [exact Hphases | exact Hthere].
  - (* collect *)
    split; [exact Hphases | exact Hthere].
  - (* return *)
    rewrite Hmain in Hthere. cbn [undispatched] in *.
    split; [exact Hphases | exact Hthere].
Qed.

(** [Find] does not return when the call of one of its words does not. *)
Lemma never_returns (w : string) (n : nat) (s0 s : state) :
  In w words ->
  word_fate w <> Returns ->
  Find_init cfg words = Some s0 ->
  run_n n (Running s0) (Running s) ->
  main s <> Returned.
Proof.
  intros Hw Hfate Hinit Hrun.
  assert (Hheld :
            Forall (fun g => g_word g = w ->
                             g_phase g = AtGate \/ g_phase g = InPipeline)
                   (workers s)
            /\ (In w (undispatched (main s))
                \/ exists g, In g (workers s) /\ g_word g = w)).
  { assert (Hgen : forall p0 p, run_n n p0 p ->
              forall s, p0 = Running s0 -> p = Running s ->
              Forall (fun g => g_word g = w ->
                               g_phase g = AtGate \/ g_phase g = InPipeline)
                     (workers s)
              /\ (In w (undispatched (main s))
                  \/ exists g, In g (workers s) /\ g_word g = w)).
    { clear Hrun s. induction 1 as [p|n p1 p2 p3 _ IH Hstep]; intros s E0 E.
      - subst p. injection E as <-.
        unfold Find_init in Hinit.
        destruct (Threads cfg <? 0); [discriminate|].
        injection Hinit as <-. cbn [workers main undispatched].
        split; [constructor | left; exact Hw].
      - subst p1 p3. inversion Hstep as [s2 s3 Hs Hcall E2 E3|]; subst.
        eapply held_back; [exact Hfate | exact Hstep|].
        apply IH; reflexivity. }
    eapply Hgen; [exact Hrun | reflexivity | reflexivity]. }
  assert (Hreach : reachable s).
  { exists s0. split; [exact Hinit|].
    eapply steps_n_steps, running_steps, Hrun. }
  destruct (FinderFacts.inv_reachable cfg env words s Hreach)
    as [_ _ _ _ Hclosed Hreturned _].
  intros Hmain. destruct (Hreturned Hmain) as [_ Hcloser].
  destruct Hheld as [_ [Hun|(g & Hin & _)]].
  - rewrite Hmain in Hun. destruct Hun.
  - rewrite (Hclosed Hcloser) in Hin. destruct Hin.
Qed.

(** X8: with at least one slot every execution of [Find] is finite:
    after [n] steps at most [7 * len(words) + 4 - n] steps are left.  How
    it ends depends on the calls of [checkSubdomain].  While no call
    blocks for ever, a process in which [Find] has not returned always has
    a next step (no deadlock); the process ends crashed only by the panic
    of one of the calls; and when the call of some word blocks or panics,
    [Find] never returns.  So when every call returns, every execution
    ends with [Find] returned; then no goroutine is left and nothing can
    step. *)
Theorem Find_terminates (s0 : state) (p : process) (n : nat) :
  1 <= Threads cfg ->
  Find_init cfg words = Some s0 ->
  run_n n (Running s0) p ->
  (n + steps_left_of p <= 7 * List.length words + 4)%nat
  /\ (p = Crashed -> exists w, In w words /\ word_fate w = Panics)
  /\ forall s, p = Running s ->
       ((exists w, In w words /\ word_fate w <> Returns) ->
        main s <> Returned)
       /\ ((forall w, In w words -> word_fate w <> Blocks) ->
           main s = Returned \/ exists p', run_step p p')
       /\ ((forall w, In w words -> word_fate w = Returns) ->
           main s = Returned \/ exists s', run_step p (Running s'))
       /\ (main s = Returned ->
           workers s = [] /\ forall p', ~ run_step p p').
Proof.
  intros Hthreads Hinit Hrun.
  assert (Hbudget : forall k s, run_n k (Running s0) (Running s) ->
            (k + steps_left s <= 7 * List.length words + 4)%nat).
  { intros k s Hk.
    pose proof (steps_n_budget k s0 s (running_steps k s0 s Hk)) as Hb.
    unfold Find_init in Hinit.
    destruct (Threads cfg <? 0); [discriminate|].
    injection Hinit as <-. unfold steps_left in Hb at 2.
    cbn [main closer workers resultsChan map list_sum fold_right List.length]
      in Hb.
    lia. }
  assert (Hin : forall k s pre post w,
            run_n k (Running s0) (Running s) ->
            workers s = pre ++ mkGoroutine w InPipeline :: post ->
            In w words).
  { intros k s pre post w Hk Hws.
    assert (Hreach : reachable s)
      by (exists s0; split;
          [exact Hinit | eapply steps_n_steps, running_steps, Hk]).
    destruct (workers_of_words s Hreach) as [Hwords _].
    rewrite Hws in Hwords. apply Forall_app in Hwords.
    destruct Hwords as [_ Hwords]. inversion Hwords as [|? ? Hw _].
    exact Hw. }
  split; [|split].
  - destruct p as [s|]; cbn [steps_left_of].
    + apply Hbudget. exact Hrun.
    + destruct (crashed_by_panic n s0 Hrun)
        as (k & s & pre & post & w & -> & Hk & Hws & _).
      pose proof (Hbudget k s Hk) as Hb.
      unfold steps_left in Hb. rewrite Hws, FinderFacts.weight_split in Hb.
      cbn [phase_weight g_phase] in Hb. lia.
  - intros ->.
    destruct (crashed_by_panic n s0 Hrun)
      as (k & s & pre & post & w & -> & Hk & Hws & Hfate).
    exists w. split; [eapply Hin; eassumption | exact Hfate].
  - intros s ->.
    assert (Hreach : reachable s)
      by (exists s0; split;
          [exact Hinit | eapply steps_n_steps, running_steps, Hrun]).
    pose proof (FinderFacts.inv_reachable cfg env words s Hreach) as Hinv.
    assert (Hnext : (forall w, In w words -> word_fate w <> Blocks) ->
              main s = Returned
              \/ exists p', run_step (Running s) p'
                   /\ ((forall w, In w words -> word_fate w = Returns) ->
                       exists s', p' = Running s')).
    { intros Hlive.
      destruct (main s) eqn:Hmain; [right|right|left; reflexivity].
      all: destruct (FinderFacts.progress cfg env words s Hthreads Hinv)
          as [s' Hstep]; [rewrite Hmain; discriminate|].
      all: destruct (call_returns_cases s s' Hstep)
          as [Hnone|(pre & post & w & Hws & Honly)].
      1, 3: exists (Running s'); split;
        [apply run_statement;
         [exact Hstep | intros w Hw; destruct (Hnone w Hw)]
        | intros _; exists s'; reflexivity].
      all: pose proof (Hin n s pre post w Hrun Hws) as Hw;
        destruct (word_fate w) eqn:Hfate.
      1, 4: exists (Running s'); split;
        [apply run_statement;
         [exact Hstep | intros w0 Hw0; rewrite (Honly w0 Hw0); exact Hfate]
        | intros _; exists s'; reflexivity].
      1, 3: destruct (Hlive w Hw Hfate).
      all: exists Crashed; split;
        [eapply run_panic; eassumption
        | intros Hall; rewrite (Hall w Hw) in Hfate; discriminate]. }
    split; [|split; [|split]].
    + intros (w & Hw & Hfate).
      eapply never_returns; eassumption.
    + intros Hlive. destruct (Hnext Hlive) as [Hret|(p' & Hstep & _)];
        [left; exact Hret | right; exists p'; exact Hstep].
    + intros Hall.
      destruct Hnext as [Hret|(p' & Hstep & Hp')].
      * intros w Hw. rewrite (Hall w Hw). discriminate.
      * left. exact Hret.
      * right. destruct (Hp' Hall) as [s' ->]. exists s'. exact Hstep.
    + intros Hret. destruct Hinv as [_ _ _ _ Hclosed Hreturned _].
      destruct (Hreturned Hret) as [Hchan Hcloser].
      pose proof (Hclosed Hcloser) as Hws.
      split; [exact Hws|].
      intros p' Hstep.
      inversion Hstep as [s1 s2 Hs _ E1 E2|pre post w s1 Hws1 _ E1 E2];
        subst.
      * destruct Hs;
          repeat match goal with
                 | H : workers _ = _ ++ _ :: _ |- _ =>
                     rewrite Hws in H; symmetry in H;
                     destruct (FinderFacts.nonempty_middle _ _ _ H)
                 end;
          congruence.
      * rewrite Hws in Hws1. symmetry in Hws1.
        destruct (FinderFacts.nonempty_middle _ _ _ Hws1).
Qed.

(** X9: a goroutine that is past the gate never blocks, whatever the
    number of slots: in every reachable state it can take its next step
    ([checkSubdomain], the send on [resultsChan] or its omission, the
    receive from [semaphore], [wg.Done]).  In particular the buffer of
    [resultsChan] has room for its record, the channel is not closed
    while it is alive (no send on a closed channel), and the semaphore
    holds an element for it to take back. *)
Theorem admitted_goroutine_advances (s : state) (pre post : list goroutine)
    (g : goroutine) :
  reachable s ->
  workers s = pre ++ g :: post ->
  g_phase g <> AtGate ->
  closer s <> Closed
  /\ 0 < wg s
  /\ (holds_slot g = true -> 0 < semaphore s)
  /\ (List.length (resultsChan s) + List.length (pending_of cfg env g)
      <= List.length words)%nat
  /\ exists s',
       step s s'
       /\ (workers s' = pre ++ post
           \/ exists ph,
                workers s' = pre ++ mkGoroutine (g_word g) ph :: post
                /\ (phase_weight (mkGoroutine (g_word g) ph)
                    < phase_weight g)%nat).
Proof.
  intros Hreach Hws Hph.
  pose proof (FinderFacts.inv_reachable cfg env words s Hreach) as Hinv.
  pose proof Hinv as [Hwg Hsem Hcap Hcl Hclosed Hret Hacc].
  assert (Hopen : closer s <> Closed).
  { intros E. rewrite (Hclosed E) in Hws. symmetry in Hws.
    destruct (FinderFacts.nonempty_middle _ _ _ Hws). }
  assert (Hholds : holds_slot g = true -> 0 < semaphore s).
  { intros Hg. rewrite Hsem, Hws, FinderFacts.holders_split, Hg. lia. }
  assert (Hroom : (List.length (resultsChan s)
                   + List.length (pending_of cfg env g)
                   <= List.length words)%nat).
  { apply Permutation_length in Hacc.
    rewrite Hws, FinderFacts.pending_split in Hacc.
    rewrite !length_app in Hacc.
    pose proof (FinderFacts.emitted_length cfg env words). lia. }
  split; [exact Hopen|]. split; [|split; [exact Hholds|split; [exact Hroom|]]].
  { rewrite Hwg, Hws, length_app. cbn [List.length]. lia. }
  destruct g as [w ph]. cbn [g_phase g_word] in *.
  destruct ph as [| |r| |].
  - contradiction.
  - eexists. split; [eapply step_check; exact Hws|].
    right. eexists. split; [reflexivity|]. cbn. lia.
  - destruct (String.eqb_spec (Subdomain r) "") as [E|NE].
    + eexists. split; [eapply step_skip; eassumption|].
      right. eexists. split; [reflexivity|]. cbn. lia.
    + eexists. split.
      * eapply step_send; [exact Hws | exact NE | | exact Hopen].
        eapply FinderFacts.send_has_room; eassumption.
      * right. eexists. split; [reflexivity|]. cbn. lia.
  - eexists. split.
    + eapply step_release; [exact Hws|]. apply Hholds. reflexivity.
    + right. eexists. split; [reflexivity|]. cbn. lia.
  - eexists. split; [eapply step_done; exact Hws|].
    left. reflexivity.
Qed.

(** X10: without a slot [Find] never returns on a non-empty wordlist:
    with [Threads = 0] every goroutine blocks on the unbuffered
    semaphore, and with a negative [Threads] the [make] of the semaphore
    panics. *)
Theorem Find_needs_a_slot :
  Threads cfg <= 0 ->
  words <> [] ->
  (forall s, reachable s -> main s <> Returned)
  /\ (forall out, ~ Find_returns cfg env words out).
Proof.
  intros Hthreads Hwords.
  assert (Hall : forall s, reachable s -> main s <> Returned).
  { intros s Hreach.
    destruct (Z.eq_dec (Threads cfg) 0) as [Hzero|Hneg].
    - apply (FinderFacts.Find_hangs_without_slots cfg env words s Hzero
               Hwords Hreach).
    - destruct Hreach as (s0 & Hinit & _). unfold Find_init in Hinit.
      destruct (Z.ltb_spec (Threads cfg) 0); [discriminate | lia]. }
  split; [exact Hall|].
  intros out (s & Hreach & Hmain & _). exact (Hall s Hreach Hmain).
Qed.

(** *** Multiplicities in the output *)

Lemma candidate_inj (w1 w2 : string) :
  candidate cfg w1 = candidate cfg w2 -> w1 = w2.
Proof. unfold candidate. apply append_inj_l. Qed.

Lemma emitted_resolves (w : string) :
  if resolves cfg env w then
    exists r, emitted w = [r] /\ Subdomain r = candidate cfg w
  else emitted w = [].
Proof.
  pose proof (FinderFacts.emitted_cases cfg env w) as H. unfold resolves.
  destruct (dns_Resolve env (candidate cfg w)) as [ip|err].
  - destruct H as (He & Hs & _). eexists. split; [exact He | exact Hs].
  - exact H.
Qed.

Lemma emitted_matching (w0 : string) (ws : list string) :
  List.length
    (filter (fun r => (Subdomain r =? candidate cfg w0)%string)
            (flat_map emitted ws))
  = if resolves cfg env w0 then count_occ string_dec ws w0 else 0%nat.
Proof.
  induction ws as [|w ws IH]; cbn [flat_map count_occ].
  - destruct (resolves cfg env w0); reflexivity.
  - rewrite filter_app, length_app, IH.
    pose proof (emitted_resolves w) as Hw.
    destruct (string_dec w w0) as [->|Hne].
    + destruct (resolves cfg env w0).
      * destruct Hw as (r & -> & Hr). cbn [filter]. rewrite Hr, String.eqb_refl.
        reflexivity.
      * rewrite Hw. reflexivity.
    + destruct (resolves cfg env w).
      * destruct Hw as (r & -> & Hr). cbn [filter]. rewrite Hr.
        destruct (String.eqb_spec (candidate cfg w) (candidate cfg w0))
          as [E|_]; [destruct (Hne (candidate_inj _ _ E))|].
        reflexivity.
      * rewrite Hw. reflexivity.
Qed.

Lemma emitted_names (x : string) (ws : list string) :
  In x (map Subdomain (flat_map emitted ws)) ->
  exists w, In w ws /\ x = candidate cfg w.
Proof.
  induction ws as [|w ws IH]; cbn [flat_map map]; [contradiction|].
  rewrite map_app, in_app_iff. intros [Hin|Hin].
  - exists w. split; [left; reflexivity|].
    pose proof (emitted_resolves w) as Hw.
    destruct (resolves cfg env w).
    + destruct Hw as (r & Hr & Hs). rewrite Hr in Hin. cbn in Hin.
      destruct Hin as [<-|[]]. exact Hs.
    + rewrite Hw in Hin. contradiction.
  - destruct (IH Hin) as (w' & Hw' & Hx). exists w'. split; [right|]; assumption.
Qed.

Lemma emitted_distinct (ws : list string) :
  NoDup ws -> NoDup (map Subdomain (flat_map emitted ws)).
Proof.
  induction 1 as [|w ws Hnotin Hnodup IH]; cbn [flat_map map]; [constructor|].
  pose proof (emitted_resolves w) as Hw.
  destruct (resolves cfg env w).
  - destruct Hw as (r & -> & Hr). cbn [app map]. constructor; [|exact IH].
    intros Hin. destruct (emitted_names _ _ Hin) as (w' & Hw' & Hx).
    rewrite Hr in Hx. apply candidate_inj in Hx. subst w'. contradiction.
  - rewrite Hw. exact IH.
Qed.

(** X11: [Find] neither merges nor repeats work: in every output, the
    number of records that bear the candidate name of a word is the
    number of times the word occurs in the wordlist when its candidate
    resolves, and zero otherwise.  So the output is no longer than the
    wordlist, and a wordlist without repetition gives an output without
    two records of the same subdomain. *)
Theorem Find_output_multiplicity (out : list Result) :
  Find_returns cfg env words out ->
  (forall w,
     List.length
       (filter (fun r => (Subdomain r =? candidate cfg w)%string) out)
     = if resolves cfg env w then count_occ string_dec words w else 0%nat)
  /\ (List.length out <= List.length words)%nat
  /\ (NoDup words -> NoDup (map Subdomain out)).
Proof.
  intros Hout.
  pose proof (FinderFacts.returned_output cfg env words out Hout) as Hperm.
  split; [|split].
  - intros w. rewrite (filter_length_perm _ _ _ Hperm).
    apply emitted_matching.
  - rewrite (Permutation_length Hperm).
    apply FinderFacts.emitted_length.
  - intros Hnodup.
    eapply Permutation_NoDup;
      [apply Permutation_sym, Permutation_map; exact Hperm|].
    apply emitted_distinct. exact Hnodup.
Qed.

End Executions.

(** The witness: the scan of example.com when www.example.com never
    answers the TLS handshake, at the entry of [Find]. *)
Lemma Find_terminates_witness :
  let p := Running (entry Examples.example_words) in
  (0 + steps_left_of p <= 7 * List.length Examples.example_words + 4)%nat
  /\ (p = Crashed ->
      exists w,
        In w Examples.example_words
        /\ word_fate Examples.example_cfg Examples.example_env silent_tls w
           = Panics)
  /\ forall s, p = Running s ->
       main s <> Returned
       /\ ((forall w, In w Examples.example_words ->
              word_fate Examples.example_cfg Examples.example_env silent_tls w
              <> Blocks) ->
           main s = Returned
           \/ exists p',
                run_step Examples.example_cfg Examples.example_env silent_tls
                  Examples.example_words p p').
Proof.
  destruct (Find_terminates Examples.example_cfg Examples.example_env
              silent_tls Examples.example_words
              (entry Examples.example_words)
              (Running (entry Examples.example_words)) 0)
    as (Hbound & Hcrash & Hrunning).
  - cbn. lia.
  - reflexivity.
  - apply run_n_O.
  - split; [exact Hbound|]. split; [exact Hcrash|].
    intros s Hs. destruct (Hrunning s Hs) as (Hnever & Hlive & _).
    split; [|exact Hlive].
    apply Hnever. exists "www"%string. split; [left; reflexivity|].
    vm_compute. discriminate.
Defined.

(** A handshake that never completes deadlocks the scan: with the one
    word "www", [Find] reaches its [range] loop and waits there for ever
    for the goroutine that is blocked in [Analyze]. *)
Example blocked_handshake_deadlocks :
  run_reachable Examples.example_cfg Examples.example_env silent_tls
    ["www"%string] (Running (waiting_on "www"))
  /\ main (waiting_on "www") <> Returned
  /\ forall p',
       ~ run_step Examples.example_cfg Examples.example_env silent_tls
           ["www"%string] (Running (waiting_on "www")) p'.
Proof.
  assert (Hfate : word_fate Examples.example_cfg Examples.example_env
                    silent_tls "www" = Blocks)
    by (vm_compute; reflexivity).
  split; [|split].
  - exists (entry ["www"%string]), 3%nat. split; [reflexivity|].
    eapply run_n_S; [eapply run_n_S; [eapply run_n_S; [apply run_n_O|]|]|].
    + apply run_statement.
      * eapply step_spawn. reflexivity.
      * intros w (pre & post & H1 & _). destruct pre; discriminate.
    + apply run_statement.
      * cbn [main workers closer semaphore wg resultsChan results].
        eapply step_loop_exit. reflexivity.
      * intros w (pre & post & H1 & _). cbn [workers app] in H1.
        destruct pre as [|g [|g' pre]]; discriminate.
    + apply run_statement.
      * cbn [main workers closer semaphore wg resultsChan results].
        apply (step_acquire Examples.example_cfg Examples.example_env
                 ["www"%string] [] [] "www"); [reflexivity | cbn; lia].
      * intros w (pre & post & H1 & _). cbn [workers app] in H1.
        destruct pre as [|g [|g' pre]]; discriminate.
  - discriminate.
  - intros p' Hstep.
    inversion Hstep as [s1 s2 Hs Hcall E1 E2|pre post w s1 Hws Hpanic E1 E2];
      subst.
    + inversion Hs; subst;
        cbn [main workers closer semaphore wg resultsChan results waiting_on]
          in *;
        try discriminate;
        try match goal with
            | H : [_] = ?pre ++ _ :: _ |- _ =>
                destruct pre as [|? [|? ?]]; try discriminate H;
                injection H as H ?; try discriminate H
            end.
      subst.
      assert (Hret : word_fate Examples.example_cfg Examples.example_env
                       silent_tls "www" = Returns).
      { apply Hcall. exists [], []. split; reflexivity. }
      rewrite Hfate in Hret. discriminate.
    + cbn [workers waiting_on] in Hws.
      destruct pre as [|? [|? ?]]; try discriminate Hws.
      injection Hws as <- _. rewrite Hfate in Hpanic. discriminate.
Qed.

Lemma admitted_goroutine_advances_witness :
  let s := first_admitted Examples.example_words in
  closer s <> Closed
  /\ 0 < wg s
  /\ (holds_slot (mkGoroutine "www" InPipeline) = true -> 0 < semaphore s)
  /\ (List.length (resultsChan s)
      + List.length
          (pending_of Examples.example_cfg Examples.example_env
             (mkGoroutine "www" InPipeline))
      <= List.length Examples.example_words)%nat
  /\ exists s',
       step Examples.example_cfg Examples.example_env Examples.example_words
         s s'
       /\ (workers s'
           = [] ++ map (fun w => mkGoroutine w AtGate)
                       ["api"; "mail"; "dev"; "ftp"]%string
           \/ exists ph,
                workers s'
                = [] ++ mkGoroutine
                          (g_word (mkGoroutine "www" InPipeline)) ph
                        :: map (fun w => mkGoroutine w AtGate)
                               ["api"; "mail"; "dev"; "ftp"]%string
                /\ (phase_weight
                      (mkGoroutine (g_word (mkGoroutine "www" InPipeline)) ph)
                    < phase_weight (mkGoroutine "www" InPipeline))%nat).
Proof.
  apply (admitted_goroutine_advances Examples.example_cfg Examples.example_env
           Examples.example_words
           (first_admitted Examples.example_words) []
           (map (fun w => mkGoroutine w AtGate)
                ["api"; "mail"; "dev"; "ftp"]%string)
           (mkGoroutine "www" InPipeline)).
  - destruct (FinderFacts.all_queued_reachable Examples.example_cfg
                Examples.example_env Examples.example_words)
      as (s0 & Hinit & Hsteps); [cbn; lia|].
    exists s0. split; [exact Hinit|].
    eapply steps_step; [exact Hsteps|].
    apply (step_acquire Examples.example_cfg Examples.example_env
             Examples.example_words []
             (map (fun w => mkGoroutine w AtGate)
                  ["api"; "mail"; "dev"; "ftp"]%string)
             "www" (all_queued Examples.example_words)).
    + reflexivity.
    + cbn. lia.
  - reflexivity.
  - cbn. discriminate.
Defined.

Lemma Find_needs_a_slot_witness :
  (forall s,
     reachable no_slot_cfg Examples.example_env Examples.example_words s ->
     main s <> Returned)
  /\ (forall out,
        ~ Find_returns no_slot_cfg Examples.example_env
            Examples.example_words out).
Proof.
  apply (Find_needs_a_slot no_slot_cfg Examples.example_env
           Examples.example_words).
  - cbn. lia.
  - discriminate.
Defined.

Lemma Find_output_multiplicity_witness :
  exists out,
    Find_returns Examples.example_cfg Examples.example_env
      Examples.example_words out
    /\ (forall w,
          List.length
            (filter (fun r =>
                       (Subdomain r =? candidate Examples.example_cfg w)%string)
                    out)
          = if resolves Examples.example_cfg Examples.example_env w
            then count_occ string_dec Examples.example_words w else 0%nat)
    /\ (List.length out <= List.length Examples.example_words)%nat
    /\ (NoDup Examples.example_words -> NoDup (map Subdomain out)).
Proof.
  destruct (FinderFacts.Find_can_return Examples.example_cfg
              Examples.example_env Examples.example_words)
    as [out Hout]; [cbn; lia|].
  exists out. split; [exact Hout|].
  apply (Find_output_multiplicity Examples.example_cfg Examples.example_env
           Examples.example_words out Hout).
Defined.

End RunFacts.

(** ** The wordlist and the words [Find] works on *)

Module WordlistFacts.
Import Finder Runs Wordlist.

Local Open Scope string_scope.
Local Open Scope Z_scope.
Local Open Scope list_scope.

(** *** The empty wordlist *)

Lemma Find_empty_returns (cfg : Config) (env : Probes) :
  0 <= Threads cfg -> Find_returns cfg env [] [].
Proof.
  intros Hthreads.
  exists {| main := Returned; workers := []; closer := Closed;
            semaphore := 0; wg := 0; resultsChan := []; results := [] |}.
  split; [|split; reflexivity].
  exists (entry []). split.
  - unfold Find_init. destruct (Z.ltb_spec (Threads cfg) 0); [lia|reflexivity].
  - eapply steps_step; [eapply steps_step; [eapply steps_step;
      [apply steps_refl|]|]|].
    + apply step_loop_exit. reflexivity.
    + apply step_close; reflexivity.
    + apply step_return; reflexivity.
Qed.

Lemma Find_empty_only (cfg : Config) (env : Probes) (out : list Result) :
  Find_returns cfg env [] out -> out = [].
Proof.
  intros Hout.
  apply Permutation_nil, Permutation_sym.
  exact (FinderFacts.returned_output cfg env [] out Hout).
Qed.

Section Files.

Variable TrimSpace : string -> string.
Variable readLines : string -> (list string * option string) + string.

Local Abbreviation NewWordlist := (NewWordlist TrimSpace readLines).
Local Abbreviation loadFromFile := (loadFromFile TrimSpace readLines).
Local Abbreviation Find_words := (Find_words TrimSpace readLines).

(** X12: when the wordlist file cannot be opened, [NewWordlist] drops
    the error of [loadFromFile] and does not fall back on the default
    words: the finder works on an empty wordlist, and [Find] returns an
    empty output without probing anything. *)
Theorem Find_unreadable_wordlist (cfg : Config) (env : Probes) (err : string) :
  Finder.Wordlist cfg <> "" ->
  readLines (Finder.Wordlist cfg) = inr err ->
  0 <= Threads cfg ->
  snd (loadFromFile (mkWordlist [] (Finder.Wordlist cfg)))
  = Some ("failed to open wordlist file: " ++ err)%string
  /\ Find_words cfg = []
  /\ Find_returns cfg env (Find_words cfg) []
  /\ (forall out, Find_returns cfg env (Find_words cfg) out -> out = []).
Proof.
  intros Hpath Hopen Hthreads.
  assert (Hwords : Find_words cfg = []).
  { unfold Wordlist.Find_words, GetWords, Wordlist.NewWordlist,
      Wordlist.loadFromFile.
    cbn [filePath words].
    destruct (String.eqb_spec (Finder.Wordlist cfg) "") as [E|_];
      [contradiction|].
    cbn [negb]. rewrite Hopen. reflexivity. }
  split; [|split; [exact Hwords|]].
  - unfold Wordlist.loadFromFile. cbn [filePath]. rewrite Hopen. reflexivity.
  - rewrite Hwords. split.
    + apply Find_empty_returns. exact Hthreads.
    + apply Find_empty_only.
Qed.

(** X13: with a wordlist file, the finder works on the trimmed lines
    that are neither blank nor comments, in the order of the file (also
    when the scanner stops on an error, which is dropped), and every
    record [Find] returns bears the candidate name of such a line: a
    blank line or a line starting with [#] is never probed. *)
Theorem Find_probes_kept_lines (cfg : Config) (env : Probes)
    (lines : list string) (err : option string) (out : list Result) :
  Finder.Wordlist cfg <> "" ->
  readLines (Finder.Wordlist cfg) = inl (lines, err) ->
  Find_returns cfg env (Find_words cfg) out ->
  Find_words cfg = filter keeps (map TrimSpace lines)
  /\ Forall (fun word => word <> "" /\ prefix "#" word = false)
            (Find_words cfg)
  /\ (forall r, In r out ->
      exists line,
        In line lines
        /\ TrimSpace line <> ""
        /\ prefix "#" (TrimSpace line) = false
        /\ Subdomain r = (TrimSpace line ++ "." ++ Domain cfg)%string).
Proof.
  intros Hpath Hopen Hout.
  assert (Hwords : Find_words cfg = filter keeps (map TrimSpace lines)).
  { unfold Wordlist.Find_words, GetWords, Wordlist.NewWordlist,
      Wordlist.loadFromFile.
    cbn [filePath words].
    destruct (String.eqb_spec (Finder.Wordlist cfg) "") as [E|_];
      [contradiction|].
    cbn [negb]. rewrite Hopen. reflexivity. }
  assert (Hkeeps : forall word, keeps word = true ->
                     word <> "" /\ prefix "#" word = false).
  { intros word H. unfold keeps in H. apply andb_prop in H as [H1 H2].
    split.
    - intros ->. discriminate.
    - destruct (prefix "#" word); [discriminate | reflexivity]. }
  split; [exact Hwords|]. split.
  - rewrite Hwords. apply Forall_forall. intros word Hin.
    apply filter_In in Hin as [_ Hk]. apply Hkeeps. exact Hk.
  - intros r Hin.
    pose proof (FinderFacts.returned_output cfg env _ out Hout) as Hperm.
    assert (Hname : In (Subdomain r)
                      (map Subdomain
                         (flat_map (emitted cfg env) (Find_words cfg)))).
    { apply in_map. eapply Permutation_in; eassumption. }
    destruct (RunFacts.emitted_names cfg env _ _ Hname) as (w & Hw & Hsub).
    rewrite Hwords in Hw. apply filter_In in Hw as [Hw Hk].
    apply in_map_iff in Hw as (line & <- & Hline).
    destruct (Hkeeps _ Hk) as [Hne Hcomment].
    exists line. repeat split; assumption.
Qed.

End Files.

(** *** The default words *)

Lemma distinct_NoDup (l : list string) : distinct l = true -> NoDup l.
Proof.
  induction l as [|x l IH]; cbn [distinct]; intros H; [constructor|].
  apply andb_prop in H as [Hx Hl]. constructor; [|apply IH; exact Hl].
  intros Hin. apply negb_true_iff in Hx.
  assert (existsb (String.eqb x) l = true)
    by (apply existsb_exists; exists x; split;
        [exact Hin | apply String.eqb_refl]).
  congruence.
Qed.

Lemma count_occ_middle (l1 l2 : list string) (x w : string) :
  count_occ string_dec (l1 ++ x :: l2) w
  = ((if string_dec x w then 1 else 0) + count_occ string_dec (l1 ++ l2) w)%nat.
Proof.
  rewrite !count_occ_app. cbn [count_occ].
  destruct (string_dec x w); lia.
Qed.

(** The default words are those of the literal but for the second [m]:
    the word [m] stands between [autoconfig] and [imap], and again between
    [l] and [n]. *)
Lemma defaultWords_split :
  exists l1 l2,
    defaultWords = l1 ++ "m" :: l2
    /\ NoDup (l1 ++ l2) /\ In "m" (l1 ++ l2)
    /\ List.length defaultWords = 351%nat.
Proof.
  exists (firstn 14 defaultWords), (skipn 15 defaultWords).
  split; [reflexivity|]. split; [|split].
  - apply distinct_NoDup. vm_compute. reflexivity.
  - assert (H : existsb (String.eqb "m")
                 (firstn 14 defaultWords ++ skipn 15 defaultWords) = true)
      by (vm_compute; reflexivity).
    apply existsb_exists in H as (x & Hin & Hx).
    apply String.eqb_eq in Hx. subst x. exact Hin.
  - reflexivity.
Qed.

Lemma defaultWords_count (w : string) :
  count_occ string_dec defaultWords w
  = (if string_dec "m" w then 2
     else if in_dec string_dec w defaultWords then 1 else 0)%nat.
Proof.
  destruct defaultWords_split as (l1 & l2 & Hsplit & Hnodup & Hm & _).
  rewrite Hsplit at 1. rewrite count_occ_middle.
  pose proof (proj1 (NoDup_count_occ string_dec (l1 ++ l2)) Hnodup w) as Hle.
  destruct (string_dec "m" w) as [<-|Hne].
  - apply (count_occ_In string_dec) in Hm. lia.
  - destruct (in_dec string_dec w defaultWords) as [Hin|Hnin].
    + rewrite Hsplit in Hin.
      assert (In w (l1 ++ l2)).
      { apply in_app_iff. apply in_app_iff in Hin as [Hin|[Hin|Hin]];
          [left; exact Hin | contradiction | right; exact Hin]. }
      apply (count_occ_In string_dec) in H. lia.
    + assert (~ In w (l1 ++ l2)).
      { intros Hin. apply Hnin. rewrite Hsplit.
        apply in_app_iff. apply in_app_iff in Hin as [Hin|Hin];
          [left; exact Hin | right; right; exact Hin]. }
      apply (count_occ_not_In string_dec) in H. lia.
Qed.

(** X14: with no wordlist file the finder works on the 351 default
    words, among which [m] stands twice and every other word once; so in
    every output of [Find] the candidate [m.<domain>], when it resolves,
    has two records, and every other resolving default word has one. *)
Theorem Find_default_words_repeat_m
    (TrimSpace : string -> string)
    (readLines : string -> (list string * option string) + string)
    (cfg : Config) (env : Probes) (out : list Result) :
  Finder.Wordlist cfg = "" ->
  Find_returns cfg env (Find_words TrimSpace readLines cfg) out ->
  Find_words TrimSpace readLines cfg = defaultWords
  /\ List.length (Find_words TrimSpace readLines cfg) = 351%nat
  /\ (forall w,
        List.length
          (filter (fun r => (Subdomain r =? candidate cfg w)%string) out)
        = if resolves cfg env w then
            if string_dec "m" w then 2%nat
            else if in_dec string_dec w defaultWords then 1%nat else 0%nat
          else 0%nat).
Proof.
  intros Hpath Hout.
  assert (Hwords : Find_words TrimSpace readLines cfg = defaultWords).
  { unfold Find_words, GetWords, NewWordlist. rewrite Hpath. reflexivity. }
  rewrite Hwords in Hout |- *.
  split; [reflexivity|]. split; [reflexivity|].
  intros w.
  pose proof (FinderFacts.returned_output cfg env _ out Hout) as Hperm.
  rewrite (RunFacts.filter_length_perm _ _ _ Hperm),
    RunFacts.emitted_matching, defaultWords_count.
  reflexivity.
Qed.

(** *** Editing a wordlist *)

Lemma remove_first_absent (word : string) (l : list string) :
  ~ In word l -> remove_first word l = l.
Proof.
  induction l as [|x l IH]; cbn [remove_first]; intros Hnin; [reflexivity|].
  destruct (String.eqb_spec x word) as [->|_].
  - destruct Hnin. left. reflexivity.
  - rewrite IH; [reflexivity|]. intros Hin. apply Hnin. right. exact Hin.
Qed.

Lemma remove_first_present (word : string) (l : list string) :
  In word l ->
  exists pre post,
    l = pre ++ word :: post /\ ~ In word pre
    /\ remove_first word l = pre ++ post.
Proof.
  induction l as [|x l IH]; cbn [remove_first]; intros Hin; [contradiction|].
  destruct (String.eqb_spec x word) as [->|Hne].
  - exists [], l. repeat split. intros [].
  - destruct Hin as [->|Hin]; [contradiction|].
    destruct (IH Hin) as (pre & post & -> & Hpre & Hrem).
    exists (x :: pre), post. split; [reflexivity|]. split.
    + intros [->|H]; [apply Hne; reflexivity | contradiction].
    + rewrite Hrem. reflexivity.
Qed.

(** X15: [RemoveWord] deletes the first occurrence of the word and
    nothing else: the words before and after it keep their order, later
    occurrences stay, and the count drops by one; on a word that is not
    in the list it changes nothing.  So [RemoveWord] after [AddWord] of
    the same word gives the list back when the word was new, and
    otherwise moves the word from its first place to the end. *)
Theorem RemoveWord_first_occurrence (w : Wordlist) (word : string) :
  (In word (words w) ->
   exists pre post,
     words w = pre ++ word :: post
     /\ ~ In word pre
     /\ words (RemoveWord w word) = pre ++ post
     /\ GetCount (RemoveWord w word) = GetCount w - 1
     /\ words (RemoveWord (AddWord w word) word) = pre ++ post ++ [word])
  /\ (~ In word (words w) ->
      RemoveWord w word = w
      /\ RemoveWord (AddWord w word) word = w)
  /\ GetCount (AddWord w word) = GetCount w + 1.
Proof.
  destruct w as [l path]. unfold RemoveWord, AddWord, GetCount.
  cbn [words filePath].
  split; [|split].
  - intros Hin.
    destruct (remove_first_present word l Hin)
      as (pre & post & Hl & Hpre & Hrem).
    exists pre, post. split; [exact Hl|]. split; [exact Hpre|].
    split; [exact Hrem|]. split.
    + rewrite Hrem, Hl, !length_app. cbn [List.length]. lia.
    + assert (Hin' : In word (l ++ [word]))
        by (apply in_app_iff; left; exact Hin).
      destruct (remove_first_present word (l ++ [word]) Hin')
        as (pre' & post' & Hl' & Hpre' & Hrem').
      rewrite Hrem'. rewrite Hl in Hl'.
      assert (Hsame : pre' = pre /\ post' = post ++ [word]).
      { clear - Hl' Hpre Hpre'.
        revert pre' Hl' Hpre'. induction pre as [|x pre IH];
          intros [|x' pre'] Hl' Hpre'; cbn in Hl'.
        - injection Hl' as <-. split; reflexivity.
        - injection Hl' as <- _. destruct Hpre'. left. reflexivity.
        - injection Hl' as -> _. destruct Hpre. left. reflexivity.
        - injection Hl' as <- Hl'.
          destruct (IH (fun H => Hpre (or_intror H)) pre' Hl'
                      (fun H => Hpre' (or_intror H))) as [-> ->].
          split; reflexivity. }
      destruct Hsame as [-> ->]. reflexivity.
  - intros Hnin. split.
    + rewrite remove_first_absent by exact Hnin. reflexivity.
    + f_equal.
      induction l as [|x l IH]; cbn [app remove_first].
      * rewrite String.eqb_refl. reflexivity.
      * destruct (String.eqb_spec x word) as [->|_].
        -- destruct Hnin. left. reflexivity.
        -- rewrite IH; [reflexivity|].
           intros H. apply Hnin. right. exact H.
  - rewrite length_app. cbn [List.length]. lia.
Qed.

Lemma Find_unreadable_wordlist_witness :
  snd (loadFromFile (fun s => s) no_file
         (mkWordlist [] (Finder.Wordlist missing_cfg)))
  = Some ("failed to open wordlist file: "
          ++ "open missing.txt: no such file or directory")%string
  /\ Find_words (fun s => s) no_file missing_cfg = []
  /\ Find_returns missing_cfg Examples.example_env
       (Find_words (fun s => s) no_file missing_cfg) []
  /\ (forall out,
        Find_returns missing_cfg Examples.example_env
          (Find_words (fun s => s) no_file missing_cfg) out ->
        out = []).
Proof.
  apply (Find_unreadable_wordlist (fun s => s) no_file missing_cfg
           Examples.example_env
           "open missing.txt: no such file or directory").
  - discriminate.
  - reflexivity.
  - cbn. lia.
Defined.

Lemma Find_probes_kept_lines_witness :
  exists out,
    Find_returns missing_cfg Examples.example_env
      (Find_words (fun s => s) one_file missing_cfg) out
    /\ Find_words (fun s => s) one_file missing_cfg
       = filter keeps (map (fun s => s) ["# hosts"; "www"; ""; "api"])
    /\ Forall (fun word => word <> "" /\ prefix "#" word = false)
              (Find_words (fun s => s) one_file missing_cfg)
    /\ (forall r, In r out ->
        exists line,
          In line ["# hosts"; "www"; ""; "api"]
          /\ (fun s => s) line <> ""
          /\ prefix "#" ((fun s => s) line) = false
          /\ Subdomain r
             = ((fun s => s) line ++ "." ++ Domain missing_cfg)%string).
Proof.
  destruct (FinderFacts.Find_can_return missing_cfg Examples.example_env
              (Find_words (fun s => s) one_file missing_cfg))
    as [out Hout]; [cbn; lia|].
  exists out. split; [exact Hout|].
  apply (Find_probes_kept_lines (fun s => s) one_file missing_cfg
           Examples.example_env ["# hosts"; "www"; ""; "api"] None out).
  - discriminate.
  - reflexivity.
  - exact Hout.
Defined.

Lemma Find_default_words_repeat_m_witness :
  exists out,
    Find_returns Examples.example_cfg m_env
      (Find_words (fun s => s) no_file Examples.example_cfg) out
    /\ Find_words (fun s => s) no_file Examples.example_cfg = defaultWords
    /\ List.length (Find_words (fun s => s) no_file Examples.example_cfg)
       = 351%nat
    /\ (forall w,
          List.length
            (filter (fun r =>
                       (Subdomain r =? candidate Examples.example_cfg w)%string)
                    out)
          = if resolves Examples.example_cfg m_env w then
              if string_dec "m" w then 2%nat
              else if in_dec string_dec w defaultWords then 1%nat else 0%nat
            else 0%nat).
Proof.
  destruct (FinderFacts.Find_can_return Examples.example_cfg m_env
              (Find_words (fun s => s) no_file Examples.example_cfg))
    as [out Hout]; [cbn; lia|].
  exists out. split; [exact Hout|].
  apply (Find_default_words_repeat_m (fun s => s) no_file
           Examples.example_cfg m_env out).
  - reflexivity.
  - exact Hout.
Defined.

End WordlistFacts.

(** ** The resolver *)

Module DnsFacts.
Import Dns.

Local Open Scope string_scope.
Local Open Scope list_scope.

Lemma first_A_spec (answers : list RR) (ip : string) :
  first_A answers = Some ip
  <-> exists pre post,
        answers = pre ++ RR_A ip :: post
        /\ Forall (fun rr => forall ip', rr <> RR_A ip') pre.
Proof.
  induction answers as [|rr answers IH].
  - split; [discriminate|]. intros (pre & post & H & _).
    destruct pre; discriminate.
  - split.
    + intros H. destruct rr as [ip0| | | |]; cbn [first_A] in H.
      1:{ injection H as ->. exists [], answers.
          split; [reflexivity | constructor]. }
      all: apply IH in H as (pre & post & -> & Hpre);
        eexists (_ :: pre), post; (split; [reflexivity|]);
        constructor; [intros ip'; discriminate | exact Hpre].
    + intros (pre & post & H & Hpre). destruct pre as [|rr' pre].
      * cbn in H. injection H as -> _. reflexivity.
      * cbn in H. injection H as -> H. inversion Hpre as [|? ? Hrr Hpre']; subst.
        assert (Hrest : first_A (pre ++ RR_A ip :: post) = Some ip)
          by (apply IH; exists pre, post; split; [reflexivity | exact Hpre']).
        destruct rr' as [ip0| | | |]; cbn [first_A]; try exact Hrest.
        destruct (Hrr ip0). reflexivity.
Qed.

Section Client.

Variable Exchange : string -> Qtype -> string -> option Msg.

Local Abbreviation resolveA_from := (resolveA_from Exchange).
Local Abbreviation A_from := (A_from Exchange).

Lemma resolveA_from_cons (domain server : string) (rest : list string) :
  resolveA_from domain (server :: rest)
  = match A_from domain server with
    | Some ip => inl ip
    | None => resolveA_from domain rest
    end.
Proof.
  cbn [Dns.resolveA_from]. unfold Dns.A_from.
  destruct (Exchange domain TypeA server) as [response|]; [|reflexivity].
  destruct (Rcode response =? RcodeSuccess)%Z; cbn [negb]; [|reflexivity].
  destruct (first_A (Answer response)); reflexivity.
Qed.

Lemma resolveA_from_found (domain ip : string) (l : list string) :
  resolveA_from domain l = inl ip
  <-> exists pre server post,
        l = pre ++ server :: post
        /\ Forall (fun s => A_from domain s = None) pre
        /\ A_from domain server = Some ip.
Proof.
  induction l as [|server l IH].
  - split; [discriminate|]. intros (pre & s & post & H & _).
    destruct pre; discriminate.
  - rewrite resolveA_from_cons. split.
    + destruct (A_from domain server) as [ip0|] eqn:Hs.
      * intros H. injection H as ->. exists [], server, l.
        split; [reflexivity|]. split; [constructor | exact Hs].
      * intros H. apply IH in H as (pre & s & post & -> & Hpre & Hfound).
        exists (server :: pre), s, post. split; [reflexivity|].
        split; [constructor; assumption | exact Hfound].
    + intros (pre & s & post & H & Hpre & Hfound).
      destruct pre as [|s' pre]; cbn in H.
      * injection H as -> _. rewrite Hfound. reflexivity.
      * injection H as -> H. inversion Hpre as [|? ? Hs' Hpre']; subst.
        rewrite Hs'. apply IH. exists pre, s, post.
        split; [reflexivity|]. split; assumption.
Qed.

Lemma resolveA_from_failed (domain err : string) (l : list string) :
  resolveA_from domain l = inr err
  <-> Forall (fun s => A_from domain s = None) l
      /\ err = ("no A record found for " ++ domain)%string.
Proof.
  induction l as [|server l IH].
  - cbn. split.
    + intros H. injection H as <-. split; [constructor | reflexivity].
    + intros [_ ->]. reflexivity.
  - rewrite resolveA_from_cons.
    destruct (A_from domain server) as [ip0|] eqn:Hs.
    + split; [discriminate|]. intros [H _].
      inversion H; subst. congruence.
    + rewrite IH. split.
      * intros [H ->]. split; [constructor; assumption | reflexivity].
      * intros [H ->]. inversion H; subst. split; [assumption | reflexivity].
Qed.

(** X16: [resolveA] returns the first A record of the first of the
    three servers, asked in the order 8.8.8.8, 1.1.1.1, 8.8.4.4, that
    answers with [RcodeSuccess] and has an A record in its answer
    section; records of other types before it (a CNAME chain) are skipped,
    and a server that fails, refuses or answers without an A record is
    passed over.  It fails, with "no A record found for <domain>", exactly
    when none of the three gives an A record; and [Resolve] succeeds only
    with what [resolveA] returned. *)
Theorem resolveA_first_server (domain : string) :
  (forall ip,
     resolveA Exchange domain = inl ip
     <-> exists pre server post,
           servers = pre ++ server :: post
           /\ Forall (fun s => A_from domain s = None) pre
           /\ exists response before after,
                Exchange domain TypeA server = Some response
                /\ Rcode response = RcodeSuccess
                /\ Answer response = before ++ RR_A ip :: after
                /\ Forall (fun rr => forall ip', rr <> RR_A ip') before)
  /\ (forall err,
        resolveA Exchange domain = inr err
        <-> Forall (fun s => A_from domain s = None) servers
            /\ err = ("no A record found for " ++ domain)%string)
  /\ (forall timed_out ip,
        Resolve Exchange timed_out domain = inl ip ->
        timed_out = false /\ resolveA Exchange domain = inl ip).
Proof.
  split; [|split].
  - intros ip. unfold resolveA. rewrite resolveA_from_found.
    split.
    + intros (pre & server & post & Hs & Hpre & Hfound).
      exists pre, server, post. split; [exact Hs|]. split; [exact Hpre|].
      unfold Dns.A_from in Hfound.
      destruct (Exchange domain TypeA server) as [response|]; [|discriminate].
      destruct (Z.eqb_spec (Rcode response) RcodeSuccess) as [Hrc|];
        [|discriminate].
      apply first_A_spec in Hfound as (before & after & Hans & Hbefore).
      exists response, before, after. repeat split; assumption.
    + intros (pre & server & post & Hs & Hpre
              & response & before & after & Hex & Hrc & Hans & Hbefore).
      exists pre, server, post. split; [exact Hs|]. split; [exact Hpre|].
      unfold Dns.A_from. rewrite Hex, Hrc, Z.eqb_refl.
      apply first_A_spec. exists before, after. split; assumption.
  - intros err. unfold resolveA. apply resolveA_from_failed.
  - intros timed_out ip H. unfold Resolve in H.
    destruct timed_out; [discriminate|]. split; [reflexivity | exact H].
Qed.

(** X17: [ResolveMX] does not fall through as [resolveA] does: it takes
    the MX records of the first server that answers with [RcodeSuccess]
    and stops, so when that server answers without an MX record it fails
    with "no MX records found for <domain>" whatever the servers after it
    would answer, whereas [resolveA] passes over a first server that
    answers without an A record. *)
Theorem ResolveMX_stops_at_first_answer (domain : string) (response : Msg) :
  Exchange domain TypeMX "8.8.8.8:53" = Some response ->
  Rcode response = RcodeSuccess ->
  ResolveMX Exchange domain
  = (if (Z.of_nat (List.length (all_MX (Answer response))) =? 0)%Z
     then inr ("no MX records found for " ++ domain)%string
     else inl (all_MX (Answer response)))
  /\ (forall mx, In mx (all_MX (Answer response))
                 <-> In (RR_MX mx) (Answer response))
  /\ (A_from domain "8.8.8.8:53" = None ->
      resolveA Exchange domain
      = resolveA_from domain ["1.1.1.1:53"; "8.8.4.4:53"]).
Proof.
  intros Hex Hrc. split; [|split].
  - unfold ResolveMX, servers. cbn [ResolveMX_from].
    rewrite Hex, Hrc, Z.eqb_refl. reflexivity.
  - intros mx. induction (Answer response) as [|rr answers IH].
    + split; intros [].
    + destruct rr as [ip|target|mx'|txt|]; cbn [all_MX In];
        rewrite ?IH; split; intros H;
        try (right; exact H);
        try (destruct H as [H|H]; [discriminate | exact H]).
      * destruct H as [->|H]; [left; reflexivity | right; exact H].
      * destruct H as [H|H]; [injection H as ->; left; reflexivity
                             | right; exact H].
  - intros Hnone. unfold resolveA, servers.
    rewrite resolveA_from_cons, Hnone. reflexivity.
Qed.

End Client.

Lemma ResolveMX_stops_at_first_answer_witness :
  ResolveMX split_horizon "example.com"
  = (if (Z.of_nat (List.length (all_MX (Answer (mkMsg 0 [])))) =? 0)%Z
     then inr ("no MX records found for " ++ "example.com")%string
     else inl (all_MX (Answer (mkMsg 0 []))))
  /\ (forall mx, In mx (all_MX (Answer (mkMsg 0 [])))
                 <-> In (RR_MX mx) (Answer (mkMsg 0 [])))
  /\ (A_from split_horizon "example.com" "8.8.8.8:53" = None ->
      resolveA split_horizon "example.com"
      = resolveA_from split_horizon "example.com"
          ["1.1.1.1:53"; "8.8.4.4:53"]).
Proof.
  apply (ResolveMX_stops_at_first_answer split_horizon "example.com"
           (mkMsg 0 [])); reflexivity.
Defined.

(** On these servers the address comes from the second server, past the
    CNAME of its answer, and the mail host is not found. *)
Example split_horizon_answers :
  resolveA split_horizon "example.com" = inl "93.184.216.34"
  /\ ResolveMX split_horizon "example.com"
     = inr "no MX records found for example.com".
Proof. split; reflexivity. Qed.

End DnsFacts.

(** ** The certificate grade *)

Module SslFacts.
Import GoInt GoIntFacts GoLib Ssl.

Local Open Scope string_scope.
Local Open Scope Z_scope.
Local Open Scope list_scope.

(** The findings a grade and [isSecure] react to. *)
Local Abbreviation flagged :=
  (fun vuln : string => Contains vuln "weak" || Contains vuln "deprecated").

(** The loop over the findings only lowers the score: by at most 35 for
    each, and by at least 15 when one of them is flagged. *)
Lemma grade_loop_bounds (vulns : list string) (score : Z) :
  min_int64 + 35 * Z.of_nat (List.length vulns) <= score <= max_int64 ->
  let score' :=
    fold_left
      (fun score vuln =>
         let score := if Contains vuln "weak" then sub64 score 20 else score in
         if Contains vuln "deprecated" then sub64 score 15 else score)
      vulns score in
  score - 35 * Z.of_nat (List.length vulns) <= score' <= score
  /\ (existsb flagged vulns = true -> score' <= score - 15)
  /\ (existsb flagged vulns = false -> score' = score).
Proof.
  revert score. induction vulns as [|vuln vulns IH]; intros score Hrange.
  - cbn. split; [lia|]. split; [discriminate | reflexivity].
  - cbn [fold_left existsb List.length] in Hrange |- *. cbv zeta.
    rewrite Nat2Z.inj_succ in Hrange |- *.
    set (s1 := if Contains vuln "weak" then sub64 score 20 else score).
    set (s2 := if Contains vuln "deprecated" then sub64 s1 15 else s1).
    assert (H1 : s1 = score - (if Contains vuln "weak" then 20 else 0)).
    { subst s1. destruct (Contains vuln "weak"); [|lia].
      apply sub64_small. unfold in_int64, min_int64, max_int64 in *. lia. }
    assert (H2 : s2 = s1 - (if Contains vuln "deprecated" then 15 else 0)).
    { subst s2. destruct (Contains vuln "deprecated"); [|lia].
      apply sub64_small. unfold in_int64, min_int64, max_int64 in *.
      destruct (Contains vuln "weak"); lia. }
    specialize (IH s2).
    cbv zeta in IH.
    destruct IH as (Hb & Hflag & Hclean).
    { unfold min_int64, max_int64 in *.
      destruct (Contains vuln "weak"), (Contains vuln "deprecated"); lia. }
    split; [|split].
    + destruct (Contains vuln "weak"), (Contains vuln "deprecated"); lia.
    + intros Hex. apply orb_prop in Hex as [Hex|Hex].
      * apply orb_prop in Hex.
        destruct (Contains vuln "weak"), (Contains vuln "deprecated");
          try lia; destruct Hex; discriminate.
      * specialize (Hflag Hex).
        destruct (Contains vuln "weak"), (Contains vuln "deprecated"); lia.
    + intros Hex. apply orb_false_elim in Hex as [Hv Hex].
      apply orb_false_elim in Hv as [Hw Hd].
      rewrite (Hclean Hex), H2, H1, Hw, Hd. lia.
Qed.

(** The score is 100 less the deductions of the flags, then the loop,
    then the deduction of the protocol. *)
Lemma gradeScore_bounds (certInfo : CertificateInfo)
    (ciphers protocols : Finder.slice string) :
  Finder.len (Vulnerabilities certInfo) < 2 ^ 57 ->
  let score := gradeScore certInfo ciphers protocols in
  score <= 100
  /\ (IsExpired certInfo = true -> score <= 50)
  /\ (IsExpiringSoon certInfo = true -> score <= 80)
  /\ (IsSelfSigned certInfo = true -> score <= 70)
  /\ (IsWildcard certInfo = true -> score <= 90)
  /\ (existsb flagged (Finder.elems (Vulnerabilities certInfo)) = true ->
      score <= 85)
  /\ (hasModernProtocol protocols = false -> score <= 75)
  /\ (IsExpired certInfo = false -> IsExpiringSoon certInfo = false ->
      IsSelfSigned certInfo = false -> IsWildcard certInfo = false ->
      existsb flagged (Finder.elems (Vulnerabilities certInfo)) = false ->
      hasModernProtocol protocols = true -> score = 100).
Proof.
  intros Hlen. unfold gradeScore. cbv zeta.
  set (s1 := if IsExpired certInfo then sub64 100 50 else 100).
  set (s2 := if IsExpiringSoon certInfo then sub64 s1 20 else s1).
  set (s3 := if IsSelfSigned certInfo then sub64 s2 30 else s2).
  set (s4 := if IsWildcard certInfo then sub64 s3 10 else s3).
  assert (H4 : s4 = 100 - (if IsExpired certInfo then 50 else 0)
                    - (if IsExpiringSoon certInfo then 20 else 0)
                    - (if IsSelfSigned certInfo then 30 else 0)
                    - (if IsWildcard certInfo then 10 else 0)).
  { subst s4 s3 s2 s1.
    destruct (IsExpired certInfo), (IsExpiringSoon certInfo),
      (IsSelfSigned certInfo), (IsWildcard certInfo); reflexivity. }
  unfold Finder.len in Hlen.
  pose proof (grade_loop_bounds (Finder.elems (Vulnerabilities certInfo)) s4)
    as Hloop.
  cbv zeta in Hloop.
  set (s5 := fold_left _ _ s4) in *.
  destruct Hloop as (Hb & Hflag & Hclean).
  { unfold min_int64, max_int64. rewrite H4.
    destruct (IsExpired certInfo), (IsExpiringSoon certInfo),
      (IsSelfSigned certInfo), (IsWildcard certInfo); lia. }
  assert (H6 : forall b : bool,
             (if b then sub64 s5 25 else s5) = s5 - (if b then 25 else 0)).
  { intros [|]; [|lia]. apply sub64_small.
    unfold in_int64, min_int64, max_int64. rewrite H4 in Hb.
    destruct (IsExpired certInfo), (IsExpiringSoon certInfo),
      (IsSelfSigned certInfo), (IsWildcard certInfo); lia. }
  rewrite H6.
  assert (Hproto : hasModernProtocol protocols = true ->
                   (Finder.len protocols =? 0) = false).
  { unfold hasModernProtocol, Finder.len.
    destruct (Finder.elems protocols); [discriminate|].
    intros _. cbn [List.length]. apply Z.eqb_neq. lia. }
  repeat split.
  - destruct ((Finder.len protocols =? 0) || negb (hasModernProtocol protocols));
      destruct (IsExpired certInfo), (IsExpiringSoon certInfo),
      (IsSelfSigned certInfo), (IsWildcard certInfo); lia.
  - intros E. rewrite E in H4.
    destruct ((Finder.len protocols =? 0) || negb (hasModernProtocol protocols));
      destruct (IsExpiringSoon certInfo),
      (IsSelfSigned certInfo), (IsWildcard certInfo); lia.
  - intros E. rewrite E in H4.
    destruct ((Finder.len protocols =? 0) || negb (hasModernProtocol protocols));
      destruct (IsExpired certInfo),
      (IsSelfSigned certInfo), (IsWildcard certInfo); lia.
  - intros E. rewrite E in H4.
    destruct ((Finder.len protocols =? 0) || negb (hasModernProtocol protocols));
      destruct (IsExpired certInfo), (IsExpiringSoon certInfo),
      (IsWildcard certInfo); lia.
  - intros E. rewrite E in H4.
    destruct ((Finder.len protocols =? 0) || negb (hasModernProtocol protocols));
      destruct (IsExpired certInfo), (IsExpiringSoon certInfo),
      (IsSelfSigned certInfo); lia.
  - intros E. specialize (Hflag E).
    destruct ((Finder.len protocols =? 0) || negb (hasModernProtocol protocols));
      destruct (IsExpired certInfo), (IsExpiringSoon certInfo),
      (IsSelfSigned certInfo), (IsWildcard certInfo); lia.
  - intros E. rewrite E, orb_true_r.
    destruct (IsExpired certInfo), (IsExpiringSoon certInfo),
      (IsSelfSigned certInfo), (IsWildcard certInfo); lia.
  - intros E1 E2 E3 E4 E5 E6.
    rewrite (Hproto E6), E6. cbn [negb orb].
    rewrite (Hclean E5), H4, E1, E2, E3, E4. lia.
Qed.

Lemma grade_A_plus (score : Z) :
  (if score >=? 90 then "A+"
   else if score >=? 80 then "A"
   else if score >=? 70 then "B"
   else if score >=? 60 then "C"
   else if score >=? 50 then "D"
   else "F") = "A+" <-> 90 <= score.
Proof.
  rewrite !Z.geb_leb.
  destruct (Z.leb_spec 90 score); [split; [lia | reflexivity]|].
  split; [|lia].
  destruct (80 <=? score); [discriminate|].
  destruct (70 <=? score); [discriminate|].
  destruct (60 <=? score); [discriminate|].
  destruct (50 <=? score); discriminate.
Qed.

(** X18: a certificate graded "A+" is not expired, does not expire
    soon, is not self-signed, has no finding marked weak or deprecated,
    and was seen over TLS 1.2 or 1.3 (only the wildcard deduction leaves
    the score at 90); so, when it is within its validity period,
    [isSecure] holds of it: no certificate of grade "A+" is reported
    insecure for a reason the grade counts. *)
Theorem grade_A_plus_is_secure (certInfo : CertificateInfo)
    (ciphers protocols : Finder.slice string) :
  Finder.len (Vulnerabilities certInfo) < 2 ^ 57 ->
  calculateGrade certInfo ciphers protocols = "A+" ->
  IsExpired certInfo = false
  /\ IsExpiringSoon certInfo = false
  /\ IsSelfSigned certInfo = false
  /\ hasModernProtocol protocols = true
  /\ Forall (fun vuln => Contains vuln "weak" = false
                         /\ Contains vuln "deprecated" = false)
            (Finder.elems (Vulnerabilities certInfo))
  /\ (IsValid certInfo = true -> isSecure certInfo ciphers protocols = true).
Proof.
  intros Hlen Hgrade. unfold calculateGrade in Hgrade. cbv zeta in Hgrade.
  apply grade_A_plus in Hgrade.
  destruct (gradeScore_bounds certInfo ciphers protocols Hlen)
    as (_ & He & Hs & Hss & _ & Hf & Hp & _).
  assert (E1 : IsExpired certInfo = false)
    by (destruct (IsExpired certInfo); [specialize (He eq_refl); lia | reflexivity]).
  assert (E2 : IsExpiringSoon certInfo = false)
    by (destruct (IsExpiringSoon certInfo);
        [specialize (Hs eq_refl); lia | reflexivity]).
  assert (E3 : IsSelfSigned certInfo = false)
    by (destruct (IsSelfSigned certInfo);
        [specialize (Hss eq_refl); lia | reflexivity]).
  assert (E4 : hasModernProtocol protocols = true)
    by (destruct (hasModernProtocol protocols);
        [reflexivity | specialize (Hp eq_refl); lia]).
  assert (E5 : existsb flagged (Finder.elems (Vulnerabilities certInfo)) = false)
    by (destruct (existsb flagged (Finder.elems (Vulnerabilities certInfo)));
        [specialize (Hf eq_refl); lia | reflexivity]).
  repeat (split; [assumption|]). split.
  - apply Forall_forall. intros vuln Hin.
    destruct (Contains vuln "weak" || Contains vuln "deprecated") eqn:E.
    + assert (existsb flagged (Finder.elems (Vulnerabilities certInfo)) = true)
        by (apply existsb_exists; exists vuln; split; assumption).
      congruence.
    + apply orb_false_elim in E. exact E.
  - intros Hvalid. unfold isSecure. rewrite Hvalid, E1, E3, E5. reflexivity.
Qed.

Lemma grade_A_plus_is_secure_witness :
  let certInfo := analyzeCertificate example_cert 5000 100 in
  IsExpired certInfo = false
  /\ IsExpiringSoon certInfo = false
  /\ IsSelfSigned certInfo = false
  /\ hasModernProtocol (Some ["TLS 1.3"]) = true
  /\ Forall (fun vuln => Contains vuln "weak" = false
                         /\ Contains vuln "deprecated" = false)
            (Finder.elems (Vulnerabilities certInfo))
  /\ (IsValid certInfo = true ->
      isSecure certInfo None (Some ["TLS 1.3"]) = true).
Proof.
  apply (grade_A_plus_is_secure (analyzeCertificate example_cert 5000 100)
           None (Some ["TLS 1.3"])).
  - cbn. lia.
  - reflexivity.
Defined.

(** X19: [getRecommendations] returns nil exactly when the certificate
    is not expired, does not expire soon, is not self-signed, is not a
    wildcard, has no finding at all, and TLS 1.2 or 1.3 is among the
    protocols; then nothing is deducted: the score is 100, the grade is
    "A+", and a certificate within its validity period is secure.  There
    are never more than six recommendations. *)
Theorem no_recommendation_full_score (certInfo : CertificateInfo)
    (ciphers protocols : Finder.slice string) :
  (getRecommendations certInfo ciphers protocols = None
   <-> IsExpired certInfo = false
       /\ IsExpiringSoon certInfo = false
       /\ IsSelfSigned certInfo = false
       /\ hasModernProtocol protocols = true
       /\ Finder.elems (Vulnerabilities certInfo) = []
       /\ IsWildcard certInfo = false)
  /\ (getRecommendations certInfo ciphers protocols = None ->
      gradeScore certInfo ciphers protocols = 100
      /\ calculateGrade certInfo ciphers protocols = "A+"
      /\ (IsValid certInfo = true ->
          isSecure certInfo ciphers protocols = true))
  /\ Finder.len (getRecommendations certInfo ciphers protocols) <= 6.
Proof.
  assert (Hiff : getRecommendations certInfo ciphers protocols = None
                 <-> IsExpired certInfo = false
                     /\ IsExpiringSoon certInfo = false
                     /\ IsSelfSigned certInfo = false
                     /\ hasModernProtocol protocols = true
                     /\ Finder.elems (Vulnerabilities certInfo) = []
                     /\ IsWildcard certInfo = false).
  { unfold getRecommendations, Finder.len. cbv zeta.
    destruct (Finder.elems (Vulnerabilities certInfo)) as [|v vs] eqn:Hv.
    - cbn [List.length Z.of_nat]. change (0 >? 0) with false.
      destruct (IsExpired certInfo), (IsExpiringSoon certInfo),
        (IsSelfSigned certInfo), (hasModernProtocol protocols),
        (IsWildcard certInfo); cbn;
        (split; [try discriminate; intros _; repeat split
                | intros (? & ? & ? & ? & ? & ?);
                  try discriminate; reflexivity]).
    - assert (Hpos : (Z.of_nat (List.length (v :: vs)) >? 0) = true)
        by (rewrite Z.gtb_ltb; apply Z.ltb_lt; cbn [List.length]; lia).
      rewrite Hpos.
      destruct (IsExpired certInfo), (IsExpiringSoon certInfo),
        (IsSelfSigned certInfo), (hasModernProtocol protocols),
        (IsWildcard certInfo); cbn;
        (split; [discriminate
                | intros (? & ? & ? & ? & ? & ?); discriminate]). }
  split; [exact Hiff|]. split.
  - intros Hnone. apply Hiff in Hnone as (E1 & E2 & E3 & E4 & E5 & E6).
    assert (Hlen : Finder.len (Vulnerabilities certInfo) < 2 ^ 57)
      by (unfold Finder.len; rewrite E5; cbn; lia).
    destruct (gradeScore_bounds certInfo ciphers protocols Hlen)
      as (_ & _ & _ & _ & _ & _ & _ & Hfull).
    assert (Hscore : gradeScore certInfo ciphers protocols = 100)
      by (apply Hfull; try assumption; rewrite E5; reflexivity).
    split; [exact Hscore|]. split.
    + unfold calculateGrade. rewrite Hscore. reflexivity.
    + intros Hvalid. unfold isSecure. rewrite Hvalid, E1, E3, E5. reflexivity.
  - unfold getRecommendations, Finder.len. cbv zeta.
    destruct (IsExpired certInfo), (IsExpiringSoon certInfo),
      (IsSelfSigned certInfo), (hasModernProtocol protocols),
      (Z.of_nat (List.length (Finder.elems (Vulnerabilities certInfo))) >? 0),
      (IsWildcard certInfo); cbn; lia.
Qed.

(** *** Analyzed certificates *)

(** X20: for the record [analyzeCertificate] builds, [isSecure] holds
    exactly when the certificate is within its validity period, its
    issuer differs from its subject, its signature is neither MD5 nor
    SHA1 with RSA, and its key is not DSA.  A certificate within its
    validity period is not expired, the findings are at most two, and
    each of them is marked weak or deprecated. *)
Theorem analyzed_certificate_secure (cert : Certificate)
    (now daysUntilExpiry : Z) (ciphers protocols : Finder.slice string) :
  let certInfo := analyzeCertificate cert now daysUntilExpiry in
  (isSecure certInfo ciphers protocols = true
   <-> x_NotBefore cert < now < x_NotAfter cert
       /\ x_Issuer cert <> x_Subject cert
       /\ x_SignatureAlgorithm cert = OtherSignatureAlgorithm
       /\ x_PublicKeyAlgorithm cert <> DSA)
  /\ (IsValid certInfo = true -> IsExpired certInfo = false)
  /\ Finder.len (Vulnerabilities certInfo) <= 2
  /\ Forall (fun vuln => flagged vuln = true)
            (Finder.elems (Vulnerabilities certInfo)).
Proof.
  cbv zeta. unfold isSecure, analyzeCertificate.
  cbn [IsValid IsExpired IsSelfSigned Vulnerabilities].
  unfold checkVulnerabilities. cbv zeta.
  split; [|split; [|split]].
  - destruct (Z.ltb_spec (x_NotBefore cert) now),
      (Z.ltb_spec now (x_NotAfter cert)),
      (Z.ltb_spec (x_NotAfter cert) now),
      (String.eqb_spec (x_Issuer cert) (x_Subject cert));
      cbn [negb orb andb];
      try (split; [discriminate | intros (? & ? & ? & ?); lia || contradiction]).
    destruct (x_SignatureAlgorithm cert), (x_PublicKeyAlgorithm cert);
      vm_compute;
      (split; [try discriminate; intros _; repeat split;
               try lia; try assumption; discriminate
              | intros (? & ? & ? & ?); try discriminate;
                try contradiction; reflexivity]).
  - destruct (Z.ltb_spec (x_NotBefore cert) now),
      (Z.ltb_spec now (x_NotAfter cert)),
      (Z.ltb_spec (x_NotAfter cert) now); cbn; try discriminate;
      try reflexivity; lia.
  - destruct (x_SignatureAlgorithm cert), (x_PublicKeyAlgorithm cert);
      vm_compute; discriminate.
  - destruct (x_SignatureAlgorithm cert), (x_PublicKeyAlgorithm cert);
      cbn [append Finder.elems app]; repeat constructor.
Qed.

Lemma negotiated_version_modern (version : Z) :
  hasModernProtocol (getSupportedProtocols version)
  = (version =? VersionTLS12) || (version =? VersionTLS13)
  /\ (Finder.len (getSupportedProtocols version) =? 0)
      || negb (hasModernProtocol (getSupportedProtocols version))
     = negb ((version =? VersionTLS12) || (version =? VersionTLS13))
  /\ Finder.len (getSupportedProtocols version) <= 1.
Proof.
  unfold getSupportedProtocols. cbv zeta.
  destruct (Z.eqb_spec version VersionTLS10) as [->|_];
    [repeat split; vm_compute; discriminate|].
  destruct (Z.eqb_spec version VersionTLS11) as [->|_];
    [repeat split; vm_compute; discriminate|].
  destruct (Z.eqb_spec version VersionTLS12) as [->|_];
    [repeat split; vm_compute; discriminate|].
  destruct (Z.eqb_spec version VersionTLS13) as [->|_];
    [repeat split; vm_compute; discriminate|].
  repeat split. vm_compute. discriminate.
Qed.

(** X21: the grade [Analyze] reports is the letter of 100 less the sum
    of the deductions: 50 when the certificate is past its end, 20 when
    it has less than 30 days left, 30 when issuer and subject are the
    same, 10 for a wildcard name, 20 for an MD5 or SHA1 signature, 15 for
    a DSA key, 25 when the negotiated version is not TLS 1.2 or 1.3.  The
    score stays within [-70, 100], the recommendations are nil exactly
    when nothing is deducted, and an "A+" certificate is reported secure
    exactly when it is within its validity period. *)
Theorem Analyze_grade_formula (cert : Certificate) (version : Z)
    (ciphers : Finder.slice string) (now daysUntilExpiry : Z) :
  let result := Analyze cert version ciphers now daysUntilExpiry in
  let score := 100 - deductions cert version now daysUntilExpiry in
  gradeScore (Certificate_ result) ciphers (SupportedProtocols result) = score
  /\ Grade result = grade_of score
  /\ -70 <= score <= 100
  /\ (Recommendations result = None
      <-> deductions cert version now daysUntilExpiry = 0)
  /\ (Grade result = "A+" -> IsSecure result = IsValid (Certificate_ result)).
Proof.
  cbv zeta. unfold Analyze. cbv zeta.
  cbn [Certificate_ SupportedProtocols Grade Recommendations IsSecure].
  destruct (negotiated_version_modern version) as (Hmodern & Hpenalty & _).
  assert (Hscore :
            gradeScore (analyzeCertificate cert now daysUntilExpiry) ciphers
                       (getSupportedProtocols version)
            = 100 - deductions cert version now daysUntilExpiry).
  { unfold gradeScore, deductions, analyzeCertificate. cbv zeta.
    cbn [IsExpired IsExpiringSoon IsSelfSigned IsWildcard Vulnerabilities].
    rewrite Hpenalty. unfold checkVulnerabilities. cbv zeta.
    destruct (x_NotAfter cert <? now), (daysUntilExpiry <? 30),
      (x_Issuer cert =? x_Subject cert)%string,
      (isWildcard (x_DNSNames cert)),
      (x_SignatureAlgorithm cert), (x_PublicKeyAlgorithm cert),
      ((version =? VersionTLS12) || (version =? VersionTLS13));
      vm_compute; reflexivity. }
  assert (Hrange : -70 <= 100 - deductions cert version now daysUntilExpiry
                   <= 100).
  { unfold deductions.
    destruct (x_NotAfter cert <? now), (daysUntilExpiry <? 30),
      (x_Issuer cert =? x_Subject cert)%string,
      (isWildcard (x_DNSNames cert)),
      (x_SignatureAlgorithm cert), (x_PublicKeyAlgorithm cert),
      ((version =? VersionTLS12) || (version =? VersionTLS13)); lia. }
  assert (Hgrade :
            calculateGrade (analyzeCertificate cert now daysUntilExpiry)
                           ciphers (getSupportedProtocols version)
            = grade_of (100 - deductions cert version now daysUntilExpiry)).
  { unfold calculateGrade, grade_of. cbv zeta. rewrite Hscore, !Z.geb_leb.
    reflexivity. }
  split; [exact Hscore|]. split; [exact Hgrade|]. split; [exact Hrange|].
  split.
  - unfold getRecommendations, deductions, analyzeCertificate. cbv zeta.
    cbn [IsExpired IsExpiringSoon IsSelfSigned IsWildcard Vulnerabilities].
    rewrite Hmodern. unfold checkVulnerabilities. cbv zeta.
    destruct (x_NotAfter cert <? now), (daysUntilExpiry <? 30),
      (x_Issuer cert =? x_Subject cert)%string,
      (isWildcard (x_DNSNames cert)),
      (x_SignatureAlgorithm cert), (x_PublicKeyAlgorithm cert),
      ((version =? VersionTLS12) || (version =? VersionTLS13));
      vm_compute; split; intros H; solve [discriminate H | reflexivity].
  - rewrite Hgrade. unfold grade_of.
    destruct (Z.leb_spec 90 (100 - deductions cert version now daysUntilExpiry))
      as [Hden|_].
    2:{ destruct (80 <=? _); [discriminate|].
        destruct (70 <=? _); [discriminate|].
        destruct (60 <=? _); [discriminate|].
        destruct (50 <=? _); discriminate. }
    intros _. revert Hden.
    unfold isSecure, deductions, analyzeCertificate.
    cbn [IsValid IsExpired IsSelfSigned Vulnerabilities].
    unfold checkVulnerabilities. cbv zeta.
    destruct (x_NotBefore cert <? now), (now <? x_NotAfter cert),
      (x_NotAfter cert <? now), (daysUntilExpiry <? 30),
      (x_Issuer cert =? x_Subject cert)%string,
      (isWildcard (x_DNSNames cert)),
      (x_SignatureAlgorithm cert), (x_PublicKeyAlgorithm cert),
      ((version =? VersionTLS12) || (version =? VersionTLS13));
      vm_compute; intros H; solve [reflexivity | destruct H; reflexivity].
Qed.

(** A certificate of a public CA in the middle of its validity period,
    seen over TLS 1.3, is graded "A+"; the same over TLS 1.0 is graded
    "B". *)
Example Analyze_example_grades :
  Grade (Analyze example_cert VersionTLS13 None 5000 100) = "A+"
  /\ IsSecure (Analyze example_cert VersionTLS13 None 5000 100) = true
  /\ Grade (Analyze example_cert VersionTLS10 None 5000 100) = "B".
Proof. repeat split. Qed.

End SslFacts.

(** ** The findings on the response headers *)

Module VulnFacts.
Import GoInt GoLib Vuln.

Local Open Scope string_scope.
Local Open Scope Z_scope.
Local Open Scope list_scope.

(** *** [strings.Contains] *)

Lemma append_assoc (a b c : string) :
  ((a ++ b) ++ c = a ++ (b ++ c))%string.
Proof. induction a as [|x a IH]; cbn; [reflexivity | rewrite IH; reflexivity]. Qed.

Lemma prefix_spec (sub s : string) :
  prefix sub s = true <-> exists post, s = (sub ++ post)%string.
Proof.
  revert s. induction sub as [|c sub IH]; intros s.
  - destruct s; cbn; (split; [intros _; eexists; reflexivity | reflexivity]).
  - destruct s as [|d s]; cbn.
    + split; [discriminate | intros (post & H); discriminate].
    + destruct (Ascii.ascii_dec c d) as [->|Hne].
      * rewrite IH. split; intros (post & H).
        -- exists post. rewrite H. reflexivity.
        -- exists post. injection H as H. exact H.
      * split; [discriminate|]. intros (post & H). injection H as H _.
        destruct (Hne (eq_sym H)).
Qed.

Lemma Contains_spec (s sub : string) :
  Contains s sub = true
  <-> exists pre post, s = (pre ++ sub ++ post)%string.
Proof.
  induction s as [|c s IH].
  - cbn [Contains]. destruct (prefix sub "") eqn:Hp.
    + split; [|reflexivity]. intros _.
      apply prefix_spec in Hp as (post & Hp). exists "", post. exact Hp.
    + split; [discriminate|]. intros (pre & post & H).
      destruct pre; [|discriminate]. cbn in H.
      assert (prefix sub "" = true)
        by (apply prefix_spec; exists post; exact H).
      congruence.
  - cbn [Contains]. destruct (prefix sub (String c s)) eqn:Hp.
    + split; [|reflexivity]. intros _.
      apply prefix_spec in Hp as (post & Hp). exists "", post. exact Hp.
    + rewrite IH. split; intros (pre & post & H).
      * exists (String c pre), post. rewrite H. reflexivity.
      * destruct pre as [|d pre]; cbn in H.
        -- assert (prefix sub (String c s) = true)
             by (apply prefix_spec; exists post; exact H).
           congruence.
        -- injection H as _ H. exists pre, post. exact H.
Qed.

(** A string that contains [a] contains what [a] contains. *)
Lemma Contains_part (s a b : string) :
  Contains s a = true -> Contains a b = true -> Contains s b = true.
Proof.
  intros Hs Ha.
  apply Contains_spec in Hs as (pre & post & ->).
  apply Contains_spec in Ha as (pre' & post' & ->).
  apply Contains_spec. exists (pre ++ pre')%string, (post' ++ post)%string.
  rewrite !append_assoc. reflexivity.
Qed.

Lemma append_inj_r (p a b : string) : (p ++ a = p ++ b)%string -> a = b.
Proof.
  induction p as [|c p IH]; cbn; intros H; [exact H|].
  injection H as H. exact (IH H).
Qed.

(** The finding on a missing header names the header and the value. *)
Lemma missing_header_inj (h e h' e' : string) :
  missing_header h e = missing_header h' e' -> h = h' /\ e = e'.
Proof.
  intros Heq.
  pose proof (f_equal Name Heq) as Hn.
  pose proof (f_equal Solution Heq) as Hs.
  unfold missing_header in Hn, Hs. cbn [Name Solution] in Hn, Hs.
  apply append_inj_r in Hn. subst h'.
  do 2 apply append_inj_r in Hs.
  apply append_inj_r in Hs. split; [reflexivity | exact Hs].
Qed.

(** *** Lists of findings *)

Lemma filter_map_length {A B : Type} (f : A -> B) (p : B -> bool)
    (l : list A) :
  List.length (filter p (map f l))
  = List.length (filter (fun x => p (f x)) l).
Proof.
  induction l as [|x l IH]; cbn [map filter]; [reflexivity|].
  destruct (p (f x)); cbn [List.length]; rewrite IH; reflexivity.
Qed.

Section Response.

Variable Get : string -> string.

Local Abbreviation absent :=
  (fun entry : string * string => (Get (fst entry) =? "")%string).
Local Abbreviation finding :=
  (fun entry : string * string => missing_header (fst entry) (snd entry)).

Lemma header_loop (order : list (string * string))
    (vulns : Finder.slice Vulnerability) :
  Finder.elems
    (fold_left
       (fun vulns entry =>
          if (Get (fst entry) =? "")%string then
            append vulns (missing_header (fst entry) (snd entry))
          else vulns)
       order vulns)
  = Finder.elems vulns ++ map finding (filter absent order).
Proof.
  revert vulns. induction order as [|entry order IH]; intros vulns;
    cbn [fold_left filter map].
  - rewrite app_nil_r. reflexivity.
  - rewrite IH. destruct (Get (fst entry) =? "")%string; [|reflexivity].
    unfold append. cbn [Finder.elems map]. rewrite <- app_assoc. reflexivity.
Qed.

(** The findings of [checkSecurityHeaders]: one for each absent header,
    in the order of the iteration, then the one on a weak HSTS header. *)
Lemma checkSecurityHeaders_elems (order : list (string * string)) :
  Finder.elems (checkSecurityHeaders Get order)
  = map finding (filter absent order)
    ++ (if negb (Get "Strict-Transport-Security" =? "")%string
           && negb (Contains (Get "Strict-Transport-Security")
                             "includeSubDomains")
        then [weak_hsts] else []).
Proof.
  unfold checkSecurityHeaders. cbv zeta.
  destruct (negb (Get "Strict-Transport-Security" =? "")%string);
    cbn [andb]; [|rewrite header_loop, app_nil_r; reflexivity].
  destruct (negb (Contains (Get "Strict-Transport-Security")
                           "includeSubDomains"));
    [|rewrite header_loop, app_nil_r; reflexivity].
  unfold append at 1. cbn [Finder.elems]. rewrite header_loop. reflexivity.
Qed.

Lemma medium_findings (order : list (string * string)) :
  with_severity "Medium" (Finder.elems (checkSecurityHeaders Get order))
  = map finding (filter absent order).
Proof.
  rewrite checkSecurityHeaders_elems. unfold with_severity.
  rewrite filter_app.
  match goal with
  | |- context [if ?b then [weak_hsts] else []] =>
      assert (Hlow : filter (fun vuln => (Severity vuln =? "Medium")%string)
                            (if b then [weak_hsts] else []) = [])
        by (destruct b; reflexivity)
  end.
  rewrite Hlow, app_nil_r. clear Hlow.
  induction (filter absent order) as [|entry l IH]; [reflexivity|].
  cbn [map filter Severity missing_header]. cbn. f_equal. exact IH.
Qed.

Lemma missing_headers_order (order : list (string * string)) :
  Permutation order securityHeaders ->
  Z.of_nat (List.length (filter absent order)) = missing_headers Get.
Proof.
  intros Hperm. unfold missing_headers.
  rewrite (RunFacts.filter_length_perm _ _ _ Hperm). reflexivity.
Qed.

Lemma missing_headers_range :
  0 <= missing_headers Get <= 6
  /\ ((Get "Strict-Transport-Security" =? "")%string = false ->
      missing_headers Get <= 5).
Proof.
  unfold missing_headers, securityHeaders. cbn [filter fst].
  destruct (Get "X-Content-Type-Options" =? "")%string,
    (Get "X-Frame-Options" =? "")%string,
    (Get "X-XSS-Protection" =? "")%string,
    (Get "Strict-Transport-Security" =? "")%string,
    (Get "Content-Security-Policy" =? "")%string,
    (Get "Referrer-Policy" =? "")%string;
    cbn [List.length]; (split; [lia|]); intros H; try discriminate H; lia.
Qed.

(** X22: whatever the order in which the map of the six security
    headers is visited, [checkSecurityHeaders] reports one finding of
    severity Medium for each of the six headers the response lacks and
    for nothing else, and one of severity Low, "Weak HSTS Configuration",
    exactly when the HSTS header is present without [includeSubDomains];
    so there are at most six findings. *)
Theorem checkSecurityHeaders_counts (order : list (string * string)) :
  Permutation order securityHeaders ->
  let vulns := Finder.elems (checkSecurityHeaders Get order) in
  Z.of_nat (List.length (with_severity "Medium" vulns)) = missing_headers Get
  /\ (forall header expected,
        In (missing_header header expected) vulns
        <-> In (header, expected) securityHeaders /\ Get header = "")
  /\ (In weak_hsts vulns
      <-> Get "Strict-Transport-Security" <> ""
          /\ Contains (Get "Strict-Transport-Security") "includeSubDomains"
             = false)
  /\ (forall vuln, In vuln vulns ->
        vuln = weak_hsts
        \/ exists header expected, vuln = missing_header header expected)
  /\ Z.of_nat (List.length vulns) <= 6.
Proof.
  intros Hperm vulns. subst vulns.
  split; [|split; [|split; [|split]]].
  - rewrite medium_findings, length_map. apply missing_headers_order.
    exact Hperm.
  - intros header expected. rewrite checkSecurityHeaders_elems, in_app_iff.
    split.
    + intros [Hin|Hin].
      * apply in_map_iff in Hin as ([h e] & Heq & Hin).
        apply filter_In in Hin as [Hin Habs]. cbn [fst snd] in *.
        destruct (missing_header_inj _ _ _ _ Heq) as [-> ->].
        split.
        -- eapply Permutation_in; eassumption.
        -- apply String.eqb_eq. exact Habs.
      * destruct (_ && _); [|contradiction].
        destruct Hin as [Heq|[]]. discriminate Heq.
    + intros [Hin Habs]. left.
      apply in_map_iff. exists (header, expected). split; [reflexivity|].
      apply filter_In. split.
      * eapply Permutation_in; [apply Permutation_sym|]; eassumption.
      * cbn [fst]. apply String.eqb_eq. exact Habs.
  - rewrite checkSecurityHeaders_elems, in_app_iff. split.
    + intros [Hin|Hin].
      * apply in_map_iff in Hin as ([h e] & Heq & _). discriminate Heq.
      * destruct (String.eqb_spec (Get "Strict-Transport-Security") "")
          as [E|NE]; cbn [negb andb] in Hin; [contradiction|].
        destruct (Contains (Get "Strict-Transport-Security")
                           "includeSubDomains");
          cbn [negb] in Hin; [contradiction|].
        split; [exact NE | reflexivity].
    + intros [NE Hc]. right. rewrite Hc.
      destruct (String.eqb_spec (Get "Strict-Transport-Security") "")
        as [E|_]; [contradiction|].
      left. reflexivity.
  - intros vuln. rewrite checkSecurityHeaders_elems, in_app_iff.
    intros [Hin|Hin].
    + apply in_map_iff in Hin as ([h e] & <- & _). right.
      exists h, e. reflexivity.
    + destruct (_ && _); [|contradiction].
      destruct Hin as [<-|[]]. left. reflexivity.
  - rewrite checkSecurityHeaders_elems, length_app, length_map,
      Nat2Z.inj_add, (missing_headers_order order Hperm).
    destruct missing_headers_range as [Hr Hsts].
    destruct (Get "Strict-Transport-Security" =? "")%string;
      cbn [negb andb List.length]; [lia|].
    specialize (Hsts eq_refl).
    destruct (negb _); cbn [List.length]; lia.
Qed.

(** X23: an outdated Apache is always reported with its version
    disclosure: when the [Server] header contains [Apache/2.2] or
    [Apache/2.0], [checkServerInfo] reports both "Server Version
    Disclosure" (Low) and "Outdated Apache Version" (High), since such a
    header contains a slash.  A finding of severity High is reported only
    for such a header; every other finding is Low, and there are at most
    three findings. *)
Theorem outdated_apache_discloses_version :
  let vulns := Finder.elems (checkServerInfo Get) in
  let outdated := Contains (Get "Server") "Apache/2.2"
                  || Contains (Get "Server") "Apache/2.0" in
  (outdated = true ->
   exists low high,
     In low vulns /\ Name low = "Server Version Disclosure"
     /\ Severity low = "Low"
     /\ In high vulns /\ Name high = "Outdated Apache Version"
     /\ Severity high = "High")
  /\ (forall vuln, In vuln vulns -> Severity vuln = "High" -> outdated = true)
  /\ Forall (fun vuln => Severity vuln = "Low" \/ Severity vuln = "High") vulns
  /\ Z.of_nat (List.length vulns) <= 3.
Proof.
  cbv zeta.
  assert (Hslash : Contains (Get "Server") "Apache/2.2"
                   || Contains (Get "Server") "Apache/2.0" = true ->
                   Contains (Get "Server") "/" = true
                   /\ (Get "Server" =? "")%string = false).
  { intros H. apply orb_prop in H. split.
    - destruct H as [H|H];
        eapply Contains_part; try exact H; reflexivity.
    - destruct (Get "Server"); [|reflexivity].
      destruct H as [H|H]; discriminate H. }
  unfold checkServerInfo. cbv zeta.
  destruct (Contains (Get "Server") "Apache/2.2"
            || Contains (Get "Server") "Apache/2.0") eqn:Hout.
  - destruct (Hslash eq_refl) as [Hs Hne]. rewrite Hs, Hne. cbn [negb].
    split; [|split; [|split]].
    + intros _.
      destruct (negb (Get "X-Powered-By" =? "")%string);
        do 2 eexists; cbn;
        (split; [left; reflexivity|]); (split; [reflexivity|]);
        (split; [reflexivity|]);
        (split; [right; left; reflexivity|]); split; reflexivity.
    + intros _ _ _. reflexivity.
    + destruct (negb (Get "X-Powered-By" =? "")%string); cbn;
        repeat (apply Forall_cons; [cbn; auto|]); apply Forall_nil.
    + destruct (negb (Get "X-Powered-By" =? "")%string); cbn; lia.
  - split; [discriminate|].
    destruct (negb (Get "Server" =? "")%string),
      (Contains (Get "Server") "/"),
      (negb (Get "X-Powered-By" =? "")%string); cbn;
      (split; [intros vuln Hin Hsev;
               repeat (destruct Hin as [<-|Hin]; [discriminate Hsev|]);
               destruct Hin
              | split; [repeat (apply Forall_cons; [cbn; auto|]);
                        apply Forall_nil
                       | lia]]).
Qed.

End Response.

(** *** The findings in the risk level *)

(** X24: the findings on the security headers alone make a candidate
    high risk: when the scan of [https://candidate] succeeds and the
    findings it returns begin with those of [checkSecurityHeaders] on a
    response that lacks at least four of the six headers, the risk score
    of the record is at least four times the number of missing headers
    and its [RiskLevel] is "high", whatever else was found. *)
Theorem missing_headers_rate_high (env : Finder.Probes)
    (subdomain ip : string) (Get : string -> string)
    (order : list (string * string))
    (vulns : Finder.slice Finder.ScannedVuln)
    (rest : list Finder.ScannedVuln) :
  Finder.dns_Resolve env subdomain = inl ip ->
  Finder.vuln_ScanURL env ("https://" ++ subdomain) = inl vulns ->
  Finder.elems vulns
  = map scanned (Finder.elems (checkSecurityHeaders Get order)) ++ rest ->
  Permutation order securityHeaders ->
  Finder.len vulns < 2 ^ 59 ->
  4 <= missing_headers Get ->
  let result := Finder.checkSubdomain env subdomain in
  4 * missing_headers Get <= Finder.riskScore result
  /\ Finder.RiskLevel result = "high".
Proof.
  intros Hdns Hscan Hvulns Hperm Hlen Hmissing result.
  destruct (RecordFacts.checkSubdomain_fields env subdomain ip Hdns)
    as (Hrisk & _ & Hfound & _).
  fold result in Hrisk, Hfound. rewrite Hscan in Hfound.
  assert (Hscore : Finder.riskScore result = Finder.risk_score_design result).
  { apply ScoringFacts.riskScore_design. rewrite Hfound.
    unfold Finder.len in *. cbn [Finder.elems]. rewrite length_map.
    exact Hlen. }
  assert (Hmedium : missing_headers Get
                    <= Finder.count_severity "Medium" result).
  { unfold Finder.count_severity. rewrite Hfound. cbn [Finder.elems].
    rewrite Hvulns, !map_app, filter_app, length_app, Nat2Z.inj_add.
    rewrite map_map, filter_map_length.
    rewrite <- (missing_headers_order Get order Hperm).
    rewrite <- (length_map
                  (fun entry => missing_header (fst entry) (snd entry))
                  (filter _ order)).
    rewrite <- (medium_findings Get order). unfold with_severity.
    cbn [Finder.to_Vulnerability scanned Finder.vuln_Severity
         Finder.sv_Severity].
    lia. }
  assert (Hlow : 4 * Finder.count_severity "Medium" result
                 <= Finder.risk_score_design result).
  { unfold Finder.risk_score_design, Finder.count_severity.
    destruct (Finder.SSL result) as [ssl|];
      repeat match goal with
             | |- context [if ?b then _ else _] => destruct b
             end; lia. }
  assert (Hbound : 4 * missing_headers Get <= Finder.riskScore result)
    by lia.
  split; [exact Hbound|].
  rewrite Hrisk, ScoringFacts.assessRisk_level.
  apply ScoringFacts.risk_level_thresholds. lia.
Qed.

Lemma checkSecurityHeaders_counts_witness :
  let vulns :=
    Finder.elems (checkSecurityHeaders bare_response securityHeaders) in
  Z.of_nat (List.length (with_severity "Medium" vulns))
  = missing_headers bare_response
  /\ (forall header expected,
        In (missing_header header expected) vulns
        <-> In (header, expected) securityHeaders
            /\ bare_response header = "")
  /\ (In weak_hsts vulns
      <-> bare_response "Strict-Transport-Security" <> ""
          /\ Contains (bare_response "Strict-Transport-Security")
                      "includeSubDomains" = false)
  /\ (forall vuln, In vuln vulns ->
        vuln = weak_hsts
        \/ exists header expected, vuln = missing_header header expected)
  /\ Z.of_nat (List.length vulns) <= 6.
Proof.
  apply (checkSecurityHeaders_counts bare_response securityHeaders).
  apply Permutation_refl.
Defined.

Lemma missing_headers_rate_high_witness :
  let result := Finder.checkSubdomain headerless_env "www.example.com" in
  4 * missing_headers bare_response <= Finder.riskScore result
  /\ Finder.RiskLevel result = "high".
Proof.
  apply (missing_headers_rate_high headerless_env "www.example.com"
           "93.184.216.34" bare_response securityHeaders
           (Some (map scanned
                      (Finder.elems
                         (checkSecurityHeaders bare_response securityHeaders))))
           []).
  - reflexivity.
  - reflexivity.
  - cbn [Finder.elems]. rewrite app_nil_r. reflexivity.
  - apply Permutation_refl.
  - vm_compute. reflexivity.
  - vm_compute. discriminate.
Defined.

(** A response of an old Apache with no other header: six Medium
    findings on the headers, and the two findings on the server. *)
Example apache_response_findings :
  map Severity (Finder.elems (checkSecurityHeaders apache_response securityHeaders))
  = ["Medium"; "Medium"; "Medium"; "Medium"; "Medium"; "Medium"]
  /\ map Name (Finder.elems (checkServerInfo apache_response))
     = ["Server Version Disclosure"; "Outdated Apache Version"].
Proof. split; reflexivity. Qed.

End VulnFacts.

(** ** The summary of a scan *)

Module ReporterFacts.
Import GoInt GoIntFacts Reporter.

Local Open Scope string_scope.
Local Open Scope Z_scope.
Local Open Scope list_scope.

(** *** Maps of counters *)

Section Counters.

Variable K : Type.
Variable eqb : K -> K -> bool.
Hypothesis eqb_spec : forall a b, reflect (a = b) (eqb a b).

Lemma lookup_absent (m : counts K) (k : K) :
  ~ In k (map fst m) -> lookup eqb m k = 0.
Proof.
  induction m as [|[k' v] m IH]; cbn [lookup map fst In]; intros H.
  - reflexivity.
  - destruct (eqb_spec k' k) as [->|_].
    + destruct H. left. reflexivity.
    + apply IH. intros Hin. apply H. right. exact Hin.
Qed.

Lemma lookup_entry (m : counts K) (k : K) (v : Z) :
  NoDup (map fst m) -> In (k, v) m -> lookup eqb m k = v.
Proof.
  induction m as [|[k' v'] m IH]; cbn [lookup map fst In]; intros Hnd Hin.
  - contradiction.
  - inversion Hnd as [|? ? Hnotin Hnd']; subst.
    destruct Hin as [Heq|Hin].
    + injection Heq as -> ->. destruct (eqb_spec k k); [reflexivity|contradiction].
    + destruct (eqb_spec k' k) as [->|_].
      * destruct Hnotin. apply (in_map fst) in Hin. exact Hin.
      * apply IH; assumption.
Qed.

Lemma lookup_positive (m : counts K) (k : K) :
  0 < lookup eqb m k -> In (k, lookup eqb m k) m.
Proof.
  induction m as [|[k' v'] m IH]; cbn [lookup In]; intros H.
  - lia.
  - destruct (eqb_spec k' k) as [->|_].
    + left. reflexivity.
    + right. apply IH. exact H.
Qed.

Lemma lookup_nonneg (m : counts K) (k : K) :
  Forall (fun entry => 0 < snd entry) m -> 0 <= lookup eqb m k.
Proof.
  induction 1 as [|[k' v'] m Hv _ IH]; cbn [lookup]; [lia|].
  destruct (eqb k' k); [cbn in Hv; lia | exact IH].
Qed.

Lemma incr_keys (m : counts K) (k k' : K) :
  In k' (map fst (incr eqb m k)) <-> k' = k \/ In k' (map fst m).
Proof.
  induction m as [|[k0 v] m IH]; cbn [incr map fst In].
  - split; [intros [H|[]]; left; auto | intros [H|[]]; left; auto].
  - destruct (eqb_spec k0 k) as [->|Hne]; cbn [map fst In].
    + split; [intros [H|H]; [right; left; exact H | right; right; exact H]|].
      intros [->|[H|H]]; [left; reflexivity | left; exact H | right; exact H].
    + rewrite IH. split.
      * intros [H|[H|H]]; [right; left; exact H | left; exact H
                           | right; right; exact H].
      * intros [H|[H|H]]; [right; left; exact H | left; exact H
                           | right; right; exact H].
Qed.

(** [m[k]++] adds one to the entry of [k] and leaves the others. *)
Lemma incr_spec (m : counts K) (k : K) :
  well_formed m ->
  lookup eqb m k < max_int64 ->
  well_formed (incr eqb m k)
  /\ forall k', lookup eqb (incr eqb m k) k'
                = lookup eqb m k' + (if eqb k k' then 1 else 0).
Proof.
  intros [Hnd Hpos] Hmax.
  induction m as [|[k0 v] m IH]; cbn [incr lookup] in *.
  - split.
    + split; [repeat constructor; intros [] | repeat constructor].
    + intros k'. cbn [lookup]. destruct (eqb k k'); reflexivity.
  - inversion Hnd as [|? ? Hnotin Hnd']; subst.
    inversion Hpos as [|? ? Hv Hpos']; subst. cbn [snd] in Hv.
    destruct (eqb_spec k0 k) as [->|Hne].
    + assert (Hadd : add64 v 1 = v + 1)
        by (apply add64_small; unfold in_int64, min_int64, max_int64 in *; lia).
      rewrite Hadd. split.
      * split; [exact Hnd|]. constructor; [cbn; lia | exact Hpos'].
      * intros k'. cbn [lookup].
        destruct (eqb_spec k k') as [->|Hne'].
        -- destruct (eqb_spec k' k'); [lia | contradiction].
        -- lia.
    + destruct (IH Hnd' Hpos' Hmax) as [[Hnd2 Hpos2] Hlook].
      split.
      * split.
        -- cbn [map fst]. constructor; [|exact Hnd2].
           intros Hin. apply incr_keys in Hin as [->|Hin]; contradiction.
        -- constructor; [exact Hv | exact Hpos2].
      * intros k'. cbn [lookup].
        destruct (eqb_spec k0 k') as [->|_]; [|apply Hlook].
        destruct (eqb_spec k k') as [->|_]; [contradiction | lia].
Qed.

(** The sum of the entries. *)
Lemma incr_total (m : counts K) (k : K) :
  well_formed m ->
  lookup eqb m k < max_int64 ->
  total_of snd (incr eqb m k) = total_of snd m + 1.
Proof.
  intros [Hnd Hpos] Hmax.
  induction m as [|[k0 v] m IH]; cbn [incr lookup total_of fold_right snd] in *.
  - reflexivity.
  - inversion Hnd as [|? ? Hnotin Hnd']; subst.
    inversion Hpos as [|? ? Hv Hpos']; subst. cbn [snd] in Hv.
    destruct (eqb_spec k0 k) as [->|Hne]; cbn [total_of fold_right snd].
    + rewrite add64_small
        by (unfold in_int64, min_int64, max_int64 in *; lia).
      lia.
    + fold (total_of (@snd K Z) (incr eqb m k)).
      fold (total_of (@snd K Z) m).
      rewrite (IH Hnd' Hpos' Hmax). lia.
Qed.

(** A run of increments counts the occurrences of each key. *)
Lemma incr_all {A : Type} (key : A -> K) (l : list A) (m : counts K) :
  well_formed m ->
  (forall k, lookup eqb m k + Z.of_nat (List.length l) < max_int64) ->
  let m' := fold_left (fun m x => incr eqb m (key x)) l m in
  well_formed m'
  /\ (forall k, lookup eqb m' k
                = lookup eqb m k + count_where (fun x => eqb (key x) k) l)
  /\ total_of snd m' = total_of snd m + Z.of_nat (List.length l).
Proof.
  revert m. induction l as [|x l IH]; intros m Hwf Hmax; cbn [fold_left].
  - cbn. split; [exact Hwf|]. split; [intros k; unfold count_where; cbn; lia | lia].
  - cbn [List.length] in Hmax. rewrite Nat2Z.inj_succ in Hmax.
    destruct (incr_spec m (key x) Hwf) as [Hwf1 Hlook1];
      [specialize (Hmax (key x)); lia|].
    pose proof (incr_total m (key x) Hwf) as Htot1.
    specialize (IH (incr eqb m (key x)) Hwf1).
    cbv zeta in IH.
    destruct IH as (Hwf' & Hlook' & Htot').
    { intros k. rewrite Hlook1. specialize (Hmax k).
      destruct (eqb (key x) k); lia. }
    split; [exact Hwf'|]. split.
    + intros k. rewrite Hlook', Hlook1. unfold count_where.
      cbn [filter]. destruct (eqb (key x) k); cbn [List.length]; lia.
    + rewrite Htot', Htot1 by (specialize (Hmax (key x)); lia).
      cbn [List.length]. lia.
Qed.

End Counters.

Lemma empty_well_formed (K : Type) : well_formed (K := K) [].
Proof. split; constructor. Qed.

(** *** Counters *)

Lemma count_where_nonneg {A : Type} (p : A -> bool) (l : list A) :
  0 <= count_where p l <= Z.of_nat (List.length l).
Proof.
  unfold count_where. pose proof (filter_length_le p l). lia.
Qed.

Lemma total_of_nonneg {A : Type} (f : A -> Z) (l : list A) :
  (forall x, 0 <= f x) -> 0 <= total_of f l.
Proof.
  intros Hf. induction l as [|x l IH]; cbn; [lia|].
  specialize (Hf x). fold (total_of f l). lia.
Qed.

Lemma count_where_all {A : Type} (l : list A) :
  count_where (fun _ => true) l = Z.of_nat (List.length l).
Proof.
  unfold count_where. do 2 f_equal.
  induction l as [|x l IH]; cbn [filter]; [|rewrite IH]; reflexivity.
Qed.

(** A counter that grows by [f x] at each element, without leaving the
    range of int. *)
Lemma fold_add64 {A : Type} (f : A -> Z) (l : list A) (acc : Z) :
  (forall x, 0 <= f x) ->
  0 <= acc ->
  acc + total_of f l <= max_int64 ->
  fold_left (fun acc x => add64 acc (f x)) l acc = acc + total_of f l.
Proof.
  intros Hf. revert acc. induction l as [|x l IH]; intros acc Hacc Hmax;
    cbn [fold_left total_of fold_right] in *.
  - lia.
  - fold (total_of f l) in *.
    pose proof (Hf x). pose proof (total_of_nonneg f l Hf).
    rewrite add64_small
      by (unfold in_int64, min_int64, max_int64 in *; lia).
    rewrite IH by lia. lia.
Qed.

Lemma fold_count {A : Type} (p : A -> bool) (l : list A) (acc : Z) :
  0 <= acc ->
  acc + Z.of_nat (List.length l) <= max_int64 ->
  fold_left (fun acc x => if p x then add64 acc 1 else acc) l acc
  = acc + count_where p l.
Proof.
  revert acc. induction l as [|x l IH]; intros acc Hacc Hmax;
    cbn [fold_left List.length] in *.
  - unfold count_where. cbn. lia.
  - rewrite Nat2Z.inj_succ in Hmax. unfold count_where. cbn [filter].
    destruct (p x).
    + rewrite add64_small
        by (unfold in_int64, min_int64, max_int64 in *; lia).
      rewrite IH by lia. unfold count_where. cbn [List.length]. lia.
    + rewrite IH by lia. reflexivity.
Qed.

Lemma fold_left_flat_map {A B C : Type} (g : C -> B -> C) (h : A -> list B)
    (l : list A) (acc : C) :
  fold_left (fun acc x => fold_left g (h x) acc) l acc
  = fold_left g (flat_map h l) acc.
Proof.
  revert acc. induction l as [|x l IH]; intros acc; cbn [fold_left flat_map].
  - reflexivity.
  - rewrite fold_left_app. apply IH.
Qed.

(** *** The loop of [GenerateSummaryReport], variable by variable *)

Lemma account_found (l : list Finder.Result) (t : tally) :
  t_found (fold_left account l t)
  = fold_left (fun acc r => if negb (Finder.IP r =? "")%string
                            then add64 acc 1 else acc) l (t_found t).
Proof.
  revert t. induction l as [|r l IH]; intros t; cbn [fold_left];
    [reflexivity | rewrite IH; reflexivity].
Qed.

Lemma account_open (l : list Finder.Result) (t : tally) :
  t_open (fold_left account l t)
  = fold_left (fun acc r => add64 acc (Finder.len (Finder.Ports r))) l
              (t_open t).
Proof.
  revert t. induction l as [|r l IH]; intros t; cbn [fold_left];
    [reflexivity | rewrite IH; reflexivity].
Qed.

Lemma account_vulns (l : list Finder.Result) (t : tally) :
  t_vulns (fold_left account l t)
  = fold_left (fun acc r => add64 acc (Finder.len (Finder.Vulnerabilities r)))
              l (t_vulns t).
Proof.
  revert t. induction l as [|r l IH]; intros t; cbn [fold_left];
    [reflexivity | rewrite IH; reflexivity].
Qed.

Lemma account_high (l : list Finder.Result) (t : tally) :
  t_high (fold_left account l t)
  = fold_left (fun high vuln => if high_risk vuln then add64 high 1 else high)
              (findings_of l) (t_high t).
Proof.
  unfold findings_of. rewrite <- fold_left_flat_map.
  revert t. induction l as [|r l IH]; intros t; cbn [fold_left];
    [reflexivity | rewrite IH; reflexivity].
Qed.

Lemma account_risk (l : list Finder.Result) (t : tally) :
  t_risk (fold_left account l t)
  = fold_left (fun m r => incr String.eqb m (Finder.RiskLevel r)) l (t_risk t).
Proof.
  revert t. induction l as [|r l IH]; intros t; cbn [fold_left];
    [reflexivity | rewrite IH; reflexivity].
Qed.

Lemma account_ports (l : list Finder.Result) (t : tally) :
  portMap (fold_left account l t)
  = fold_left (fun m port => incr Z.eqb m (Finder.port_Port port))
              (ports_of l) (portMap t).
Proof.
  unfold ports_of. rewrite <- fold_left_flat_map.
  revert t. induction l as [|r l IH]; intros t; cbn [fold_left];
    [reflexivity | rewrite IH; reflexivity].
Qed.

Lemma total_len_flat_map {A B : Type} (h : A -> list B) (l : list A) :
  total_of (fun x => Z.of_nat (List.length (h x))) l
  = Z.of_nat (List.length (flat_map h l)).
Proof.
  induction l as [|x l IH]; cbn [total_of fold_right flat_map]; [reflexivity|].
  fold (total_of (fun x => Z.of_nat (List.length (h x))) l).
  rewrite IH, length_app. lia.
Qed.

Lemma summary_found (visit : counts Z -> counts Z)
    (results : Finder.slice Finder.Result) :
  Finder.len results < 2 ^ 62 ->
  FoundSubdomains (GenerateSummaryReport visit results)
  = count_where (fun r => negb (Finder.IP r =? "")%string)
                (Finder.elems results).
Proof.
  intros Hlen. unfold Finder.len in Hlen.
  unfold GenerateSummaryReport. cbn [FoundSubdomains].
  rewrite account_found. cbn [t_found empty_tally].
  rewrite fold_count by (unfold max_int64; lia). lia.
Qed.

Lemma summary_risk (visit : counts Z -> counts Z)
    (results : Finder.slice Finder.Result) :
  Finder.len results < 2 ^ 62 ->
  (forall level,
     lookup String.eqb (RiskDistribution (GenerateSummaryReport visit results))
            level
     = count_where (fun r => (Finder.RiskLevel r =? level)%string)
                   (Finder.elems results))
  /\ total_of snd (RiskDistribution (GenerateSummaryReport visit results))
     = Finder.len results.
Proof.
  intros Hlen. unfold Finder.len in *.
  destruct (incr_all string String.eqb String.eqb_spec Finder.RiskLevel
              (Finder.elems results) [] (empty_well_formed string))
    as (_ & Hrisk & Hsum).
  { intros k. cbn [lookup]. unfold max_int64. lia. }
  unfold GenerateSummaryReport. cbn [RiskDistribution].
  rewrite account_risk. cbn [t_risk empty_tally]. split.
  - intros level. rewrite Hrisk. cbn [lookup]. lia.
  - rewrite Hsum. cbn [total_of fold_right]. lia.
Qed.

(** X25: [GenerateSummaryReport] counts what its names say, as long as
    the counters stay below 2^62: [TotalSubdomains] is the number of
    records, [FoundSubdomains] the number of those with a non-empty IP,
    [OpenPorts] and [Vulnerabilities] the numbers of ports and findings of
    all the records, [HighRiskItems] the number of findings of severity
    Critical or High; [RiskDistribution] maps each level to the number of
    records of that level, and its entries add up to [TotalSubdomains];
    and [TopPorts] holds an entry for a port exactly when the port occurs
    at least twice among the ports of all the records, whatever the order
    in which the map of the ports is visited. *)
Theorem GenerateSummaryReport_counts (visit : counts Z -> counts Z)
    (results : Finder.slice Finder.Result) :
  (forall m, Permutation (visit m) m) ->
  Finder.len results < 2 ^ 62 ->
  Z.of_nat (List.length (ports_of (Finder.elems results))) < 2 ^ 62 ->
  Z.of_nat (List.length (findings_of (Finder.elems results))) < 2 ^ 62 ->
  let l := Finder.elems results in
  let summary := GenerateSummaryReport visit results in
  TotalSubdomains summary = Z.of_nat (List.length l)
  /\ FoundSubdomains summary
     = count_where (fun r => negb (Finder.IP r =? "")%string) l
  /\ OpenPorts summary = Z.of_nat (List.length (ports_of l))
  /\ Vulnerabilities summary = Z.of_nat (List.length (findings_of l))
  /\ HighRiskItems summary = count_where high_risk (findings_of l)
  /\ FoundSubdomains summary <= TotalSubdomains summary
  /\ HighRiskItems summary <= Vulnerabilities summary
  /\ (forall level,
        lookup String.eqb (RiskDistribution summary) level
        = count_where (fun r => (Finder.RiskLevel r =? level)%string) l)
  /\ total_of snd (RiskDistribution summary) = TotalSubdomains summary
  /\ (forall port,
        In (top_port port) (TopPorts summary)
        <-> 1 < count_where (fun p => Finder.port_Port p =? port) (ports_of l)).
Proof.
  intros Hvisit Hlen Hports Hfindings l summary.
  unfold Finder.len in Hlen. fold l in Hlen, Hports, Hfindings.
  assert (Hmax : 2 ^ 62 < max_int64) by (unfold max_int64; lia).
  assert (Hfound : FoundSubdomains summary
                   = count_where (fun r => negb (Finder.IP r =? "")%string) l)
    by (apply summary_found; unfold Finder.len; exact Hlen).
  destruct (summary_risk visit results) as [Hrisk Hsum];
    [unfold Finder.len; exact Hlen|].
  fold summary in Hrisk, Hsum.
  assert (Hopen : OpenPorts summary = Z.of_nat (List.length (ports_of l))).
  { subst summary. unfold GenerateSummaryReport. cbn [OpenPorts].
    fold l. rewrite account_open. cbn [t_open empty_tally].
    unfold Finder.len, ports_of. rewrite <- total_len_flat_map.
    rewrite fold_add64; [lia | intros; lia | lia |].
    rewrite total_len_flat_map. unfold ports_of in Hports. lia. }
  assert (Hvulns : Vulnerabilities summary
                   = Z.of_nat (List.length (findings_of l))).
  { subst summary. unfold GenerateSummaryReport. cbn [Vulnerabilities].
    fold l. rewrite account_vulns. cbn [t_vulns empty_tally].
    unfold Finder.len, findings_of. rewrite <- total_len_flat_map.
    rewrite fold_add64; [lia | intros; lia | lia |].
    rewrite total_len_flat_map. unfold findings_of in Hfindings. lia. }
  assert (Hhigh : HighRiskItems summary = count_where high_risk (findings_of l)).
  { subst summary. unfold GenerateSummaryReport. cbn [HighRiskItems].
    fold l. rewrite account_high. cbn [t_high empty_tally].
    rewrite fold_count by lia. lia. }
  destruct (incr_all Z Z.eqb Z.eqb_spec Finder.port_Port (ports_of l) []
              (empty_well_formed Z)) as ([Hnd _] & Hpm & _).
  { intros k. cbn [lookup]. lia. }
  split; [reflexivity|]. split; [exact Hfound|]. split; [exact Hopen|].
  split; [exact Hvulns|]. split; [exact Hhigh|].
  split; [rewrite Hfound; apply count_where_nonneg|].
  split; [rewrite Hhigh, Hvulns; apply count_where_nonneg|].
  split; [exact Hrisk|]. split; [exact Hsum|].
  intros port.
  {  subst summary. unfold GenerateSummaryReport.
    cbn [TopPorts]. fold l. rewrite account_ports.
    cbn [portMap empty_tally].
    set (pm := fold_left (fun m port => incr Z.eqb m (Finder.port_Port port))
                         (ports_of l) []) in *.
    specialize (Hpm port). cbn [lookup] in Hpm.
    rewrite Z.add_0_l in Hpm. rewrite <- Hpm. clear Hpm.
    rewrite in_map_iff. split.
    + intros ([p c] & Heq & Hin). cbn [fst] in Heq.
      apply (f_equal Finder.port_Port) in Heq. cbn in Heq. subst p.
      apply filter_In in Hin as [Hin Hc]. cbn [snd] in Hc.
      apply (Permutation_in _ (Hvisit pm)) in Hin.
      rewrite (lookup_entry Z Z.eqb Z.eqb_spec pm port c Hnd Hin).
      apply Z.gtb_lt in Hc. lia.
    + intros Hc. exists (port, lookup Z.eqb pm port).
      split; [reflexivity|]. apply filter_In. split.
      * apply (Permutation_in _ (Permutation_sym (Hvisit pm))).
        apply (lookup_positive Z Z.eqb Z.eqb_spec). lia.
      * cbn [snd]. apply Z.gtb_lt. lia. }
Qed.

Lemma GenerateSummaryReport_counts_witness :
  let l := Finder.elems (Some [Examples.all_signals; Examples.all_signals]) in
  let summary :=
    GenerateSummaryReport (fun m => m)
      (Some [Examples.all_signals; Examples.all_signals]) in
  TotalSubdomains summary = Z.of_nat (List.length l)
  /\ FoundSubdomains summary
     = count_where (fun r => negb (Finder.IP r =? "")%string) l
  /\ OpenPorts summary = Z.of_nat (List.length (ports_of l))
  /\ Vulnerabilities summary = Z.of_nat (List.length (findings_of l))
  /\ HighRiskItems summary = count_where high_risk (findings_of l)
  /\ FoundSubdomains summary <= TotalSubdomains summary
  /\ HighRiskItems summary <= Vulnerabilities summary
  /\ (forall level,
        lookup String.eqb (RiskDistribution summary) level
        = count_where (fun r => (Finder.RiskLevel r =? level)%string) l)
  /\ total_of snd (RiskDistribution summary) = TotalSubdomains summary
  /\ (forall port,
        In (top_port port) (TopPorts summary)
        <-> 1 < count_where (fun p => Finder.port_Port p =? port) (ports_of l)).
Proof.
  apply (GenerateSummaryReport_counts (fun m => m)
           (Some [Examples.all_signals; Examples.all_signals])).
  - intros m. apply Permutation_refl.
  - vm_compute. reflexivity.
  - vm_compute. reflexivity.
  - vm_compute. reflexivity.
Defined.

(** *** The summary of what [Find] returns *)

Section OfFind.

Variable cfg : Finder.Config.
Variable env : Finder.Probes.
Variable words : list string.

(** A count over the records to emit is a count over the words. *)
Lemma count_emitted (p : Finder.Result -> bool) (ws : list string) :
  count_where p (flat_map (Finder.emitted cfg env) ws)
  = count_where
      (fun w => Runs.resolves cfg env w
                && p (Finder.checkSubdomain env (Finder.candidate cfg w)))
      ws.
Proof.
  unfold count_where.
  induction ws as [|w ws IH]; cbn [flat_map filter]; [reflexivity|].
  rewrite filter_app, length_app, Nat2Z.inj_add, IH.
  pose proof (FinderFacts.emitted_cases cfg env w) as Hw.
  unfold Runs.resolves.
  destruct (Finder.dns_Resolve env (Finder.candidate cfg w)) as [ip|err].
  - destruct Hw as (-> & _). cbn [filter andb].
    destruct (p _); cbn [List.length]; lia.
  - rewrite Hw. cbn [filter andb List.length]. lia.
Qed.

(** X26: the counts of the summary of an output of [Find] are fixed by
    the wordlist and the probes, not by the interleaving of the
    goroutines: [TotalSubdomains] is the number of words whose candidate
    resolves, [RiskDistribution] maps a level to the number of such words
    whose record has that level, and, when the resolver never returns an
    empty address, [FoundSubdomains] equals [TotalSubdomains]. *)
Theorem summary_of_Find (visit : counts Z -> counts Z)
    (out : list Finder.Result) :
  Z.of_nat (List.length words) < 2 ^ 62 ->
  (forall w ip,
     Finder.dns_Resolve env (Finder.candidate cfg w) = inl ip -> ip <> "") ->
  Finder.Find_returns cfg env words out ->
  let summary := GenerateSummaryReport visit (Some out) in
  TotalSubdomains summary = count_where (Runs.resolves cfg env) words
  /\ FoundSubdomains summary = TotalSubdomains summary
  /\ (forall level,
        lookup String.eqb (RiskDistribution summary) level
        = count_where
            (fun w =>
               Runs.resolves cfg env w
               && (Finder.RiskLevel
                     (Finder.checkSubdomain env (Finder.candidate cfg w))
                   =? level)%string)
            words).
Proof.
  intros Hlen Hip Hout summary.
  pose proof (FinderFacts.returned_output cfg env words out Hout) as Hperm.
  assert (Hcount : forall p,
             count_where p out
             = count_where
                 (fun w => Runs.resolves cfg env w
                           && p (Finder.checkSubdomain env
                                   (Finder.candidate cfg w)))
                 words).
  { intros p. rewrite <- count_emitted. unfold count_where.
    rewrite (RunFacts.filter_length_perm p _ _ Hperm). reflexivity. }
  assert (Hsize : Finder.len (Some out) < 2 ^ 62).
  { unfold Finder.len. cbn [Finder.elems].
    rewrite (Permutation_length Hperm).
    pose proof (FinderFacts.emitted_length cfg env words). lia. }
  assert (Htotal : TotalSubdomains summary
                   = count_where (Runs.resolves cfg env) words).
  { subst summary. unfold GenerateSummaryReport. cbn [TotalSubdomains].
    unfold Finder.len. cbn [Finder.elems].
    rewrite <- (count_where_all out).
    rewrite Hcount. unfold count_where. do 2 f_equal.
    apply filter_ext. intros w. apply andb_true_r. }
  split; [exact Htotal|]. split.
  - rewrite Htotal. subst summary. rewrite (summary_found visit _ Hsize).
    cbn [Finder.elems]. rewrite Hcount. unfold count_where. do 2 f_equal.
    apply filter_ext. intros w. unfold Runs.resolves.
    destruct (Finder.dns_Resolve env (Finder.candidate cfg w)) as [ip|err] eqn:Hw;
      [|reflexivity].
    destruct (FinderFacts.checkSubdomain_resolved env _ ip Hw) as [_ Hrec].
    rewrite Hrec. cbn [andb].
    destruct (String.eqb_spec ip "") as [E|_]; [|reflexivity].
    destruct (Hip w ip Hw E).
  - intros level. subst summary.
    destruct (summary_risk visit (Some out) Hsize) as [Hrisk _].
    rewrite Hrisk. cbn [Finder.elems]. apply Hcount.
Qed.

End OfFind.

Lemma summary_of_Find_witness :
  exists out,
    Finder.Find_returns Examples.example_cfg Examples.example_env
      Examples.example_words out
    /\ TotalSubdomains (GenerateSummaryReport (fun m => m) (Some out))
       = count_where (Runs.resolves Examples.example_cfg Examples.example_env)
                     Examples.example_words
    /\ FoundSubdomains (GenerateSummaryReport (fun m => m) (Some out))
       = TotalSubdomains (GenerateSummaryReport (fun m => m) (Some out))
    /\ (forall level,
          lookup String.eqb
            (RiskDistribution (GenerateSummaryReport (fun m => m) (Some out)))
            level
          = count_where
              (fun w =>
                 Runs.resolves Examples.example_cfg Examples.example_env w
                 && (Finder.RiskLevel
                       (Finder.checkSubdomain Examples.example_env
                          (Finder.candidate Examples.example_cfg w))
                     =? level)%string)
              Examples.example_words).
Proof.
  destruct (FinderFacts.Find_can_return Examples.example_cfg
              Examples.example_env Examples.example_words)
    as [out Hout]; [cbn; lia|].
  exists out. split; [exact Hout|].
  apply (summary_of_Find Examples.example_cfg Examples.example_env
           Examples.example_words (fun m => m) out).
  - cbn. lia.
  - intros w ip H. unfold Examples.example_env in H. cbn in H.
    destruct (Finder.candidate Examples.example_cfg w =? "www.example.com")%string;
      [|discriminate].
    injection H as <-. discriminate.
  - exact Hout.
Defined.

End ReporterFacts.

(** ** The port scan *)

Module PortFacts.
Import GoInt GoIntFacts PortScanner.

Local Open Scope string_scope.
Local Open Scope Z_scope.
Local Open Scope list_scope.

(** The quick ports are pairwise distinct and every one of them has a
    service name. *)
Lemma quickPorts_named :
  NoDup quickPorts
  /\ Forall (fun port => getServiceName port <> "unknown") quickPorts
  /\ List.length quickPorts = 23%nat.
Proof.
  split; [|split].
  - unfold quickPorts.
    repeat (constructor; [cbn; intros H; repeat destruct H as [H|H];
                          try discriminate H; exact H|]).
    constructor.
  - unfold quickPorts. repeat (constructor; [vm_compute; discriminate|]).
    constructor.
  - reflexivity.
Qed.

Section Network.

Variable dial : string -> Z -> option string.

Local Abbreviation scanPort := (scanPort dial).

Lemma scanPort_open (host : string) (port : Z) :
  (Finder.pr_State (scanPort host port) =? "open")%string
  = match dial host port with Some _ => true | None => false end.
Proof. unfold PortScanner.scanPort. destruct (dial host port); reflexivity. Qed.

(** X27: the ports in the record of a candidate are the open ports of
    its quick scan: when the port scanner has at least one slot, the
    record holds exactly [OpenPorts] entries, at most 23, one for each of
    the 23 quick ports the dial to which succeeded and for no other port,
    each in state "open" over "tcp" with the service name of the
    scanner's table (never "unknown"), and no port twice: whatever the
    order in which the scanning goroutines finish. *)
Theorem QuickScan_ports_in_record (env : Finder.Probes)
    (subdomain ip : string) (threads : Z) (done : list Z)
    (result : ScanResult) :
  Finder.dns_Resolve env subdomain = inl ip ->
  1 <= threads ->
  Permutation done quickPorts ->
  QuickScan dial threads ip done = Some result ->
  Finder.QuickScan env ip = Some (Some (Ports result)) ->
  let found := Finder.elems (Finder.Ports (Finder.checkSubdomain env subdomain)) in
  Z.of_nat (List.length found) = OpenPorts result
  /\ OpenPorts result <= TotalPorts result
  /\ TotalPorts result = 23
  /\ (forall port,
        In port (map Finder.port_Port found)
        <-> In port quickPorts /\ dial ip port <> None)
  /\ Forall (fun p =>
               Finder.port_State p = "open"
               /\ Finder.port_Protocol p = "tcp"
               /\ Finder.port_Service p = getServiceName (Finder.port_Port p)
               /\ Finder.port_Service p <> "unknown")
            found
  /\ NoDup (map Finder.port_Port found).
Proof.
  intros Hdns Hthreads Hperm Hscan Hquick found.
  destruct quickPorts_named as (Hnodup & Hnamed & Hlen).
  unfold QuickScan, ScanHost in Hscan. cbv zeta in Hscan.
  destruct (Z.ltb_spec threads 1); [lia|].
  injection Hscan as <-.
  cbn [Ports OpenPorts TotalPorts] in *.
  destruct (RecordFacts.checkSubdomain_fields env subdomain ip Hdns)
    as (_ & _ & _ & Hports).
  rewrite Hquick in Hports. cbn [Finder.elems] in Hports.
  assert (Hfound : found
                   = map Finder.to_PortInfo
                         (map (scanPort ip)
                              (filter (fun port =>
                                         match dial ip port with
                                         | Some _ => true
                                         | None => false
                                         end) done))).
  { subst found. rewrite Hports. cbn [Finder.elems]. f_equal.
    clear. induction done as [|port l IH]; cbn [map filter]; [reflexivity|].
    rewrite scanPort_open. destruct (dial ip port); cbn [map]; rewrite IH;
      reflexivity. }
  assert (Hopen : fold_left
                    (fun n port =>
                       if (Finder.pr_State (scanPort ip port) =? "open")%string
                       then add64 n 1 else n) done 0
                  = Z.of_nat (List.length found)).
  { rewrite ReporterFacts.fold_count.
    - rewrite Hfound, !length_map. unfold Reporter.count_where.
      rewrite Z.add_0_l. do 2 f_equal. apply filter_ext. intros port.
      apply scanPort_open.
    - lia.
    - rewrite (Permutation_length Hperm), Hlen. unfold max_int64. lia. }
  assert (Hports' : map Finder.port_Port found
                    = filter (fun port =>
                                match dial ip port with
                                | Some _ => true
                                | None => false
                                end) done).
  { rewrite Hfound, !map_map.
    erewrite map_ext; [apply map_id|].
    intros port. cbn. unfold PortScanner.scanPort.
    destruct (dial ip port); reflexivity. }
  split; [symmetry; exact Hopen|]. split; [|split; [|split; [|split]]].
  - rewrite Hopen, Hfound, !length_map.
    pose proof (filter_length_le
                  (fun port => match dial ip port with
                               | Some _ => true | None => false end) done).
    rewrite (Permutation_length Hperm) in H0. cbn in *. lia.
  - reflexivity.
  - intros port. rewrite Hports', filter_In. split.
    + intros [Hin Hd]. split.
      * eapply Permutation_in; eassumption.
      * destruct (dial ip port); [discriminate | discriminate Hd].
    + intros [Hin Hd]. split.
      * eapply Permutation_in; [apply Permutation_sym|]; eassumption.
      * destruct (dial ip port); [reflexivity | contradiction].
  - rewrite Hfound. apply Forall_forall. intros p Hin.
    apply in_map_iff in Hin as (pr & <- & Hin).
    apply in_map_iff in Hin as (port & <- & Hin).
    apply filter_In in Hin as [Hin Hd].
    apply (Permutation_in _ Hperm) in Hin.
    rewrite Forall_forall in Hnamed. specialize (Hnamed port Hin).
    unfold PortScanner.scanPort. destruct (dial ip port); [|discriminate].
    cbn. repeat split. exact Hnamed.
  - rewrite Hports'. apply NoDup_filter.
    eapply Permutation_NoDup; [apply Permutation_sym; exact Hperm|].
    exact Hnodup.
Qed.

End Network.

Lemma QuickScan_ports_in_record_witness :
  let found :=
    Finder.elems
      (Finder.Ports (Finder.checkSubdomain scanned_env "www.example.com")) in
  Z.of_nat (List.length found) = 2
  /\ 2 <= 23
  /\ 23 = 23
  /\ (forall port,
        In port (map Finder.port_Port found)
        <-> In port quickPorts /\ web_host "93.184.216.34" port <> None)
  /\ Forall (fun p =>
               Finder.port_State p = "open"
               /\ Finder.port_Protocol p = "tcp"
               /\ Finder.port_Service p = getServiceName (Finder.port_Port p)
               /\ Finder.port_Service p <> "unknown")
            found
  /\ NoDup (map Finder.port_Port found).
Proof.
  apply (QuickScan_ports_in_record web_host scanned_env "www.example.com"
           "93.184.216.34" 2 quickPorts
           {| Host := "93.184.216.34";
              Ports := map (scanPort web_host "93.184.216.34") quickPorts;
              OpenPorts := 2; TotalPorts := 23 |}).
  - reflexivity.
  - lia.
  - apply Permutation_refl.
  - reflexivity.
  - reflexivity.
Defined.

End PortFacts.

(** ** The resolver in the scan *)

Module ResolverFacts.
Import Finder Dns.

Local Open Scope string_scope.
Local Open Scope list_scope.

Section Scan.

Variable cfg : Config.
Variable env : Probes.
Variable words : list string.
Variable Exchange : string -> Qtype -> string -> option Msg.
Variable timed_out : string -> bool.

(** The resolver of the environment is [Resolver.Resolve] over the three
    servers. *)
Hypothesis env_resolver :
  forall domain,
    dns_Resolve env domain = Resolve Exchange (timed_out domain) domain.

Lemma resolves_by_server (domain ip : string) :
  dns_Resolve env domain = inl ip
  <-> timed_out domain = false
      /\ exists pre server post,
           servers = pre ++ server :: post
           /\ Forall (fun s => A_from Exchange domain s = None) pre
           /\ A_from Exchange domain server = Some ip.
Proof.
  rewrite env_resolver. unfold Resolve, resolveA.
  destruct (timed_out domain).
  - split; [discriminate | intros [H _]; discriminate].
  - rewrite DnsFacts.resolveA_from_found. split.
    + intros H. split; [reflexivity | exact H].
    + intros [_ H]. exact H.
Qed.

Lemma unresolved_by_all (domain err : string) :
  dns_Resolve env domain = inr err ->
  timed_out domain = true
  \/ Forall (fun s => A_from Exchange domain s = None) servers.
Proof.
  rewrite env_resolver. unfold Resolve, resolveA.
  destruct (timed_out domain); [left; reflexivity|].
  intros H. right. apply DnsFacts.resolveA_from_failed in H as [H _]. exact H.
Qed.

(** X28: with [Resolver.Resolve] as resolver, the output of [Find]
    holds a record for the candidate of a word exactly when the
    resolution did not time out and one of the three servers answered
    with an A record for it; and the IP of every record is the first A
    record of the first server, in the order 8.8.8.8, 1.1.1.1, 8.8.4.4,
    that gave one. *)
Theorem Find_emits_what_servers_answer (out : list Result) :
  Find_returns cfg env words out ->
  (forall w, In w words ->
     ((exists r, In r out /\ Subdomain r = candidate cfg w)
      <-> timed_out (candidate cfg w) = false
          /\ exists server,
               In server servers
               /\ A_from Exchange (candidate cfg w) server <> None))
  /\ (forall r, In r out ->
      exists w pre server post,
        In w words
        /\ Subdomain r = candidate cfg w
        /\ servers = pre ++ server :: post
        /\ Forall (fun s => A_from Exchange (candidate cfg w) s = None) pre
        /\ A_from Exchange (candidate cfg w) server = Some (IP r)).
Proof.
  intros Hout.
  pose proof (FinderFacts.returned_output cfg env words out Hout) as Hperm.
  assert (Hfrom : forall r, In r out ->
            exists w ip,
              In w words
              /\ dns_Resolve env (candidate cfg w) = inl ip
              /\ Subdomain r = candidate cfg w /\ IP r = ip).
  { intros r Hin. apply (Permutation_in _ Hperm) in Hin.
    apply in_flat_map in Hin as (w & Hw & Hin).
    pose proof (FinderFacts.emitted_cases cfg env w) as Hcase.
    destruct (dns_Resolve env (candidate cfg w)) as [ip|err] eqn:Hdns.
    - destruct Hcase as (He & Hs & Hi). rewrite He in Hin.
      destruct Hin as [<-|[]]. exists w, ip. repeat split; assumption.
    - rewrite Hcase in Hin. contradiction. }
  split.
  - intros w Hw. split.
    + intros (r & Hin & Hsub).
      destruct (Hfrom r Hin) as (w' & ip & _ & Hdns & Hsub' & _).
      rewrite Hsub in Hsub'. apply RunFacts.candidate_inj in Hsub'. subst w'.
      apply resolves_by_server in Hdns
        as (Hto & pre & server & post & Hs & _ & Hfound).
      split; [exact Hto|]. exists server. split.
      * rewrite Hs. apply in_elt.
      * rewrite Hfound. discriminate.
    + intros (Hto & server & Hin & Hfound).
      pose proof (FinderFacts.emitted_cases cfg env w) as Hcase.
      destruct (dns_Resolve env (candidate cfg w)) as [ip|err] eqn:Hdns.
      * destruct Hcase as (He & Hs & _).
        exists (checkSubdomain env (candidate cfg w)). split; [|exact Hs].
        apply (Permutation_in _ (Permutation_sym Hperm)).
        apply in_flat_map. exists w. split; [exact Hw|].
        rewrite He. left. reflexivity.
      * destruct (unresolved_by_all _ _ Hdns) as [H|H]; [congruence|].
        rewrite Forall_forall in H. destruct (Hfound (H server Hin)).
  - intros r Hin.
    destruct (Hfrom r Hin) as (w & ip & Hw & Hdns & Hsub & Hip).
    apply resolves_by_server in Hdns
      as (_ & pre & server & post & Hs & Hpre & Hfound).
    exists w, pre, server, post. rewrite Hip. repeat split; assumption.
Qed.

End Scan.

Lemma Find_emits_what_servers_answer_witness :
  exists out,
    Find_returns Examples.example_cfg served_env Examples.example_words out
    /\ (forall w, In w Examples.example_words ->
          ((exists r, In r out /\ Subdomain r = candidate Examples.example_cfg w)
           <-> (fun _ : string => false) (candidate Examples.example_cfg w)
               = false
               /\ exists server,
                    In server servers
                    /\ A_from split_horizon (candidate Examples.example_cfg w)
                              server <> None))
    /\ (forall r, In r out ->
        exists w pre server post,
          In w Examples.example_words
          /\ Subdomain r = candidate Examples.example_cfg w
          /\ servers = pre ++ server :: post
          /\ Forall (fun s =>
                       A_from split_horizon (candidate Examples.example_cfg w) s
                       = None) pre
          /\ A_from split_horizon (candidate Examples.example_cfg w) server
             = Some (IP r)).
Proof.
  destruct (FinderFacts.Find_can_return Examples.example_cfg served_env
              Examples.example_words) as [out Hout]; [cbn; lia|].
  exists out. split; [exact Hout|].
  apply (Find_emits_what_servers_answer Examples.example_cfg served_env
           Examples.example_words split_horizon (fun _ => false)).
  - intros domain. reflexivity.
  - exact Hout.
Defined.

End ResolverFacts.

(** ** Validated configurations *)

Module ValidationFacts.
Import Finder Cmd Runs.

Local Open Scope Z_scope.

(** X29: the ranges of the [validate] tags are enough for [Find]: on a
    configuration that passes [ValidateConfig] the domain is not empty
    and [Threads] lies in [1, 1000]; whatever the wordlist, the probes and
    the calls that block or panic, at most 1000 pipelines are ever
    executing at once; and when the call of [checkSubdomain] returns for
    every word, [Find] has a run that returns and no reachable state is
    stuck before the return. *)
Theorem validated_config_runs (cfg : Finder.Config) (env : Probes)
    (hz : Hazards) (words : list string) :
  Config.ValidateConfig (as_config cfg) = true ->
  Finder.Domain cfg <> ""%string
  /\ 1 <= Finder.Threads cfg <= 1000
  /\ (forall s, run_reachable cfg env hz words (Running s) ->
        executing s <= 1000)
  /\ ((forall w, In w words -> word_fate cfg env hz w = Returns) ->
      (exists s, run_reachable cfg env hz words (Running s)
                 /\ main s = Returned)
      /\ (forall s, run_reachable cfg env hz words (Running s) ->
            main s = Returned
            \/ exists s', run_step cfg env hz words (Running s) (Running s'))).
Proof.
  intros Hvalid. unfold Config.ValidateConfig, as_config in Hvalid.
  cbn [Config.Domain Config.Threads Config.Timeout Config.RateLimit
       Config.Retries Config.Delay] in Hvalid.
  repeat (apply andb_prop in Hvalid as [Hvalid ?]).
  assert (Hdomain : Finder.Domain cfg <> ""%string).
  { intros E. rewrite E in Hvalid. discriminate. }
  assert (Hthreads : 1 <= Finder.Threads cfg <= 1000).
  { repeat match goal with
           | H : (_ <=? _) = true |- _ => apply Z.leb_le in H
           end. lia. }
  split; [exact Hdomain|]. split; [exact Hthreads|]. split.
  - intros s Hreach.
    pose proof (RunFacts.running_reachable cfg env hz words s Hreach) as Hr.
    pose proof (FinderFacts.inv_reachable cfg env words s Hr) as Hinv.
    pose proof (FinderFacts.executing_bounded cfg env words s Hinv). lia.
  - intros Hall. split.
    + destruct (FinderFacts.Find_can_return cfg env words ltac:(lia))
        as (out & s & (s0 & Hinit & Hsteps) & Hret & _).
      destruct (RunFacts.steps_counted cfg env words s0 s Hsteps)
        as [n Hn].
      exists s. split; [|exact Hret]. exists s0, n. split; [exact Hinit|].
      apply RunFacts.returning_run; assumption.
    + intros s Hreach.
      pose proof (RunFacts.running_reachable cfg env hz words s Hreach) as Hr.
      pose proof (FinderFacts.inv_reachable cfg env words s Hr) as Hinv.
      destruct (main s) eqn:Hmain; [right|right|left; reflexivity].
      all: destruct (FinderFacts.progress cfg env words s ltac:(lia) Hinv)
          as [s' Hstep]; [rewrite Hmain; discriminate|].
      all: exists s'; apply run_statement; [exact Hstep|].
      all: intros w Hw; apply Hall;
        eapply RunFacts.caller_of_words; eassumption.
Qed.

(** The witness: the scan of example.com, none of whose calls blocks or
    panics. *)
Lemma validated_config_runs_witness :
  Finder.Domain Examples.example_cfg <> ""%string
  /\ 1 <= Finder.Threads Examples.example_cfg <= 1000
  /\ (forall s,
        run_reachable Examples.example_cfg Examples.example_env no_hazard
          Examples.example_words (Running s) ->
        executing s <= 1000)
  /\ (exists s,
        run_reachable Examples.example_cfg Examples.example_env no_hazard
          Examples.example_words (Running s)
        /\ main s = Returned)
  /\ (forall s,
        run_reachable Examples.example_cfg Examples.example_env no_hazard
          Examples.example_words (Running s) ->
        main s = Returned
        \/ exists s',
             run_step Examples.example_cfg Examples.example_env no_hazard
               Examples.example_words (Running s) (Running s')).
Proof.
  destruct (validated_config_runs Examples.example_cfg Examples.example_env
              no_hazard Examples.example_words)
    as (Hdomain & Hthreads & Hbound & Hruns).
  - reflexivity.
  - split; [exact Hdomain|]. split; [exact Hthreads|].
    split; [exact Hbound|]. apply Hruns.
    intros w _. unfold word_fate, checkSubdomain_fate, Check_fate.
    cbn [no_hazard Resolve_fate makeRequest_fate QuickScan_fate Analyze_fate
         Detect_fate ScanURL_fate and_then].
    destruct (dns_Resolve _ _); [|reflexivity].
    destruct (makeRequest _ _); reflexivity.
Defined.

End ValidationFacts.

(** ** The lines of the output file *)

Module OutputFacts.
Import Ascii Finder Output.

Local Open Scope string_scope.

Lemma occurrences_app (c : Ascii.ascii) (s1 s2 : string) :
  occurrences c (s1 ++ s2) = (occurrences c s1 + occurrences c s2)%nat.
Proof.
  induction s1 as [|d s1 IH]; cbn [append occurrences]; [reflexivity|].
  rewrite IH. lia.
Qed.

(** After the replacement no byte [old] is left, and the length is
    kept. *)
Lemma ReplaceAll1_none (s : string) (old new : Ascii.ascii) :
  old <> new ->
  occurrences old (ReplaceAll1 s old new) = 0%nat
  /\ String.length (ReplaceAll1 s old new) = String.length s.
Proof.
  intros Hne. induction s as [|c s [IH1 IH2]]; cbn [ReplaceAll1 occurrences
                                                    String.length].
  - split; reflexivity.
  - rewrite IH1, IH2. split; [|reflexivity].
    destruct (Ascii.eqb_spec c old) as [->|Hc].
    + destruct (Ascii.eqb_spec new old) as [E|_]; [destruct (Hne (eq_sym E))|].
      reflexivity.
    + destruct (Ascii.eqb_spec c old); [contradiction | reflexivity].
Qed.

(** A decimal numeral has no comma. *)
Lemma numeral_no_comma (d : Decimal.uint) :
  occurrences ","%char (NilEmpty.string_of_uint d) = 0%nat.
Proof. induction d; cbn; assumption || reflexivity. Qed.

Lemma Sprintf_d_no_comma (n : Z) : occurrences ","%char (Sprintf_d n) = 0%nat.
Proof.
  unfold Sprintf_d, NilZero.string_of_int, NilZero.string_of_uint.
  destruct (Z.to_int n) as [d|d]; destruct d; cbn [occurrences];
    try reflexivity; cbn; apply numeral_no_comma.
Qed.

Lemma Check_status_no_comma (env : Probes) (domain : string) :
  occurrences ","%char (fst (Check env domain)) = 0%nat.
Proof.
  unfold Check.
  destruct (makeRequest env ("http://" ++ domain)) as [r1|];
    [|destruct (makeRequest env ("https://" ++ domain)) as [r2|]];
    cbn [fst response_summary]; try apply Sprintf_d_no_comma. reflexivity.
Qed.

(** X30: the line [SaveToFile] writes for the record of a resolved
    candidate has exactly four comma-separated fields when neither the
    candidate name nor the address holds a comma: the name, the address,
    the status (a numeral or "N/A"), and the response text, in which
    every comma has become a semicolon and which is as long as before;
    the line ends with one newline. *)
Theorem csv_line_fields (env : Probes) (subdomain ip : string) :
  dns_Resolve env subdomain = inl ip ->
  occurrences ","%char subdomain = 0%nat ->
  occurrences ","%char ip = 0%nat ->
  let result := checkSubdomain env subdomain in
  let text := ReplaceAll1 (Response result) ","%char ";"%char in
  csv_line result
  = subdomain ++ "," ++ ip ++ "," ++ Status result ++ "," ++ text
    ++ String "010"%char ""
  /\ occurrences ","%char (csv_line result) = 3%nat
  /\ occurrences ","%char (Status result) = 0%nat
  /\ occurrences ","%char text = 0%nat
  /\ String.length text = String.length (Response result).
Proof.
  intros Hdns Hsub Hip result text.
  destruct (FinderFacts.checkSubdomain_resolved env subdomain ip Hdns)
    as [Hname Haddr].
  pose proof (FinderFacts.checkSubdomain_soft_failures env subdomain ip Hdns)
    as [Hcheck _].
  fold result in Hname, Haddr, Hcheck.
  assert (Hstatus : occurrences ","%char (Status result) = 0%nat).
  { replace (Status result) with (fst (Check env subdomain))
      by (rewrite <- Hcheck; reflexivity).
    apply Check_status_no_comma. }
  destruct (ReplaceAll1_none (Response result) "," ";") as [Htext Hlen];
    [discriminate|].
  fold text in Htext, Hlen.
  assert (Hline : csv_line result
                  = subdomain ++ "," ++ ip ++ "," ++ Status result ++ ","
                    ++ text ++ String "010"%char "").
  { unfold csv_line. rewrite Hname, Haddr. reflexivity. }
  split; [exact Hline|]. split; [|split; [exact Hstatus|split; assumption]].
  rewrite Hline, !occurrences_app, Hsub, Hip, Hstatus, Htext. reflexivity.
Qed.

Lemma csv_line_fields_witness :
  let result := checkSubdomain Examples.example_env "www.example.com" in
  let text := ReplaceAll1 (Response result) ","%char ";"%char in
  csv_line result
  = "www.example.com" ++ "," ++ "93.184.216.34" ++ "," ++ Status result ++ ","
    ++ text ++ String "010"%char ""
  /\ occurrences ","%char (csv_line result) = 3%nat
  /\ occurrences ","%char (Status result) = 0%nat
  /\ occurrences ","%char text = 0%nat
  /\ String.length text = String.length (Response result).
Proof.
  apply (csv_line_fields Examples.example_env "www.example.com"
           "93.184.216.34"); reflexivity.
Defined.

End OutputFacts.
